(** * waf-bedrock-analyzer: the query orchestrator of the Lambda handler

    A shallow embedding of the Go sources (athena.go, utils.go, main.go,
    slack.go): the SQL rewriter [preprocessSqlQuery], the region router
    [getQueryRegion], the result formatter [formatAthenaResults], the
    executor [runAthenaQuery], the two dedup guards of [handler] and the
    notifier [postToSlack].

    Go strings are byte sequences; they are modelled as [list ascii].
    Durations and clock readings are integers (nanoseconds). *)

From Stdlib Require Import ZArith NArith List Ascii String Bool Lia.
From stdpp Require Import gmap strings list fin_maps.
From Stdlib Require Import Sorted.

Local Open Scope Z_scope.
Local Open Scope list_scope.

(** A Go string literal. *)
Definition bs (s : string) : list ascii := list_ascii_of_string s.
Arguments bs s%_string.

Abbreviation gostring := (list ascii) (only parsing).

(* ===================================================================== *)
(** ** Package strings, strconv and unicode/utf8 *)
(* ===================================================================== *)

Module GoStrings.

Definition code (c : ascii) : N := N_of_ascii c.

Definition chr (n : N) : ascii := ascii_of_N n.

(** utf8.RuneSelf: bytes below it are single-byte runes. *)
Definition RuneSelf : N := 128.

Definition isASCII (c : ascii) : bool := (code c <? RuneSelf)%N.

Definition isDigit (c : ascii) : bool :=
  ((48 <=? code c) && (code c <=? 57))%N.

Definition isLower (c : ascii) : bool :=
  ((97 <=? code c) && (code c <=? 122))%N.

(** strings.HasPrefix *)
Fixpoint HasPrefix (s prefix : gostring) {struct prefix} : bool :=
  match prefix, s with
  | [], _ => true
  | _ :: _, [] => false
  | p :: prefix', c :: s' => Ascii.eqb p c && HasPrefix s' prefix'
  end.

(** strings.Contains: some suffix of [s] starts with [substr]. *)
Fixpoint Contains (s substr : gostring) : bool :=
  HasPrefix s substr ||
  match s with
  | [] => false
  | _ :: s' => Contains s' substr
  end.

(** The scan of strings.Replace for a non-empty [old].  [limit] is the
    number of replacements still allowed ([None] for n < 0); [skip] counts
    the bytes of a replaced occurrence that are still to be dropped, so
    that occurrences do not overlap. *)
Fixpoint replaceFrom (old new : gostring) (limit : option nat) (skip : nat)
    (s : gostring) : gostring :=
  match s with
  | [] => []
  | c :: s' =>
      match skip with
      | S k => replaceFrom old new limit k s'
      | O =>
          match limit with
          | Some O => c :: s'
          | _ =>
              if HasPrefix s old
              then new ++ replaceFrom old new (pred <$> limit)
                            (Nat.pred (length old)) s'
              else c :: replaceFrom old new limit O s'
          end
      end
  end.

(** strings.Replace.  Every call site passes a non-empty [old]; the
    insertion between runes that Go performs for an empty [old] is not
    modelled, and the string is returned as it is. *)
Definition Replace (s old new : gostring) (n : Z) : gostring :=
  if decide (old = new) then s
  else if n =? 0 then s
  else match old with
       | [] => s
       | _ => replaceFrom old new (if n <? 0 then None else Some (Z.to_nat n)) O s
       end.

(** The ASCII white space of strings.TrimSpace (asciiSpace). *)
Definition asciiSpace (c : ascii) : bool :=
  let n := code c in
  ((n =? 9) || (n =? 10) || (n =? 11) || (n =? 12) || (n =? 13) || (n =? 32))%N.

(** The UTF-8 encodings of the runes for which unicode.IsSpace holds:
    U+0009..U+000D, U+0020, U+0085, U+00A0, U+1680, U+2000..U+200A,
    U+2028, U+2029, U+202F, U+205F and U+3000. *)
Definition spaceRunes : list gostring :=
  map (map chr)
    [[9]; [10]; [11]; [12]; [13]; [32]; [194; 133]; [194; 160];
     [225; 154; 128];
     [226; 128; 128]; [226; 128; 129]; [226; 128; 130]; [226; 128; 131];
     [226; 128; 132]; [226; 128; 133]; [226; 128; 134]; [226; 128; 135];
     [226; 128; 136]; [226; 128; 137]; [226; 128; 138];
     [226; 128; 168]; [226; 128; 169]; [226; 128; 175];
     [226; 129; 159]; [227; 128; 128]]%N.

(** The width of the rune of [table] at the front of [s]; 0 when [s]
    starts with none of them. *)
Definition runeWidthIn (table : list gostring) (s : gostring) : nat :=
  match List.find (HasPrefix s) table with
  | Some rune => length rune
  | None => O
  end.

(** unicode.IsSpace on the first rune of the string (as decoded by
    utf8.DecodeRuneInString), as the width of that rune. *)
Definition spaceWidth (s : gostring) : nat := runeWidthIn spaceRunes s.

(** The same test on the last rune (utf8.DecodeLastRuneInString), reading
    the reversed string. *)
Definition spaceWidthLast (r : gostring) : nat :=
  runeWidthIn (map (@rev ascii) spaceRunes) r.

(** Drop white-space runes from the front, as long as [width] finds one. *)
Fixpoint trimFrom (width : gostring -> nat) (skip : nat) (s : gostring)
    : gostring :=
  match s with
  | [] => []
  | c :: s' =>
      match skip with
      | S k => trimFrom width k s'
      | O =>
          match width s with
          | O => s
          | S k => trimFrom width k s'
          end
      end
  end.

Definition TrimLeftSpace (s : gostring) : gostring := trimFrom spaceWidth O s.

Definition TrimRightSpace (s : gostring) : gostring :=
  rev (trimFrom spaceWidthLast O (rev s)).

(** strings.TrimSpace *)
Definition TrimSpace (s : gostring) : gostring :=
  TrimRightSpace (TrimLeftSpace s).

(** strings.ToUpper.  An all-ASCII string takes the byte-wise fast path;
    any other string is mapped rune by rune with unicode.ToUpper, whose case
    tables are not part of this repository: [unicodeUpper] stands for
    strings.Map(unicode.ToUpper, _). *)
Definition upperByte (c : ascii) : ascii :=
  if isLower c then chr (code c - 32) else c.

Definition ToUpper (unicodeUpper : gostring -> gostring) (s : gostring)
    : gostring :=
  if forallb isASCII s then map upperByte s else unicodeUpper s.

(** strconv.Atoi succeeds: an optional sign, at least one digit, only
    digits, and a value that fits in 64 bits. *)
Fixpoint digitsValue (acc : Z) (s : gostring) : Z :=
  match s with
  | [] => acc
  | c :: s' => digitsValue (10 * acc + Z.of_N (code c - 48)) s'
  end.

Definition atoiOk (s : gostring) : bool :=
  let '(neg, ds) :=
    match s with
    | c :: s' =>
        if Ascii.eqb c "-" then (true, s')
        else if Ascii.eqb c "+" then (false, s') else (false, s)
    | [] => (false, s)
    end in
  match ds with
  | [] => false
  | _ =>
      forallb isDigit ds &&
      (if neg then digitsValue 0 ds <=? 2 ^ 63 else digitsValue 0 ds <? 2 ^ 63)
  end.

Definition inRange (lo hi c : N) : bool := ((lo <=? c) && (c <=? hi))%N.

(** The width in bytes of the rune at the front of a non-empty string, as
    utf8.RuneCountInString steps over it (an invalid or short sequence
    counts as one rune of width one). *)
Definition runeWidth (s : gostring) : nat :=
  match map code s with
  | [] => 0%nat
  | c :: rest =>
      if (c <? 128)%N then 1%nat
      else
        let '(size, lo, hi) :=
          (if inRange 194 223 c then (2%nat, 128, 191)
           else if (c =? 224) then (3%nat, 160, 191)
           else if inRange 225 236 c then (3%nat, 128, 191)
           else if (c =? 237) then (3%nat, 128, 159)
           else if inRange 238 239 c then (3%nat, 128, 191)
           else if (c =? 240) then (4%nat, 144, 191)
           else if inRange 241 243 c then (4%nat, 128, 191)
           else if (c =? 244) then (4%nat, 128, 143)
           else (1%nat, 0, 0))%N in
        match size, rest with
        | 2%nat, c1 :: _ => if inRange lo hi c1 then 2%nat else 1%nat
        | 3%nat, c1 :: c2 :: _ =>
            if inRange lo hi c1 && inRange 128 191 c2 then 3%nat else 1%nat
        | 4%nat, c1 :: c2 :: c3 :: _ =>
            if inRange lo hi c1 && inRange 128 191 c2 && inRange 128 191 c3
            then 4%nat else 1%nat
        | _, _ => 1%nat
        end
  end.

(** utf8.RuneCountInString *)
Fixpoint runeCountFrom (skip : nat) (s : gostring) : nat :=
  match s with
  | [] => O
  | _ :: s' =>
      match skip with
      | S k => runeCountFrom k s'
      | O => S (runeCountFrom (Nat.pred (runeWidth s)) s')
      end
  end.

Definition RuneCountInString (s : gostring) : nat := runeCountFrom O s.

(** strings.Repeat of a one-byte string. *)
Definition Repeat (c : ascii) (n : nat) : gostring := repeat c n.

(** fmt.Sprintf("%-<width>s", s): left-justified, padded with spaces to
    [width] runes. *)
Definition padRight (width : nat) (s : gostring) : gostring :=
  s ++ Repeat " " (width - RuneCountInString s).

End GoStrings.

Import GoStrings.

(* ===================================================================== *)
(** ** Package regexp, for the two patterns of the rewriter *)
(* ===================================================================== *)

Module Regexp.

(** The patterns of athena.go are sequences of literals and of greedy
    one-or-more repetitions of a byte class, some of them capturing.  Each
    repetition is followed by a literal whose first byte is outside the
    class ([deterministic] below), so RE2's leftmost-first match at a given
    start position is the one the greedy scan finds, without backtracking. *)
Inductive node :=
  | Lit (l : gostring)
  | Plus (cls : ascii -> bool)
  | Group (cls : ascii -> bool).

(** Perl class \s of RE2: [\t\n\f\r ]. *)
Definition perlSpace (c : ascii) : bool :=
  let n := code c in
  ((n =? 9) || (n =? 10) || (n =? 12) || (n =? 13) || (n =? 32))%N.

(** The class [^']. *)
Definition notQuote (c : ascii) : bool := negb (Ascii.eqb c "'").

(** The longest prefix of [s] inside the class, and what follows it. *)
Fixpoint span (cls : ascii -> bool) (s : gostring) : gostring * gostring :=
  match s with
  | [] => ([], [])
  | c :: s' =>
      if cls c then let '(a, b) := span cls s' in (c :: a, b) else ([], s)
  end.

(** Match the nodes at the front of [s]: the captured groups and the rest
    of the string after the match. *)
Fixpoint matchHere (re : list node) (s : gostring)
    : option (list gostring * gostring) :=
  match re with
  | [] => Some ([], s)
  | Lit l :: re' =>
      if HasPrefix s l then matchHere re' (drop (length l) s) else None
  | Plus cls :: re' =>
      match span cls s with
      | ([], _) => None
      | (_, rest) => matchHere re' rest
      end
  | Group cls :: re' =>
      match span cls s with
      | ([], _) => None
      | (g, rest) =>
          '(gs, rest') ← matchHere re' rest; Some (g :: gs, rest')
      end
  end.

Definition deterministicStep (cls : ascii -> bool) (re' : list node) : bool :=
  match re' with
  | Lit (c :: _) :: _ => negb (cls c)
  | _ => false
  end.

Fixpoint deterministic (re : list node) : bool :=
  match re with
  | [] => true
  | Lit _ :: re' => deterministic re'
  | Plus cls :: re' | Group cls :: re' =>
      deterministicStep cls re' && deterministic re'
  end.

(** A match at the front of [s]: the matched text followed by the groups
    (the slice that FindStringSubmatch returns). *)
Definition submatchHere (re : list node) (s : gostring)
    : option (list gostring) :=
  '(gs, rest) ← matchHere re s;
  Some (take (length s - length rest) s :: gs).

(** Regexp.FindStringSubmatch: the leftmost match, [[]] (nil) if none. *)
Fixpoint FindStringSubmatch (re : list node) (s : gostring)
    : list gostring :=
  match submatchHere re s with
  | Some m => m
  | None =>
      match s with
      | [] => []
      | _ :: s' => FindStringSubmatch re s'
      end
  end.

(** Regexp.MatchString *)
Definition MatchString (re : list node) (s : gostring) : bool :=
  match FindStringSubmatch re s with
  | [] => false
  | _ => true
  end.

Definition matchLength (m : list gostring) : nat :=
  match m with
  | [] => O
  | whole :: _ => length whole
  end.

(** Regexp.FindAllStringSubmatch(s, -1): successive non-overlapping
    matches, each search resuming where the previous match ended. *)
Fixpoint findAllFrom (re : list node) (skip : nat) (s : gostring)
    : list (list gostring) :=
  match s with
  | [] => []
  | _ :: s' =>
      match skip with
      | S k => findAllFrom re k s'
      | O =>
          match submatchHere re s with
          | Some m => m :: findAllFrom re (Nat.pred (matchLength m)) s'
          | None => findAllFrom re O s'
          end
      end
  end.

Definition FindAllStringSubmatch (re : list node) (s : gostring)
    : list (list gostring) :=
  findAllFrom re O s.

(** Regexp.ReplaceAllStringFunc: every match is replaced by [repl] of the
    matched text; the text between matches is copied. *)
Fixpoint replaceAllFrom (re : list node) (repl : gostring -> gostring)
    (skip : nat) (s : gostring) : gostring :=
  match s with
  | [] => []
  | c :: s' =>
      match skip with
      | S k => replaceAllFrom re repl k s'
      | O =>
          match submatchHere re s with
          | Some (whole :: _) =>
              repl whole ++ replaceAllFrom re repl (Nat.pred (length whole)) s'
          | _ => c :: replaceAllFrom re repl O s'
          end
      end
  end.

Definition ReplaceAllStringFunc (re : list node) (s : gostring)
    (repl : gostring -> gostring) : gostring :=
  replaceAllFrom re repl O s.

End Regexp.

Import Regexp.

(* ===================================================================== *)
(** ** Package time, for the layout "2006-01-02 15:04:05" *)
(* ===================================================================== *)

Module GoTime.

(** time.Duration counts nanoseconds. *)
Definition Nanosecond : Z := 1.
Definition Second : Z := 1000000000 * Nanosecond.
Definition Minute : Z := 60 * Second.
Definition Hour : Z := 60 * Minute.

(** A time.Time in UTC: seconds since 1970-01-01 00:00:00 and the
    nanoseconds within that second. *)
Record Time := mkTime { unixSec : Z; nsec : Z }.

Definition digitVal (c : ascii) : Z := Z.of_N (code c - 48).

Definition digitChar (n : Z) : ascii := chr (48 + Z.to_N (n mod 10)).

(** getnum: one or two decimal digits; exactly two when [fixed]. *)
Definition getnum (s : gostring) (fixed : bool) : option (Z * gostring) :=
  match s with
  | c0 :: s1 =>
      if isDigit c0 then
        match s1 with
        | c1 :: s2 =>
            if isDigit c1 then Some (digitVal c0 * 10 + digitVal c1, s2)
            else if fixed then None else Some (digitVal c0, s1)
        | [] => if fixed then None else Some (digitVal c0, s1)
        end
      else None
  | [] => None
  end.

(** stdLongYear: exactly four digits. *)
Definition getyear (s : gostring) : option (Z * gostring) :=
  match s with
  | c0 :: c1 :: c2 :: c3 :: rest =>
      if forallb isDigit [c0; c1; c2; c3]
      then Some (digitsValue 0 [c0; c1; c2; c3], rest)
      else None
  | _ => None
  end.

(** skip for a one-byte literal of the layout other than a space. *)
Definition skipByte (c : ascii) (s : gostring) : option gostring :=
  match s with
  | c' :: s' => if Ascii.eqb c c' then Some s' else None
  | [] => None
  end.

Fixpoint cutspace (s : gostring) : gostring :=
  match s with
  | c :: s' => if Ascii.eqb c " " then cutspace s' else s
  | [] => []
  end.

(** skip for the space of the layout: the value is empty or starts with a
    space, and all its leading spaces are cut. *)
Definition skipSpace (s : gostring) : option gostring :=
  match s with
  | c :: _ => if Ascii.eqb c " " then Some (cutspace s) else None
  | [] => Some []
  end.

(** A fractional second after the seconds field is accepted although the
    layout has none: a comma or period and the digits that follow it.
    [skipFraction] is the value after these n bytes (value[n:]), and
    [fractionNsec] what parseNanoseconds(value, n) makes of them. *)
Definition commaOrPeriod (c : ascii) : bool :=
  Ascii.eqb c "." || Ascii.eqb c ",".

Definition skipFraction (s : gostring) : gostring :=
  match s with
  | c0 :: c1 :: rest =>
      if commaOrPeriod c0 && isDigit c1 then snd (span isDigit rest) else s
  | _ => s
  end.

(** parseNanoseconds: the digits value[1:nbytes], the first nine of them
    at most, scaled to nanoseconds. *)
Definition parseNanoseconds (value : gostring) (nbytes : nat) : Z :=
  let nbytes := if (10 <? nbytes)%nat then 10%nat else nbytes in
  digitsValue 0 (take (nbytes - 1) (drop 1 value))
  * 10 ^ Z.of_nat (10 - nbytes).

Definition fractionNsec (s : gostring) : Z :=
  match s with
  | c0 :: c1 :: rest =>
      if commaOrPeriod c0 && isDigit c1
      then parseNanoseconds s (2 + length (fst (span isDigit rest)))
      else 0
  | _ => 0
  end.

Definition isLeap (year : Z) : bool :=
  (year mod 4 =? 0) && (negb (year mod 100 =? 0) || (year mod 400 =? 0)).

Definition daysIn (month year : Z) : Z :=
  if month =? 2 then (if isLeap year then 29 else 28)
  else if (month =? 4) || (month =? 6) || (month =? 9) || (month =? 11)
       then 30 else 31.

(** Days between 1970-01-01 and the given date of the proleptic Gregorian
    calendar. *)
Definition daysFromCivil (y m d : Z) : Z :=
  let y' := if m <=? 2 then y - 1 else y in
  let era := y' / 400 in
  let yoe := y' - era * 400 in
  let doy := (153 * (if 2 <? m then m - 3 else m + 9) + 2) / 5 + d - 1 in
  let doe := yoe * 365 + yoe / 4 - yoe / 100 + doy in
  era * 146097 + doe - 719468.

Definition civilFromDays (z : Z) : Z * Z * Z :=
  let z := z + 719468 in
  let era := z / 146097 in
  let doe := z - era * 146097 in
  let yoe := (doe - doe / 1460 + doe / 36524 - doe / 146096) / 365 in
  let doy := doe - (365 * yoe + yoe / 4 - yoe / 100) in
  let mp := (5 * doy + 2) / 153 in
  let d := doy - (153 * mp + 2) / 5 + 1 in
  let m := if mp <? 10 then mp + 3 else mp - 9 in
  (yoe + era * 400 + (if m <=? 2 then 1 else 0), m, d).

(** time.Parse("2006-01-02 15:04:05", value); [None] for any error.  The
    time is Date(year, month, day, hour, min, sec, nsec, UTC). *)
Definition Parse (value : gostring) : option Time :=
  '(year, value) ← getyear value;
  value ← skipByte "-" value;
  '(month, value) ← getnum value true;
  if (month <=? 0) || (12 <? month) then None else
  value ← skipByte "-" value;
  '(day, value) ← getnum value true;
  value ← skipSpace value;
  '(hour, value) ← getnum value false;
  if 24 <=? hour then None else
  value ← skipByte ":" value;
  '(min, value) ← getnum value true;
  if 60 <=? min then None else
  value ← skipByte ":" value;
  '(sec, value) ← getnum value true;
  if 60 <=? sec then None else
  match skipFraction value with
  | [] =>
      if (day <? 1) || (daysIn month year <? day) then None
      else Some (mkTime (daysFromCivil year month day * 86400
                         + hour * 3600 + min * 60 + sec)
                   (fractionNsec value))
  | _ :: _ => None
  end.

(** Time.Add *)
Definition Add (t : Time) (d : Z) : Time :=
  let total := unixSec t * Second + nsec t + d in
  mkTime (total / Second) (total mod Second).

Fixpoint decimalFuel (fuel : nat) (n : Z) : gostring :=
  match fuel with
  | O => []
  | S fuel' =>
      if n <? 10 then [digitChar n]
      else decimalFuel fuel' (n / 10) ++ [digitChar n]
  end.

(** appendInt: the decimal digits of [x], zero-padded to [width], after a
    minus sign if [x] is negative. *)
Definition appendInt (x : Z) (width : nat) : gostring :=
  let ds := decimalFuel 20 (Z.abs x) in
  (if x <? 0 then bs "-" else []) ++ repeat "0"%char (width - length ds) ++ ds.

(** Time.Format("2006-01-02 15:04:05") *)
Definition Format (t : Time) : gostring :=
  let '(year, month, day) := civilFromDays (unixSec t / 86400) in
  let s := unixSec t mod 86400 in
  appendInt year 4 ++ bs "-" ++ appendInt month 2 ++ bs "-" ++ appendInt day 2
  ++ bs " " ++ appendInt (s / 3600) 2 ++ bs ":" ++ appendInt (s / 60 mod 60) 2
  ++ bs ":" ++ appendInt (s mod 60) 2.

End GoTime.

(* ===================================================================== *)
(** ** athena.go: preprocessSqlQuery *)
(* ===================================================================== *)

Definition glueDb := bs "amazon_security_lake_glue_db".
Definition glueDbAp := bs "amazon_security_lake_glue_db_ap_northeast_1".
Definition glueDbUs := bs "amazon_security_lake_glue_db_us_east_1".
Definition tableAp := bs "amazon_security_lake_table_ap_northeast_1_waf_2_0".
Definition tableUs := bs "amazon_security_lake_table_us_east_1_waf_2_0".

(** time_dt\s+BETWEEN\s+'([^']+)'\s+AND\s+'([^']+)' *)
Definition betweenRegex : list node :=
  [Lit (bs "time_dt"); Plus perlSpace; Lit (bs "BETWEEN"); Plus perlSpace;
   Lit (bs "'"); Group notQuote; Lit (bs "'"); Plus perlSpace;
   Lit (bs "AND"); Plus perlSpace; Lit (bs "'"); Group notQuote;
   Lit (bs "'")].

(** BETWEEN\s+'([^']+)'\s+AND\s+'([^']+)' *)
Definition simpleRegex : list node :=
  [Lit (bs "BETWEEN"); Plus perlSpace;
   Lit (bs "'"); Group notQuote; Lit (bs "'"); Plus perlSpace;
   Lit (bs "AND"); Plus perlSpace; Lit (bs "'"); Group notQuote;
   Lit (bs "'")].

(** strconv.Atoi(s) returns no error. *)
Definition isNumeric (s : gostring) : bool := atoiOk s.

(** Fix the database name: qualify a table that is named without it. *)
Definition qualifyTables (query : gostring) : gostring :=
  if negb (Contains query glueDb) then
    let query :=
      if Contains query tableAp && negb (Contains query glueDbAp)
      then Replace query tableAp (glueDbAp ++ bs "." ++ tableAp) (-1)
      else query in
    let query :=
      if Contains query tableUs && negb (Contains query glueDbUs)
      then Replace query tableUs (glueDbUs ++ bs "." ++ tableUs) (-1)
      else query in
    query
  else query.

(** One bound of the clause: read as JST and moved to UTC when it carries
    no time zone and parses as a timestamp, kept otherwise. *)
Definition jstToUtc (date : gostring) : gostring :=
  if negb (Contains date (bs "+")) && negb (Contains date (bs "Z")) then
    match GoTime.Parse date with
    | Some t => GoTime.Format (GoTime.Add t (-9 * GoTime.Hour))
    | None => date
    end
  else date.

(** The function passed to ReplaceAllStringFunc. *)
Definition castBetweenMatch (match_ : gostring) : gostring :=
  match FindStringSubmatch betweenRegex match_ with
  | _ :: date1 :: date2 :: _ =>
      bs "time_dt BETWEEN TIMESTAMP '" ++ jstToUtc date1
      ++ bs "' AND TIMESTAMP '" ++ jstToUtc date2 ++ bs "'"
  | _ => match_
  end.

(** Cast BETWEEN date strings to timestamp type. *)
Definition castBetween (query : gostring) : gostring :=
  if MatchString betweenRegex query
  then ReplaceAllStringFunc betweenRegex query castBetweenMatch
  else query.

(** The body of the loop over the matches of [simpleRegex]. *)
Definition expandYear (query : gostring) (match_ : list gostring) : gostring :=
  match match_ with
  | [_; date1; date2] =>
      let query :=
        if (length date1 =? 4)%nat && isNumeric date1
        then Replace query (bs "'" ++ date1 ++ bs "'")
               (bs "TIMESTAMP '" ++ (date1 ++ bs "-01-01 00:00:00") ++ bs "'") 1
        else query in
      let query :=
        if (length date2 =? 4)%nat && isNumeric date2
        then Replace query (bs "'" ++ date2 ++ bs "'")
               (bs "TIMESTAMP '" ++ (date2 ++ bs "-12-31 23:59:59") ++ bs "'") 1
        else query in
      query
  | _ => query
  end.

(** Expand simple numeric dates to full format. *)
Definition expandYears (query : gostring) : gostring :=
  fold_left expandYear (FindAllStringSubmatch simpleRegex query) query.

Definition preprocessSqlQuery (query : gostring) : gostring :=
  let query := TrimSpace query in
  let query := qualifyTables query in
  let query := castBetween query in
  expandYears query.


(* ===================================================================== *)
(** ** utils.go: getQueryRegion *)
(* ===================================================================== *)

Definition getQueryRegion (query : gostring) : gostring :=
  let defaultRegion := bs "ap-northeast-1" in
  if Contains query (bs "amazon_security_lake_glue_db_us_east_1")
     || Contains query (bs "amazon_security_lake_table_us_east_1")
     || Contains query (bs "waf_2_0_us_east_1")
  then bs "us-east-1"
  else if Contains query (bs "frontend") then bs "us-east-1"
  else if Contains query (bs "global/webacl") then bs "us-east-1"
  else defaultRegion.

(* ===================================================================== *)
(** ** athena.go: formatAthenaResults *)
(* ===================================================================== *)

(** athena.Datum: VarCharValue is a *string, nil for a missing cell.
    athena.Row: Data is a slice of Datum. *)
Abbreviation Datum := (option gostring) (only parsing).
Abbreviation Row := (list (option gostring)) (only parsing).

Definition indexed {A} (l : list A) : list (nat * A) :=
  combine (seq 0 (length l)) l.

(** The three passes over rows[0].Data that choose the displayed columns:
    the names that do not start with _col; failing that, the _col names
    other than _col0; failing that, every name. *)
Definition selectColumns (header : Row) : list gostring * list nat :=
  let '(headers, colIndices, colHeaders) :=
    fold_left (fun '(headers, colIndices, colHeaders) '(i, data) =>
      match data with
      | Some colName =>
          if negb (HasPrefix colName (bs "_col"))
          then (headers ++ [colName], colIndices ++ [i], colHeaders)
          else (headers, colIndices, colHeaders ++ [colName])
      | None => (headers, colIndices, colHeaders)
      end) (indexed header) ([], [], []) in
  let '(headers, colIndices) :=
    if (length headers =? 0)%nat && (0 <? length colHeaders)%nat then
      fold_left (fun '(headers, colIndices) '(i, data) =>
        match data with
        | Some colName =>
            if negb (bool_decide (colName = bs "_col0"))
               && HasPrefix colName (bs "_col")
            then (headers ++ [colName], colIndices ++ [i])
            else (headers, colIndices)
        | None => (headers, colIndices)
        end) (indexed header) (headers, colIndices)
    else (headers, colIndices) in
  if (length headers =? 0)%nat then
    fold_left (fun '(headers, colIndices) '(i, data) =>
      match data with
      | Some colName => (headers ++ [colName], colIndices ++ [i])
      | None => (headers, colIndices)
      end) (indexed header) (headers, colIndices)
  else (headers, colIndices).

(** The update of colWidths by one data row. *)
Definition widenRow (colIndices : list nat) (colWidths : list nat)
    (row : Row) : list nat :=
  fold_left (fun colWidths '(colIndex, colIdx) =>
    match row !! colIdx with
    | Some (Some value) =>
        match colWidths !! colIndex with
        | Some w =>
            if (w <? length value)%nat
            then <[colIndex := length value]> colWidths else colWidths
        | None => colWidths
        end
    | _ => colWidths
    end) (indexed colIndices) colWidths.

(** The text of one cell: NULL for a missing value, N/A for a column
    index beyond the row. *)
Definition cellText (row : Row) (colIdx : nat) : gostring :=
  match row !! colIdx with
  | Some (Some value) => value
  | Some None => bs "NULL"
  | None => bs "N/A"
  end.

Definition widthAt (colWidths : list nat) (colIndex : nat) : nat :=
  default O (colWidths !! colIndex).

Definition newline : gostring := bs (String "010" "").

(** One line of the table. *)
Definition renderRow (colIndices colWidths : list nat) (row : Row)
    : gostring :=
  concat (map (fun '(colIndex, colIdx) =>
                 padRight (widthAt colWidths colIndex + 2) (cellText row colIdx))
              (indexed colIndices))
  ++ newline.

Definition codeFence : gostring := bs "```" ++ newline.
Definition truncationNote : gostring :=
  bs "...(Results limited to 20 rows)" ++ newline.

Definition formatAthenaResults (rows : list Row) : gostring :=
  match rows with
  | [] => bs "No results found"
  | header :: _ =>
      let '(headers, colIndices) := selectColumns header in
      if (length headers =? 0)%nat then bs "No displayable columns found"
      else
        let colWidths := map (@length ascii) headers in
        let maxRows := if (20 <? length rows)%nat then 20%nat else length rows in
        (* for i := 1; i < maxRows; i++ *)
        let colWidths :=
          fold_left (fun colWidths i =>
            match rows !! i with
            | Some row => widenRow colIndices colWidths row
            | None => colWidths
            end) (seq 1 (maxRows - 1)) colWidths in
        let sb := codeFence in
        let sb :=
          fold_left (fun sb '(i, header) =>
            sb ++ padRight (widthAt colWidths i + 2) header)
            (indexed headers) sb in
        let sb := sb ++ newline in
        let sb :=
          fold_left (fun sb width => sb ++ Repeat "-" (width + 2))
            colWidths sb in
        let sb := sb ++ newline in
        let sb :=
          fold_left (fun sb i =>
            match rows !! i with
            | Some row => sb ++ renderRow colIndices colWidths row
            | None => sb
            end) (seq 1 (maxRows - 1)) sb in
        let sb := if (20 <? length rows)%nat then sb ++ truncationNote else sb in
        sb ++ codeFence
  end.


(* ===================================================================== *)
(** ** athena.go: runAthenaQuery *)
(* ===================================================================== *)

(** A Go error, by its message. *)
Abbreviation error := (list ascii) (only parsing).

(** The Athena API as the executor uses it.  GetQueryExecution is asked
    once per polling attempt; its answer is the state and the optional
    StateChangeReason. *)
Record Athena := {
  StartQueryExecution :
    gostring -> gostring -> gostring -> gostring -> error + gostring;
  GetQueryExecution : gostring -> nat -> error + (gostring * option gostring);
  StopQueryExecution : gostring -> option error;
  GetQueryResults : gostring -> error + (list Row * option gostring)
}.

(** The calls issued against the backend, in order. *)
Inductive Call :=
  | CallStart (region query database output workgroup : gostring)
  | CallGetExecution (qid : gostring)
  | CallStop (qid : gostring)
  | CallGetResults (qid : gostring).

(** The process environment: the configuration read from the environment
    variables, the regional clients, the Unicode case tables behind
    strings.ToUpper, and the number of ticks the 2-second ticker delivers
    to the polling goroutine before the context deadline fires. *)
Record Env := {
  athenaDB : gostring;
  athenaOutput : gostring;
  athenaWorkgroup : gostring;
  getAthenaClient : gostring -> Athena;
  unicodeUpper : gostring -> gostring;
  ticksDelivered : nat
}.

(** queryTimeout and the ticker period, in seconds. *)
Definition queryTimeout : Z := 45.
Definition pollInterval : Z := 2.

(** The ticker fires at 2s, 4s, ...: at most 22 times before 45s. *)
Definition maxTicks : nat := Z.to_nat (queryTimeout / pollInterval).

(** How the select of the caller is decided: the polling goroutine closed
    doneCh with these values of errorMsg and state, or the deadline of
    queryContext fired first. *)
Inductive PollEnd :=
  | PollDone (errorMsg state : gostring)
  | PollDeadline.

(** The polling goroutine; [ticks] ticks arrive before the deadline, and
    [state] is the last state read. *)
Fixpoint pollLoop (client : Athena) (qid : gostring) (ticks attempts : nat)
    (state : gostring) : PollEnd * list Call :=
  match ticks with
  | O => (PollDeadline, [])
  | S ticks' =>
      let attempts := S attempts in
      match GetQueryExecution client qid attempts with
      | inl err =>
          (PollDone (bs "Failed to get query status: " ++ err) state,
           [CallGetExecution qid])
      | inr (state, reason) =>
          if bool_decide (state = bs "SUCCEEDED") then
            (PollDone (bs "") state, [CallGetExecution qid])
          else if bool_decide (state = bs "FAILED") then
            (PollDone (bs "Athena query failed: "
                       ++ default (bs "Unknown error") reason) state,
             [CallGetExecution qid])
          else if bool_decide (state = bs "CANCELLED") then
            (PollDone (bs "Athena query was cancelled") state,
             [CallGetExecution qid])
          else
            let '(r, calls) := pollLoop client qid ticks' attempts state in
            (r, CallGetExecution qid :: calls)
      end
  end.

(** strings.Split(s, ".")[0] *)
Definition beforeByte (sep : ascii) (s : gostring) : gostring :=
  fst (span (fun c => negb (Ascii.eqb c sep)) s).

Definition denyListed (env : Env) (query : gostring) : bool :=
  Contains (ToUpper (unicodeUpper env) query) (bs "DROP")
  || Contains (ToUpper (unicodeUpper env) query) (bs "DELETE")
  || Contains (ToUpper (unicodeUpper env) query) (bs "INSERT")
  || Contains (ToUpper (unicodeUpper env) query) (bs "UPDATE").

(** The result is (execution id, rows, error message, region), with the
    calls made to the backend. *)
Definition runAthenaQuery (env : Env) (query : gostring)
    : (gostring * list Row * gostring * gostring) * list Call :=
  if denyListed env query then
    ((bs "", [], bs "Invalid SQL command detected", bs ""), [])
  else
    let query := preprocessSqlQuery query in
    let region := getQueryRegion query in
    let client := getAthenaClient env region in
    let s3Path := bs "s3://" ++ athenaOutput env ++ bs "/" in
    let s3Path :=
      if bool_decide (region = bs "us-east-1")
         && Contains (athenaOutput env) (bs "ap-northeast-1")
      then
        let s3Path := Replace s3Path (bs "ap-northeast-1") (bs "us-east-1") 1 in
        if Contains s3Path (bs "xxx")
        then Replace s3Path (bs "xxx") (bs "xxx") 1 else s3Path
      else s3Path in
    let dbNameOnly := beforeByte "." (athenaDB env) in
    let dbNameOnly :=
      if bool_decide (region = bs "us-east-1") then
        Replace (Replace dbNameOnly (bs "ap_northeast_1") (bs "us_east_1") (-1))
          (bs "ap-northeast-1") (bs "us-east-1") (-1)
      else dbNameOnly in
    let start := CallStart region query dbNameOnly s3Path (athenaWorkgroup env) in
    match StartQueryExecution client query dbNameOnly s3Path
            (athenaWorkgroup env) with
    | inl err => ((bs "", [], bs "Athena start error: " ++ err, region), [start])
    | inr qid =>
        let '(pollEnd, calls) :=
          pollLoop client qid (Nat.min (ticksDelivered env) maxTicks) 0 (bs "") in
        match pollEnd with
        | PollDone errorMsg state =>
            if negb (bool_decide (errorMsg = bs ""))
               || negb (bool_decide (state = bs "SUCCEEDED"))
            then
              let errorMsg :=
                if bool_decide (errorMsg = bs "")
                then bs "Athena query did not complete successfully. Final state: "
                     ++ state
                else errorMsg in
              ((qid, [], errorMsg, region), start :: calls)
            else
              match GetQueryResults client qid with
              | inl err =>
                  ((qid, [], bs "Failed to get query results: " ++ err, region),
                   start :: calls ++ [CallGetResults qid])
              | inr (rows, _) =>
                  ((qid, rows, bs "", region),
                   start :: calls ++ [CallGetResults qid])
              end
        | PollDeadline =>
            (* the error of StopQueryExecution is only logged *)
            let _ := StopQueryExecution client qid in
            ((qid, [],
              bs "Query timed out (" ++ GoTime.appendInt queryTimeout 0
              ++ bs " seconds elapsed). Execution aborted.", region),
             start :: calls ++ [CallStop qid])
        end
    end.

(* ===================================================================== *)
(** ** slack.go: postToSlack *)
(* ===================================================================== *)

(** The text of [s] before the first occurrence of [sep], and what follows
    that occurrence (strings.Split, first two pieces). *)
Fixpoint cutAt (sep : gostring) (s : gostring) : gostring * option gostring :=
  if HasPrefix s sep then ([], Some (drop (length sep) s))
  else match s with
       | [] => ([], None)
       | c :: s' => let '(a, b) := cutAt sep s' in (c :: a, b)
       end.

(** The signature under which a message is remembered: the message, or
    its result-count fragment when it is longer than 50 bytes and has one. *)
Definition contentSignature (msg : gostring) : gostring :=
  if (50 <? length msg)%nat && Contains msg (bs "*result:*") then
    match cutAt (bs "*result:*") msg with
    | (_, Some after) =>
        (* resultParts[1], then its first line *)
        let part := fst (cutAt (bs "*result:*") after) in
        bs "WAF result:" ++ fst (cutAt newline part)
    | (_, None) => msg
    end
  else msg.

Definition msgHash (channel msg : gostring) : gostring :=
  channel ++ bs ":" ++ contentSignature msg.

(** What http.DefaultClient.Do and the decoding of the reply come to. *)
Inductive SendOutcome :=
  | RequestFailed (err : error)
  | ReadFailed (err : error)
  | ParseFailed (err : error)
  | SlackOk
  | SlackNotOk (err : option gostring).

(** The Slack side of the process: the bot token and the HTTP endpoint. *)
Record Slack := {
  slackToken : gostring;
  chatPostMessage : gostring -> gostring -> SendOutcome
}.

(** The clock readings of one call, in the order the code takes them:
    time.Since at the duplicate check, time.Now when the key is recorded,
    time.Now at the clean-up, time.Now when a cleared cache is refilled. *)
Record Clock := { tCheck : Z; tRecord : Z; tClean : Z; tRefill : Z }.

(** postToSlack: the error returned ([None] for nil), the cache
    recentSlackMessages afterwards, and the HTTP requests sent. *)
Definition postToSlack (slack : Slack) (clock : Clock)
    (recentSlackMessages : gmap gostring Z) (channel msg : gostring)
    : option error * gmap gostring Z * list (gostring * gostring) :=
  let key := msgHash channel msg in
  let suppressed :=
    match recentSlackMessages !! key with
    | Some lastTime => bool_decide (tCheck clock - lastTime < 3 * GoTime.Minute)
    | None => false
    end in
  if suppressed then (None, recentSlackMessages, [])
  else
    let recentSlackMessages := <[key := tRecord clock]> recentSlackMessages in
    let recentSlackMessages :=
      if (50 <? size recentSlackMessages)%nat
      then filter (fun '(_, t) => ¬ (tClean clock - t > 10 * GoTime.Minute))
             recentSlackMessages
      else recentSlackMessages in
    if bool_decide (slackToken slack = bs "") then
      (Some (bs "Slack token is empty. Unable to send message to Slack."),
       recentSlackMessages, [])
    else
      let err :=
        match chatPostMessage slack channel msg with
        | RequestFailed e | ReadFailed e | ParseFailed e => Some e
        | SlackOk => None
        | SlackNotOk e =>
            Some (bs "Slack API error: " ++ default (bs "Unknown error") e)
        end in
      (err, recentSlackMessages, [(channel, msg)]).

(* ===================================================================== *)
(** ** main.go: handler *)
(* ===================================================================== *)

Record SlackEvent := {
  evType : gostring; evText : gostring; evUser : gostring;
  evChannel : gostring
}.

Record SlackEventWrapper := {
  Event : SlackEvent; wrType : gostring; EventID : gostring
}.

(** The request after json.Unmarshal: a body that is not JSON, or the
    challenge field of the payload and the wrapper (if it decodes). *)
Inductive Body :=
  | NotJson
  | Payload (challenge : option gostring) (wrapper : option SlackEventWrapper).

Record Request := { retryNum : gostring; body : Body }.

Record Response := { StatusCode : Z; ResponseBody : gostring }.

Definition response (code : Z) (body : gostring) : Response :=
  {| StatusCode := code; ResponseBody := body |}.

(** The process-wide caches of utils.go. *)
Record Caches := {
  processedEvents : gmap gostring bool;
  recentQueries : gmap gostring Z
}.

(** The inbound-event guard: [Some] response when the event is dropped. *)
Definition eventGuard (processedEvents : gmap gostring bool)
    (wrapper : SlackEventWrapper) : option Response * gmap gostring bool :=
  if negb (bool_decide (EventID wrapper = bs "")) then
    let eventKey :=
      EventID wrapper ++ bs "_" ++ evText (Event wrapper) ++ bs "_"
      ++ evChannel (Event wrapper) in
    match processedEvents !! eventKey with
    | Some _ => (Some (response 200 (bs "duplicate event")), processedEvents)
    | None =>
        let processedEvents := <[eventKey := true]> processedEvents in
        let processedEvents :=
          if (100 <? size processedEvents)%nat
          then <[eventKey := true]> (∅ : gmap gostring bool)
          else processedEvents in
        (None, processedEvents)
    end
  else (None, processedEvents).

(** The question as it is asked: trimmed, without the mention of the bot. *)
Definition questionText (text : gostring) : gostring :=
  TrimSpace (Replace (TrimSpace text) (bs "<@U08N7NYBPAL>") (bs "") (-1)).

Definition queryKey (channel text : gostring) : gostring :=
  channel ++ bs ":" ++ text.

(** The recent-query guard. *)
Definition queryGuard (clock : Clock) (recentQueries : gmap gostring Z)
    (queryKey : gostring) : option Response * gmap gostring Z :=
  let duplicate :=
    match recentQueries !! queryKey with
    | Some lastTime => bool_decide (tCheck clock - lastTime < 5 * GoTime.Second)
    | None => false
    end in
  if duplicate then
    (Some (response 200 (bs "duplicate query ignored")), recentQueries)
  else
    let recentQueries := <[queryKey := tRecord clock]> recentQueries in
    let recentQueries :=
      if (200 <? size recentQueries)%nat then
        let recentQueries :=
          filter (fun '(_, t) => ¬ (tClean clock - t > 10 * GoTime.Minute))
            recentQueries in
        if (150 <? size recentQueries)%nat
        then <[queryKey := tRefill clock]> (∅ : gmap gostring Z)
        else recentQueries
      else recentQueries in
    (None, recentQueries).

(** What the first part of the handler decides: an HTTP response at once,
    or a question to process. *)
Inductive Intake :=
  | Respond (r : Response)
  | Process (channel text : gostring).

Definition handlerIntake (clock : Clock) (caches : Caches) (req : Request)
    : Intake * Caches :=
  if negb (bool_decide (retryNum req = bs "")) then
    (Respond (response 200 (bs "retry ignored")), caches)
  else
    match body req with
    | NotJson => (Respond (response 400 (bs "invalid request")), caches)
    | Payload (Some challenge) _ =>
        (Respond {| StatusCode := 200; ResponseBody := challenge |}, caches)
    | Payload None None =>
        (Respond (response 400 (bs "invalid event format")), caches)
    | Payload None (Some wrapper) =>
        if negb (bool_decide (wrType wrapper = bs "event_callback")) then
          (Respond (response 200 (bs "ignored")), caches)
        else if negb (bool_decide (evType (Event wrapper) = bs "message"))
                && negb (bool_decide (evType (Event wrapper) = bs "app_mention"))
        then (Respond (response 200 (bs "ignored non-message event")), caches)
        else if bool_decide (evUser (Event wrapper) = bs "U08N7NYBPAL") then
          (Respond (response 200 (bs "ignored bot message")), caches)
        else
          let '(dropped, processed) :=
            eventGuard (processedEvents caches) wrapper in
          let caches :=
            {| processedEvents := processed;
               recentQueries := recentQueries caches |} in
          match dropped with
          | Some r => (Respond r, caches)
          | None =>
              let text := questionText (evText (Event wrapper)) in
              if bool_decide (text = bs "") || (length text <? 3)%nat then
                (Respond (response 200 (bs "ignored empty message")), caches)
              else
                let '(dropped, recent) :=
                  queryGuard clock (recentQueries caches)
                    (queryKey (evChannel (Event wrapper)) text) in
                let caches :=
                  {| processedEvents := processedEvents caches;
                     recentQueries := recent |} in
                match dropped with
                | Some r => (Respond r, caches)
                | None => (Process (evChannel (Event wrapper)) text, caches)
                end
          end
    end.

(** The console link for an execution id. *)
Definition consoleUrl (queryRegion qid : gostring) : gostring :=
  if bool_decide (queryRegion = bs "us-east-1") then
    bs "https://us-east-1.console.aws.amazon.com/athena/home?region=us-east-1#/query-editor/history/" ++ qid
  else
    bs "https://ap-northeast-1.console.aws.amazon.com/athena/home?region=ap-northeast-1#/query-editor/history/" ++ qid.

(** The message posted when runAthenaQuery returns an error message. *)
Definition detailedError (sql qid errMsg : gostring) : gostring :=
  let queryRegion := getQueryRegion sql in
  bs "Query failed (region: " ++ queryRegion ++ bs "): " ++ errMsg
  ++ newline ++ newline
  ++ bs "Executed SQL:" ++ newline ++ codeFence ++ sql ++ newline ++ codeFence
  ++ newline
  ++ bs "Athena Console: " ++ consoleUrl queryRegion qid.

(** The handler after SQL generation, on the failure branch: the SQL that
    callBedrock returned is run, and a failure is reported to the channel.
    [None] when the query succeeded (the result message is not modelled). *)
Definition handlerReport (env : Env) (sql : gostring)
    : option gostring * list Call :=
  let '((qid, rows, errMsg, _), calls) := runAthenaQuery env sql in
  if negb (bool_decide (errMsg = bs "")) then
    (Some (detailedError sql qid errMsg), calls)
  else (None, calls).

(* ===================================================================== *)
(** ** utils.go: min; athena.go: formatResultsForAnalysis *)
(* ===================================================================== *)

(** min of utils.go *)
Definition min (a b : nat) : nat := if (a <? b)%nat then a else b.

(** fmt's %d *)
Definition formatInt (n : Z) : gostring := GoTime.appendInt n 0.

Definition formatResultsForAnalysis (rows : list Row) : gostring :=
  match rows with
  | [] => bs "No data available"
  | header :: _ =>
      let maxRows := min (length rows) 50 in
      let '(headers, colIndices) := selectColumns header in
      if (length headers =? 0)%nat then bs "No displayable columns found"
      else
        let colWidths := map (@length ascii) headers in
        (* for i := 1; i < maxRows; i++ *)
        let colWidths :=
          fold_left (fun colWidths i =>
            match rows !! i with
            | Some row => widenRow colIndices colWidths row
            | None => colWidths
            end) (seq 1 (maxRows - 1)) colWidths in
        let sb := [] in
        let sb :=
          fold_left (fun sb '(i, header) =>
            sb ++ padRight (widthAt colWidths i + 2) header)
            (indexed headers) sb in
        let sb := sb ++ newline in
        let sb :=
          fold_left (fun sb width => sb ++ Repeat "-" (width + 2))
            colWidths sb in
        let sb := sb ++ newline in
        let sb :=
          fold_left (fun sb i =>
            match rows !! i with
            | Some row => sb ++ renderRow colIndices colWidths row
            | None => sb
            end) (seq 1 (maxRows - 1)) sb in
        if (maxRows <? length rows)%nat
        then sb ++ newline ++ bs "... ("
             ++ formatInt (Z.of_nat (length rows - maxRows))
             ++ bs " more rows not displayed)"
        else sb
  end.

(* ===================================================================== *)
(** ** athena.go: extractDateRange *)
(* ===================================================================== *)

(** time_dt\s+BETWEEN\s+TIMESTAMP\s+'([^']+)'\s+AND\s+TIMESTAMP\s+'([^']+)' *)
Definition typedRegex : list node :=
  [Lit (bs "time_dt"); Plus perlSpace; Lit (bs "BETWEEN"); Plus perlSpace;
   Lit (bs "TIMESTAMP"); Plus perlSpace;
   Lit (bs "'"); Group notQuote; Lit (bs "'"); Plus perlSpace;
   Lit (bs "AND"); Plus perlSpace; Lit (bs "TIMESTAMP"); Plus perlSpace;
   Lit (bs "'"); Group notQuote; Lit (bs "'")].

Definition extractDateRange (query : gostring) : gostring :=
  match FindStringSubmatch typedRegex query with
  | _ :: from :: to :: _ => bs "from " ++ from ++ bs " to " ++ to
  | _ => bs "unknown"
  end.

(* ===================================================================== *)
(** ** main.go: init *)
(* ===================================================================== *)

(** A value of a decoded JSON object, as far as the type assertion
    .(string) tells values apart. *)
Inductive JsonValue :=
  | JsonString (s : gostring)
  | JsonOther.

(** What init reads: the environment variable SLACK_BOT_TOKEN_SECRET_NAME,
    the answer of GetSecretValue (an error, or the optional SecretString),
    and json.Unmarshal into a map[string]interface{} ([None] for an
    error). *)
Record Secrets := {
  secretName : gostring;
  GetSecretValue : gostring -> error + option gostring;
  Unmarshal : gostring -> option (gmap gostring JsonValue)
}.

(** token, ok := secretMap[key].(string); ok && token != "" *)
Definition tokenAt (secretMap : gmap gostring JsonValue) (key : gostring)
    : option gostring :=
  match secretMap !! key with
  | Some (JsonString token) =>
      if negb (bool_decide (token = [])) then Some token else None
  | _ => None
  end.

(** init: the value of slackToken when it returns (the variable starts
    empty; the final test for DUMMY only writes to the log). *)
Definition init (w : Secrets) : gostring :=
  let secretID := secretName w in
  if bool_decide (secretID = []) then []
  else
    match GetSecretValue w secretID with
    | inl _ => []
    | inr None => []
    | inr (Some secretString) =>
        if negb (HasPrefix secretString (bs "{")) then secretString
        else
          match Unmarshal w secretString with
          | None => secretString
          | Some secretMap =>
              match tokenAt secretMap (bs "token") with
              | Some token => token
              | None =>
                  match tokenAt secretMap (bs "slack_token") with
                  | Some token => token
                  | None =>
                      match tokenAt secretMap (bs "SLACK_TOKEN") with
                      | Some token => token
                      | None => secretString
                      end
                  end
              end
          end
    end.

(* ===================================================================== *)
(** ** utils.go: containsFrontendKeywords *)
(* ===================================================================== *)

Definition isUpper (c : ascii) : bool :=
  ((65 <=? code c) && (code c <=? 90))%N.

(** strings.ToLower.  An all-ASCII string takes the byte-wise fast path;
    [unicodeLower] stands for strings.Map(unicode.ToLower, _). *)
Definition lowerByte (c : ascii) : ascii :=
  if isUpper c then chr (code c + 32) else c.

Definition ToLower (unicodeLower : gostring -> gostring) (s : gostring)
    : gostring :=
  if forallb isASCII s then map lowerByte s else unicodeLower s.

Definition frontendKeywords : list gostring :=
  [bs "frontend"; bs "front-end"; bs "front end";
   bs "global";
   bs "us-east-1"; bs "us east 1"].

Definition containsFrontendKeywords (unicodeLower : gostring -> gostring)
    (text : gostring) : bool :=
  existsb (Contains (ToLower unicodeLower text)) frontendKeywords.

(* ===================================================================== *)
(** * The vocabulary of the statements *)
(* ===================================================================== *)

(** ** The executor *)

Definition rejected : (gostring * list Row * gostring * gostring) * list Call :=
  ((bs "", [], bs "Invalid SQL command detected", bs ""), []).

(** The ASCII spellings of DROP TABLE X, in any mix of cases. *)
Definition spellsDropTable (v : gostring) : Prop :=
  map upperByte v = bs "DROP TABLE X".

(** An answer of GetQueryExecution that keeps the polling loop going: a
    state other than the three terminal ones. *)
Definition keepsPolling (answer : error + (gostring * option gostring)) : Prop :=
  match answer with
  | inl _ => False
  | inr (state, _) =>
      state <> bs "SUCCEEDED" /\ state <> bs "FAILED" /\ state <> bs "CANCELLED"
  end.

Definition isStop (c : Call) : bool :=
  match c with CallStop _ => true | _ => false end.

Definition isGetExecution (c : Call) : bool :=
  match c with CallGetExecution _ => true | _ => false end.

(** ** The guards and the notifier *)

Definition duplicateQuery : Response := response 200 (bs "duplicate query ignored").
Definition duplicateEvent : Response := response 200 (bs "duplicate event").

Definition eventKeyOf (wrapper : SlackEventWrapper) : gostring :=
  EventID wrapper ++ bs "_" ++ evText (Event wrapper) ++ bs "_"
  ++ evChannel (Event wrapper).

Definition tokenEmpty : gostring :=
  bs "Slack token is empty. Unable to send message to Slack.".

(** ** The table of the formatter *)

(** The widths of the columns after the data rows in [window]. *)
Definition columnWidths (headers : list gostring) (colIndices : list nat)
    (window : list Row) : list nat :=
  fold_left (widenRow colIndices) window (map (@length ascii) headers).

(** The table for the data rows in [window]. *)
Definition tableOf (headers : list gostring) (colIndices : list nat)
    (window : list Row) : gostring :=
  let colWidths := columnWidths headers colIndices window in
  codeFence
  ++ concat (map (fun '(i, header) => padRight (widthAt colWidths i + 2) header)
               (indexed headers))
  ++ newline
  ++ concat (map (fun width => Repeat "-" (width + 2)) colWidths)
  ++ newline
  ++ concat (map (renderRow colIndices colWidths) window).

(** ** The clauses of the rewriter *)

(** The texts the pattern [re] matches, with their groups: the regular
    language of the pattern, every split of the text allowed. *)
Inductive matches : list node -> gostring -> list gostring -> Prop :=
  | matches_nil : matches [] [] []
  | matches_Lit l re m gs :
      matches re m gs -> matches (Lit l :: re) (l ++ m) gs
  | matches_Plus cls re w m gs :
      w <> [] -> forallb cls w = true -> matches re m gs ->
      matches (Plus cls :: re) (w ++ m) gs
  | matches_Group cls re w m gs :
      w <> [] -> forallb cls w = true -> matches re m gs ->
      matches (Group cls :: re) (w ++ m) (w :: gs).

(** The first byte of a literal is outside the class repeated before it. *)
Definition startsOutside (cls : ascii -> bool) (lit : gostring) : bool :=
  match lit with c :: _ => negb (cls c) | [] => false end.

(** A run of white space between the words of a clause, and the text
    between the quotes of a bound. *)
Definition blank (w : gostring) : Prop :=
  w <> [] /\ forallb perlSpace w = true.

Definition literal (d : gostring) : Prop :=
  d <> [] /\ forallb notQuote d = true.

(** The text matched by BETWEEN\s+'([^']+)'\s+AND\s+'([^']+)'. *)
Definition untypedClause (w2 d1 w3 w4 d2 : gostring) : gostring :=
  bs "BETWEEN" ++ w2 ++ bs "'" ++ d1 ++ bs "'" ++ w3 ++ bs "AND" ++ w4
  ++ bs "'" ++ d2 ++ bs "'".

(** The text a matched time_dt clause is replaced by. *)
Definition typedClause (d1 d2 : gostring) : gostring :=
  bs "time_dt BETWEEN TIMESTAMP '" ++ jstToUtc d1
  ++ bs "' AND TIMESTAMP '" ++ jstToUtc d2 ++ bs "'".

Definition yearLike (date : gostring) : bool :=
  (length date =? 4)%nat && isNumeric date.

(** No bound of the match is a year still to be expanded. *)
Definition yearsExpanded (match_ : list gostring) : bool :=
  match match_ with
  | [_; date1; date2] => negb (yearLike date1) && negb (yearLike date2)
  | _ => true
  end.

(** The rewritten text has no time_dt clause with untyped bounds left and
    no BETWEEN clause with a year bound left. *)
Definition fullyTyped (query : gostring) : bool :=
  negb (MatchString betweenRegex query)
  && forallb yearsExpanded (FindAllStringSubmatch simpleRegex query).

(** A match of [simpleRegex] found in [query]: its bounds are quoted in
    the query. *)
Definition quotedIn (query : gostring) (match_ : list gostring) : Prop :=
  exists whole date1 date2,
    match_ = [whole; date1; date2]
    /\ Contains query (bs "'" ++ date1 ++ bs "'") = true
    /\ Contains query (bs "'" ++ date2 ++ bs "'") = true.

(** ** Rewriting by replacement *)

(** A visible ASCII byte: no white-space rune contains one. *)
Definition solid (c : ascii) : bool := isASCII c && negb (asciiSpace c).

(** [t] is [s] with some non-overlapping pieces replaced, each piece [m]
    by a text [r] with [ok m r]. *)
Inductive rewrites (ok : gostring -> gostring -> Prop)
    : gostring -> gostring -> Prop :=
  | rewrites_nil : rewrites ok [] []
  | rewrites_keep c s t :
      rewrites ok s t -> rewrites ok (c :: s) (c :: t)
  | rewrites_piece m r s t :
      ok m r -> rewrites ok s t -> rewrites ok (m ++ s) (r ++ t).

(** Both texts start and end with a visible ASCII byte. *)
Definition solidEnds (m : gostring) : Prop :=
  (exists c m', m = c :: m' /\ solid c = true)
  /\ (exists c m', m = m' ++ [c] /\ solid c = true).

(** [s] and [t] are equal, or agree up to a visible ASCII byte of each. *)
Definition sameFront (s t : gostring) : Prop :=
  s = t \/ exists p c c' x y,
    solid c = true /\ solid c' = true /\ s = p ++ c :: x /\ t = p ++ c' :: y.

Definition sameBack (s t : gostring) : Prop :=
  s = t \/ exists q c c' x y,
    solid c = true /\ solid c' = true /\ s = x ++ c :: q /\ t = y ++ c' :: q.

Definition noSolid (rune : gostring) : bool :=
  negb (length rune =? 0)%nat && forallb (fun c => negb (solid c)) rune.

(** No white-space rune at either end. *)
Definition trimmed (s : gostring) : Prop :=
  spaceWidth s = O /\ spaceWidthLast (rev s) = O.

(** What a match of [re] is replaced by. *)
Definition replacedBy (re : list node) (repl : gostring -> gostring)
    (m r : gostring) : Prop :=
  r = repl m /\ exists gs rest, matchHere re (m ++ rest) = Some (gs, rest).

(** A time_dt clause and its typed form. *)
Definition castPiece (m r : gostring) : Prop :=
  exists w1 w2 d1 w3 w4 d2,
    blank w1 /\ blank w2 /\ literal d1 /\ blank w3 /\ blank w4 /\ literal d2
    /\ m = bs "time_dt" ++ w1 ++ untypedClause w2 d1 w3 w4 d2
    /\ r = typedClause d1 d2.

(** A quoted year and its typed form. *)
Definition yearPiece (m r : gostring) : Prop :=
  exists date rest,
    isNumeric date = true
    /\ (rest = bs "-01-01 00:00:00" \/ rest = bs "-12-31 23:59:59")
    /\ m = bs "'" ++ date ++ bs "'"
    /\ r = bs "TIMESTAMP '" ++ (date ++ rest) ++ bs "'".

(** ** Names, timestamps and counts *)

(** The bytes of the table and database names, and those among them that
    are not digits. *)
Definition wordByte (c : ascii) : bool :=
  isLower c || isDigit c || Ascii.eqb c "_".

Definition letterByte (c : ascii) : bool := isLower c || Ascii.eqb c "_".

Definition noLetters (s : gostring) : bool :=
  forallb (fun c => negb (letterByte c)) s.

Definition emit (cur : gostring) : list gostring :=
  if existsb letterByte cur then [cur] else [].

(** The maximal runs of word bytes that hold a letter; [cur] is the run
    being read. *)
Fixpoint runsFrom (cur : gostring) (s : gostring) : list gostring :=
  match s with
  | [] => emit cur
  | c :: s' =>
      if wordByte c then runsFrom (cur ++ [c]) s'
      else emit cur ++ runsFrom [] s'
  end.

Definition names (s : gostring) : list gostring := runsFrom [] s.

(** A name to look for: word bytes only, a letter among them. *)
Definition wordy (p : gostring) : bool :=
  forallb wordByte p && existsb letterByte p.

(** Replacing [m] by [r] leaves the names of the text as they are. *)
Definition sameRuns (m r : gostring) : Prop :=
  forall cur rest rest',
    names rest = names rest' ->
    runsFrom cur (m ++ rest) = runsFrom cur (r ++ rest').

(** A query that qualifyTables leaves alone: it names the database, or
    neither table. *)
Definition qualified (query : gostring) : Prop :=
  Contains query glueDb = true
  \/ (Contains query tableAp = false /\ Contains query tableUs = false).

Definition dateByte (c : ascii) : bool :=
  isDigit c || Ascii.eqb c "-" || Ascii.eqb c " " || Ascii.eqb c ":"
  || Ascii.eqb c "." || Ascii.eqb c ",".

(** [s] is [rest] after some bytes of a timestamp. *)
Definition eats (s rest : gostring) : Prop :=
  exists pre, s = pre ++ rest /\ forallb dateByte pre = true.

Definition isT (c : ascii) : bool := Ascii.eqb c "T".

(** The number of bytes T in a text: every replacement of the rewriter
    adds some. *)
Fixpoint countT (s : gostring) : nat :=
  match s with
  | [] => O
  | c :: s' => if isT c then S (countT s') else countT s'
  end.

(** Replacing [m] by [r] adds bytes T. *)
Definition addsT (m r : gostring) : Prop := (countT m < countT r)%nat.

(** ** Sample inputs *)

Definition idleAthena : Athena :=
  {| StartQueryExecution := fun _ _ _ _ => inr (bs "qid-1");
     GetQueryExecution := fun _ _ => inr (bs "RUNNING", None);
     StopQueryExecution := fun _ => Some (bs "stop failed");
     GetQueryResults := fun _ => inr ([], None) |}.

Definition sampleEnv : Env :=
  {| athenaDB := bs "amazon_security_lake_glue_db_ap_northeast_1";
     athenaOutput := bs "athena-results-ap-northeast-1";
     athenaWorkgroup := bs "primary";
     getAthenaClient := fun _ => idleAthena;
     unicodeUpper := fun s => s;
     ticksDelivered := 22 |}.

Definition refusingAthena : Athena :=
  {| StartQueryExecution := fun _ _ _ _ => inl (bs "AccessDeniedException");
     GetQueryExecution := fun _ _ => inr (bs "RUNNING", None);
     StopQueryExecution := fun _ => None;
     GetQueryResults := fun _ => inr ([], None) |}.

Definition refusingEnv : Env :=
  {| athenaDB := bs "amazon_security_lake_glue_db_ap_northeast_1";
     athenaOutput := bs "athena-results-ap-northeast-1";
     athenaWorkgroup := bs "primary";
     getAthenaClient := fun _ => refusingAthena;
     unicodeUpper := fun s => s;
     ticksDelivered := 22 |}.

Definition generatedSql : gostring :=
  bs "SELECT * FROM amazon_security_lake_table_ap_northeast_1_waf_2_0 WHERE time_dt BETWEEN '2024-01-01 10:00:00' AND '2024-01-01 12:00:00'".

Definition noon : Clock := {| tCheck := 0; tRecord := 1; tClean := 2; tRefill := 3 |}.

Definition aMinuteLater : Clock :=
  {| tCheck := 60 * GoTime.Second; tRecord := 60 * GoTime.Second + 1;
     tClean := 60 * GoTime.Second + 2; tRefill := 60 * GoTime.Second + 3 |}.

Definition anonymousMention : SlackEventWrapper :=
  {| Event := {| evType := bs "app_mention"; evText := bs "top ips today";
                 evUser := bs "U1"; evChannel := bs "C1" |};
     wrType := bs "event_callback"; EventID := bs "" |}.

Definition noCaches : Caches := {| processedEvents := ∅; recentQueries := ∅ |}.

Definition anonymousRequest : Request :=
  {| retryNum := bs ""; body := Payload None (Some anonymousMention) |}.


Definition noToken : Slack :=
  {| slackToken := bs ""; chatPostMessage := fun _ _ => SlackOk |}.

(** A header row and 25 data rows r01 ... r25 in one column. *)
Definition twoDigits (n : nat) : gostring :=
  bs "r" ++ GoTime.appendInt (Z.of_nat n) 2.

Definition sample25 : list Row :=
  [Some (bs "name")] :: map (fun n => [Some (twoDigits n)]) (seq 1 25).

(** A query in which a year is quoted before the clause it bounds. *)
Definition yearsQuotedEarlier : gostring :=
  bs "SELECT * FROM waf WHERE year IN ('2020', '2021') AND day BETWEEN '2020' AND '2021'".

Definition unqualifiedQuery : gostring :=
  bs "  SELECT * FROM amazon_security_lake_table_ap_northeast_1_waf_2_0 WHERE time_dt BETWEEN '2024-01-01 10:00:00' AND '2024-01-01 12:00:00' AND year BETWEEN '2020' AND '2021' ".

(** ** Calls, columns, clauses and calendar days *)

(** An answer of GetQueryExecution that ends the polling with an error
    message. *)
Inductive reportsFailure
    : error + (gostring * option gostring) -> gostring -> Prop :=
  | statusError err :
      reportsFailure (inl err) (bs "Failed to get query status: " ++ err)
  | queryFailed reason :
      reportsFailure (inr (bs "FAILED", reason))
        (bs "Athena query failed: " ++ default (bs "Unknown error") reason)
  | queryCancelled reason :
      reportsFailure (inr (bs "CANCELLED", reason))
        (bs "Athena query was cancelled").

Definition timedOut : gostring :=
  bs "Query timed out (45 seconds elapsed). Execution aborted.".

(** The caches after a sequence of requests served one after the other by
    a process that starts with empty caches. *)
Definition served (requests : list (Clock * Request)) : Caches :=
  fold_left (fun caches '(clock, req) => (handlerIntake clock caches req).2)
    requests noCaches.

Definition noColon (channel : gostring) : Prop :=
  forallb (fun c => negb (Ascii.eqb c ":")) channel = true.

(** The names in the header row, and the cells that hold them. *)
Definition cellName (cell : nat * option gostring) : option (nat * gostring) :=
  (fun name : gostring => (cell.1, name)) <$> cell.2.

Definition namedCells (header : Row) : list (nat * gostring) :=
  omap cellName (indexed header).

Definition columnNames (header : Row) : list gostring := omap id header.

(** A name of the form _col<n>, given by Athena to an unnamed column. *)
Definition isNumbered (name : gostring) : bool := HasPrefix name (bs "_col").

Definition isCol0 (name : gostring) : bool := bool_decide (name = bs "_col0").

(** The cells chosen by the three passes. *)
Definition chosenCells (header : Row) : list (nat * gostring) :=
  let normal :=
    filter (fun c => negb (isNumbered c.2) = true) (namedCells header) in
  let numbered :=
    filter (fun c => negb (isCol0 c.2) && isNumbered c.2 = true)
      (namedCells header) in
  match normal, numbered with
  | _ :: _, _ => normal
  | [], _ :: _ => numbered
  | [], [] => namedCells header
  end.

(** The lines of the table for the data rows in [window]: the header
    line, the separator and one line per row. *)
Definition tableLines (headers : list gostring) (colIndices : list nat)
    (window : list Row) : gostring :=
  let colWidths := columnWidths headers colIndices window in
  concat (map (fun '(i, header) => padRight (widthAt colWidths i + 2) header)
            (indexed headers))
  ++ newline
  ++ concat (map (fun width => Repeat "-" (width + 2)) colWidths)
  ++ newline
  ++ concat (map (renderRow colIndices colWidths) window).

Definition rowsLeftOut (n : nat) : gostring :=
  newline ++ bs "... (" ++ formatInt (Z.of_nat n)
  ++ bs " more rows not displayed)".

(** The header line and the separator line of the table. *)
Definition headerLine (headers : list gostring) (colWidths : list nat)
    : gostring :=
  concat (map (fun '(i, header) => padRight (widthAt colWidths i + 2) header)
            (indexed headers))
  ++ newline.

Definition separatorLine (colWidths : list nat) : gostring :=
  concat (map (fun width => Repeat "-" (width + 2)) colWidths) ++ newline.

(** Every displayed cell of the row holds a value. *)
Definition filled (colIndices : list nat) (row : Row) : Prop :=
  Forall (fun colIdx => exists value, row !! colIdx = Some (Some value))
    colIndices.

(** The update of colWidths for one displayed cell of a row. *)
Definition widen (row : Row) (ws : list nat) (cell : nat * nat) : list nat :=
  match row !! cell.2 with
  | Some (Some value) =>
      match ws !! cell.1 with
      | Some w =>
          if (w <? length value)%nat then <[cell.1 := length value]> ws else ws
      | None => ws
      end
  | _ => ws
  end.

(** The pattern read from right to left. *)
Definition revNode (n : node) : node :=
  match n with
  | Lit l => Lit (rev l)
  | Plus cls => Plus cls
  | Group cls => Group cls
  end.

Definition revNodes (re : list node) : list node := rev (map revNode re).

(** A node that matches no quote. *)
Definition quoteFree (n : node) : bool :=
  match n with
  | Lit l => forallb notQuote l
  | Plus cls | Group cls => negb (cls "'"%char)
  end.

(** The three patterns up to their first quote, and after it. *)
Definition betweenHead : list node :=
  [Lit (bs "time_dt"); Plus perlSpace; Lit (bs "BETWEEN"); Plus perlSpace].

Definition simpleHead : list node := [Lit (bs "BETWEEN"); Plus perlSpace].

Definition typedHead : list node :=
  [Lit (bs "time_dt"); Plus perlSpace; Lit (bs "BETWEEN"); Plus perlSpace;
   Lit (bs "TIMESTAMP"); Plus perlSpace].

Definition boundsTail : list node :=
  [Group notQuote; Lit (bs "'"); Plus perlSpace; Lit (bs "AND");
   Plus perlSpace; Lit (bs "'"); Group notQuote; Lit (bs "'")].

Definition typedTail : list node :=
  [Group notQuote; Lit (bs "'"); Plus perlSpace; Lit (bs "AND");
   Plus perlSpace; Lit (bs "TIMESTAMP"); Plus perlSpace;
   Lit (bs "'"); Group notQuote; Lit (bs "'")].

Definition isSign (c : ascii) : bool := Ascii.eqb c "+" || Ascii.eqb c "-".

(** A year as the expansion expects it. *)
Definition fourDigits (y : gostring) : Prop :=
  length y = 4%nat /\ forallb isDigit y = true.

(** The clause with its year bounds expanded. *)
Definition expandedClause (w2 y1 w3 w4 y2 : gostring) : gostring :=
  bs "BETWEEN" ++ w2 ++ bs "TIMESTAMP '" ++ y1 ++ bs "-01-01 00:00:00'" ++ w3
  ++ bs "AND" ++ w4 ++ bs "TIMESTAMP '" ++ y2 ++ bs "-12-31 23:59:59'".

(** The texts that send a query to us-east-1. *)
Definition usMarkers : list gostring :=
  [bs "amazon_security_lake_glue_db_us_east_1";
   bs "amazon_security_lake_table_us_east_1";
   bs "waf_2_0_us_east_1"; bs "frontend"; bs "global/webacl"].

(** The byte [c] does not occur in [p]. *)
Definition avoids (p : gostring) (c : ascii) : bool :=
  negb (existsb (Ascii.eqb c) p).

(** The bytes of the markers. *)
Definition markerByte (c : ascii) : bool := wordByte c || Ascii.eqb c "/".

(** A proper suffix of [p] is a prefix of [z]. *)
Definition overlaps (p z : gostring) : bool :=
  existsb (fun k => HasPrefix z (drop k p)) (seq 1 (length p - 1)).

(** Replacing [m] by [r] in a text keeps [p] in or out of it. *)
Definition keeps (p m r : gostring) : Prop :=
  forall a b, Contains (a ++ m ++ b) p = Contains (a ++ r ++ b) p.

(** What the proof of the routing needs of a marker: it is made of marker
    bytes with a letter among them, and it cannot be completed or broken
    by the database name put before a table name. *)
Definition markerLike (p : gostring) : bool :=
  negb (length p =? 0)%nat && forallb markerByte p && existsb letterByte p
  && negb (overlaps p glueDbAp) && negb (Contains glueDbAp p)
  && negb (overlaps p tableAp) && (length p <=? length tableAp)%nat.

(** The days from 0000-01-01 to 9999-12-31, counted from 1970-01-01. *)
Definition firstDay : Z := -719528.
Definition lastDay : Z := 2932896.

(** What one day of the calendar has to satisfy: the date of the day is a
    date, and counts back to the day. *)
Definition civilDay (z : Z) : bool :=
  let '(y, m, d) := GoTime.civilFromDays z in
  (1 <=? m) && (m <=? 12) && (1 <=? d) && (d <=? GoTime.daysIn m y)
  && (GoTime.daysFromCivil y m d =? z)
  && (if z + 719468 <? 146037 then (0 <=? y) && (y <=? 399) else y =? 400).

Fixpoint civilDays (n : nat) (z : Z) : bool :=
  match n with
  | O => true
  | S n' => civilDay z && civilDays n' (z + 1)
  end.

Definition ignoredShort : Response := response 200 (bs "ignored empty message").

Definition unparsed (b : Body) : Prop := b = NotJson \/ b = Payload None None.

(** The secret that init retrieves, if any. *)
Definition retrieved (w : Secrets) : option gostring :=
  if bool_decide (secretName w = []) then None
  else match GetSecretValue w (secretName w) with
       | inr (Some secret) => Some secret
       | _ => None
       end.

Definition tokenKeys : list gostring :=
  [bs "token"; bs "slack_token"; bs "SLACK_TOKEN"].

(** [v] spells [keyword] in some mix of upper and lower case. *)
Definition spells (keyword v : gostring) : Prop := map lowerByte v = keyword.

(** The texts by which getQueryRegion sends a query without a us-east-1
    table name to us-east-1. *)
Definition routedByText (query : gostring) : bool :=
  Contains query (bs "frontend") || Contains query (bs "global/webacl").

(** A message with a result count: [before], the marker, the count on the
    rest of the line, and what follows. *)
Definition resultMarker : gostring := bs "*result:*".

Definition countedMessage (before count rest : gostring) : gostring :=
  before ++ resultMarker ++ count ++ newline ++ rest.

Definition noStar (s : gostring) : Prop :=
  forallb (fun c => negb (Ascii.eqb c "*")) s = true.

Definition oneLine (s : gostring) : Prop :=
  forallb (fun c => negb (Ascii.eqb c "010")) s = true.

(** What makes a replacement of every [old] by [new] leave no [old]
    behind: the first byte of [new] is not a byte of [old], and no end of
    [new] begins like [old]. *)
Definition removes (old new : gostring) : bool :=
  match old, new with
  | _ :: _, n0 :: _ =>
      avoids old n0
      && forallb (fun k => negb (HasPrefix old (drop k new))
                           && negb (HasPrefix (drop k new) old))
           (seq 0 (length new))
  | _, _ => false
  end.

(** The database and the output location of the first call. *)
Definition startedWith (calls : list Call) : option (gostring * gostring) :=
  match calls with
  | CallStart _ _ database output _ :: _ => Some (database, output)
  | _ => None
  end.

Definition noDot (s : gostring) : Prop :=
  forallb (fun c => negb (Ascii.eqb c ".")) s = true.

Definition apUnderscore : gostring := bs "ap_northeast_1".
Definition apHyphen : gostring := bs "ap-northeast-1".

(** ** Further sample inputs *)

(** A backend whose query is still running at the first two polls; the
    third poll finds it finished, with one row of results. *)
Definition finishingAthena : Athena :=
  {| StartQueryExecution := fun _ _ _ _ => inr (bs "qid-2");
     GetQueryExecution := fun _ attempt =>
       if (attempt <? 3)%nat then inr (bs "RUNNING", None)
       else inr (bs "SUCCEEDED", None);
     StopQueryExecution := fun _ => None;
     GetQueryResults := fun _ => inr ([[Some (bs "count")]], None) |}.

Definition finishingEnv : Env :=
  {| athenaDB := bs "amazon_security_lake_glue_db_ap_northeast_1";
     athenaOutput := bs "athena-results-ap-northeast-1";
     athenaWorkgroup := bs "primary";
     getAthenaClient := fun _ => finishingAthena;
     unicodeUpper := fun s => s;
     ticksDelivered := 22 |}.

(** A backend whose query fails at the second poll. *)
Definition failingAthena : Athena :=
  {| StartQueryExecution := fun _ _ _ _ => inr (bs "qid-3");
     GetQueryExecution := fun _ attempt =>
       if (attempt <? 2)%nat then inr (bs "QUEUED", None)
       else inr (bs "FAILED", Some (bs "SYNTAX_ERROR: line 1:8"));
     StopQueryExecution := fun _ => None;
     GetQueryResults := fun _ => inr ([], None) |}.

Definition failingEnv : Env :=
  {| athenaDB := bs "amazon_security_lake_glue_db_ap_northeast_1";
     athenaOutput := bs "athena-results-ap-northeast-1";
     athenaWorkgroup := bs "primary";
     getAthenaClient := fun _ => failingAthena;
     unicodeUpper := fun s => s;
     ticksDelivered := 22 |}.

Definition aSecondLater : Clock :=
  {| tCheck := GoTime.Second; tRecord := GoTime.Second + 1;
     tClean := GoTime.Second + 2; tRefill := GoTime.Second + 3 |}.

Definition withToken : Slack :=
  {| slackToken := bs "xoxb-1"; chatPostMessage := fun _ _ => SlackOk |}.

(** A header row of a query without column aliases: the row number, two
    aggregates and a cell without a name. *)
Definition numberedHeader : Row :=
  [Some (bs "_col0"); Some (bs "_col1"); None; Some (bs "_col2")].

(** A header row and 60 data rows in one column. *)
Definition sample60 : list Row :=
  map (fun n => [Some (twoDigits n)]) (seq 1 60).

Definition unquotedQuery : gostring :=
  bs "  SELECT count(*) FROM amazon_security_lake_table_us_east_1_waf_2_0 LIMIT 5 ".

Definition unreadable : Request := {| retryNum := bs ""; body := NotJson |}.

(** A secret in JSON whose token field is not a string. *)
Definition jsonSecrets : Secrets :=
  {| secretName := bs "slack/bot";
     GetSecretValue := fun _ => inr (Some (bs "{json}"));
     Unmarshal := fun _ =>
       Some (<[bs "token" := JsonOther]>
               {[bs "slack_token" := JsonString (bs "xoxb-1")]}) |}.

Definition fiveBlocked : gostring :=
  countedMessage (bs "WAF log search for the last hour, all hosts, api: ")
    (bs " 5 rows") (bs "top address 10.0.0.1").

Definition fiveAllowed : gostring :=
  countedMessage (bs "WAF log search for the last day, one host, frontend: ")
    (bs " 5 rows") (bs "top address 10.0.0.2").

(** An environment whose database name carries the region twice and a
    table part. *)
Definition twoRegionsEnv : Env :=
  {| athenaDB := bs "lake_ap_northeast_1_ap-northeast-1.waf";
     athenaOutput := bs "athena-results-ap-northeast-1";
     athenaWorkgroup := bs "primary";
     getAthenaClient := fun _ => idleAthena;
     unicodeUpper := fun s => s;
     ticksDelivered := 22 |}.

(* ===================================================================== *)
(** * Properties *)
(* ===================================================================== *)

(** ** Prefixes and substrings *)

Section Substrings.

Implicit Types s p a r : list ascii.

Lemma HasPrefix_app p r : HasPrefix (p ++ r) p = true.
Proof.
  induction p as [|c p IH]; simpl; [done|].
  by rewrite Ascii.eqb_refl.
Qed.

Lemma HasPrefix_inv s p : HasPrefix s p = true -> s = p ++ drop (length p) s.
Proof.
  revert s. induction p as [|c p IH]; intros [|d s]; simpl; try done.
  intros [Hc Hp]%andb_true_iff. apply Ascii.eqb_eq in Hc as ->.
  f_equal. by apply IH.
Qed.

Lemma HasPrefix_spec s p : HasPrefix s p = true <-> exists r, s = p ++ r.
Proof.
  split.
  - intros H. eexists. by apply HasPrefix_inv.
  - intros [r ->]. apply HasPrefix_app.
Qed.

Lemma Contains_HasPrefix s p : HasPrefix s p = true -> Contains s p = true.
Proof. intros H. destruct s; simpl; by rewrite H. Qed.

Lemma Contains_spec s p :
  Contains s p = true <-> exists a r, s = a ++ p ++ r.
Proof.
  split.
  - induction s as [|c s IH]; simpl.
    + rewrite orb_false_r. intros [r ->]%HasPrefix_spec. by exists [], r.
    + intros [H|H]%orb_true_iff.
      * apply HasPrefix_spec in H as [r ->]. by exists [], r.
      * destruct (IH H) as (a & r & ->). by exists (c :: a), r.
  - intros (a & r & ->). induction a as [|c a IH]; simpl.
    + apply Contains_HasPrefix, HasPrefix_app.
    + rewrite IH. apply orb_true_r.
Qed.

Lemma Contains_app_l s p r : Contains s p = true -> Contains (s ++ r) p = true.
Proof.
  rewrite !Contains_spec. intros (a & b & ->). exists a, (b ++ r).
  by rewrite <- !app_assoc.
Qed.

Lemma Contains_app_r s p a : Contains s p = true -> Contains (a ++ s) p = true.
Proof.
  rewrite !Contains_spec. intros (a' & b & ->). exists (a ++ a'), b.
  by rewrite <- !app_assoc.
Qed.

End Substrings.

(** ** runAthenaQuery: the deny-list *)

Lemma denyListed_rejected env query :
  denyListed env query = true -> runAthenaQuery env query = rejected.
Proof. intros H. unfold runAthenaQuery. by rewrite H. Qed.

Lemma ToUpper_ascii f s :
  forallb isASCII s = true -> ToUpper f s = map upperByte s.
Proof. intros H. unfold ToUpper. by rewrite H. Qed.

Lemma spellsDropTable_denyListed env pre v post :
  forallb isASCII (pre ++ v ++ post) = true ->
  spellsDropTable v ->
  denyListed env (pre ++ v ++ post) = true.
Proof.
  intros Hascii Hv. unfold denyListed.
  rewrite (ToUpper_ascii _ _ Hascii), !map_app, Hv.
  assert (Contains (map upperByte pre ++ bs "DROP TABLE X" ++ map upperByte post)
            (bs "DROP") = true) as ->; [|done].
  apply Contains_spec.
  exists (map upperByte pre), (bs " TABLE X" ++ map upperByte post).
  reflexivity.
Qed.

(** C3. A query whose upper-cased text contains DROP, DELETE, INSERT or
    UPDATE is answered with "Invalid SQL command detected", an empty
    execution id and no call to the backend at all; in particular every
    ASCII query that contains a spelling of DROP TABLE x in any mix of
    cases is rejected this way. *)
Theorem runAthenaQuery_denylist (env : Env) (query : gostring) :
  (Contains (ToUpper (unicodeUpper env) query) (bs "DROP") = true
   \/ Contains (ToUpper (unicodeUpper env) query) (bs "DELETE") = true
   \/ Contains (ToUpper (unicodeUpper env) query) (bs "INSERT") = true
   \/ Contains (ToUpper (unicodeUpper env) query) (bs "UPDATE") = true ->
   runAthenaQuery env query
   = ((bs "", [], bs "Invalid SQL command detected", bs ""), []))
  /\ (forall pre v post,
        query = pre ++ v ++ post ->
        forallb isASCII query = true ->
        spellsDropTable v ->
        runAthenaQuery env query
        = ((bs "", [], bs "Invalid SQL command detected", bs ""), [])).
Proof.
  split.
  - intros H. apply denyListed_rejected. unfold denyListed.
    destruct H as [H|[H|[H|H]]]; rewrite H; by rewrite ?orb_true_r.
  - intros pre v post -> Hascii Hv.
    apply denyListed_rejected. by apply spellsDropTable_denyListed.
Qed.

Lemma runAthenaQuery_denylist_witness :
  runAthenaQuery sampleEnv (bs "select 1; DrOp TaBlE x")
  = ((bs "", [], bs "Invalid SQL command detected", bs ""), []).
Proof.
  apply (proj2 (runAthenaQuery_denylist sampleEnv (bs "select 1; DrOp TaBlE x"))
           (bs "select 1; ") (bs "DrOp TaBlE x") []);
    reflexivity.
Defined.

(** ** runAthenaQuery: the deadline *)

Lemma pollLoop_deadline client qid ticks attempts state :
  (forall k, (attempts < k <= attempts + ticks)%nat ->
             keepsPolling (GetQueryExecution client qid k)) ->
  exists calls,
    pollLoop client qid ticks attempts state = (PollDeadline, calls)
    /\ forallb isGetExecution calls = true
    /\ length calls = ticks.
Proof.
  revert attempts state.
  induction ticks as [|ticks IH]; intros attempts state Hpoll; simpl.
  - by exists [].
  - specialize (Hpoll (S attempts)) as Hnow.
    destruct (GetQueryExecution client qid (S attempts)) as [err|[st reason]];
      simpl in Hnow.
    + exfalso. apply Hnow. lia.
    + destruct Hnow as (H1 & H2 & H3); [lia|].
      rewrite !bool_decide_eq_false_2 by done.
      destruct (IH (S attempts) st) as (calls & -> & Hget & Hlen).
      { intros k Hk. apply Hpoll. lia. }
      exists (CallGetExecution qid :: calls). simpl.
      by rewrite Hget, Hlen.
Qed.

Lemma filter_isStop_polls calls qid :
  forallb isGetExecution calls = true ->
  List.filter isStop (calls ++ [CallStop qid]) = [CallStop qid].
Proof.
  induction calls as [|c calls IH]; simpl; [done|].
  intros [Hc Hcalls]%andb_true_iff. destruct c; try done. simpl. auto.
Qed.

(** C2. When the query is submitted and every status poll before the
    deadline is answered, with a non-terminal state, runAthenaQuery returns the
    execution id, no rows, the message reporting the 45-second timeout and
    the region; exactly one StopQueryExecution call is issued, as the last
    call, and what that call answers has no part in the result. *)
Theorem runAthenaQuery_deadline (env : Env) (query qid : gostring) :
  let rewritten := preprocessSqlQuery query in
  let region := getQueryRegion rewritten in
  let client := getAthenaClient env region in
  denyListed env query = false ->
  (forall database output workgroup,
     StartQueryExecution client rewritten database output workgroup = inr qid) ->
  (forall k, (1 <= k <= maxTicks)%nat ->
             keepsPolling (GetQueryExecution client qid k)) ->
  exists calls,
    runAthenaQuery env query
    = ((qid, [],
        bs "Query timed out (45 seconds elapsed). Execution aborted.", region),
       calls)
    /\ List.filter isStop calls = [CallStop qid]
    /\ last calls = Some (CallStop qid).
Proof.
  intros rewritten region client Hdeny Hstart Hpoll.
  unfold runAthenaQuery. rewrite Hdeny.
  fold rewritten. fold region. fold client. rewrite Hstart.
  destruct (pollLoop_deadline client qid
              (Nat.min (ticksDelivered env) maxTicks) 0 (bs ""))
    as (calls & -> & Hget & _).
  { intros k Hk. apply Hpoll. lia. }
  eexists. split; [reflexivity|]. split.
  - simpl. by apply filter_isStop_polls.
  - rewrite app_comm_cons. apply last_snoc.
Qed.

Lemma runAthenaQuery_deadline_witness :
  exists calls,
    runAthenaQuery sampleEnv (bs "SELECT 1")
    = ((bs "qid-1", [],
        bs "Query timed out (45 seconds elapsed). Execution aborted.",
        bs "ap-northeast-1"), calls)
    /\ List.filter isStop calls = [CallStop (bs "qid-1")]
    /\ last calls = Some (CallStop (bs "qid-1")).
Proof.
  apply (runAthenaQuery_deadline sampleEnv (bs "SELECT 1") (bs "qid-1")).
  - reflexivity.
  - reflexivity.
  - intros k _. simpl. repeat split; discriminate.
Defined.

(** ** The dedup guards of the handler *)

Lemma queryGuard_duplicate (clock : Clock) (recent : gmap gostring Z) (key : gostring) (t : Z) :
  recent !! key = Some t ->
  tCheck clock - t < 5 * GoTime.Second ->
  queryGuard clock recent key = (Some duplicateQuery, recent).
Proof.
  intros Hkey Hage. unfold queryGuard. rewrite Hkey.
  by rewrite bool_decide_eq_true_2.
Qed.

Lemma queryGuard_expired (clock : Clock) (recent : gmap gostring Z) (key : gostring) (t : Z) :
  recent !! key = Some t ->
  5 * GoTime.Second <= tCheck clock - t ->
  (queryGuard clock recent key).1 = None.
Proof.
  intros Hkey Hage. unfold queryGuard. rewrite Hkey.
  rewrite bool_decide_eq_false_2 by lia. done.
Qed.

Lemma queryGuard_records (clock : Clock) (recent : gmap gostring Z) (key : gostring) :
  recent !! key = None ->
  tClean clock - tRecord clock <= 10 * GoTime.Minute ->
  exists now recent',
    queryGuard clock recent key = (None, recent')
    /\ recent' !! key = Some now
    /\ (now = tRecord clock \/ now = tRefill clock).
Proof.
  intros Hkey Hprompt. unfold queryGuard. rewrite Hkey.
  destruct (200 <? size (<[key:=tRecord clock]> recent))%nat.
  - match goal with |- context [(150 <? ?n)%nat] => destruct (150 <? n)%nat end.
    + eexists _, _. split; [done|]. rewrite lookup_insert_eq. eauto.
    + eexists _, _. split; [done|]. split; [|by left].
      apply map_lookup_filter_Some. rewrite lookup_insert_eq. split; [done|].
      simpl. lia.
  - eexists _, _. split; [done|]. rewrite lookup_insert_eq. eauto.
Qed.

Lemma queryGuard_hard_clear (clock : Clock) (recent : gmap gostring Z) (key : gostring) :
  (queryGuard clock recent key).1 = None ->
  (200 < size (<[key := tRecord clock]> recent))%nat ->
  (forall k t, <[key := tRecord clock]> recent !! k = Some t ->
               tClean clock - t <= 10 * GoTime.Minute) ->
  (queryGuard clock recent key).2 = {[key := tRefill clock]}.
Proof.
  intros Hproc Hsize Hyoung. unfold queryGuard in *.
  destruct (match recent !! key with Some _ => _ | None => _ end); [done|].
  simpl. rewrite (proj2 (Nat.ltb_lt _ _) Hsize).
  rewrite map_filter_id.
  - assert ((150 <? size (<[key:=tRecord clock]> recent))%nat = true) as ->
      by (apply Nat.ltb_lt; lia).
    apply insert_empty.
  - intros k t Hk. simpl. specialize (Hyoung k t Hk). lia.
Qed.

Lemma eventGuard_hard_clear (processed : gmap gostring bool) (wrapper : SlackEventWrapper) :
  EventID wrapper <> bs "" ->
  processed !! eventKeyOf wrapper = None ->
  (100 < size (<[eventKeyOf wrapper := true]> processed))%nat ->
  eventGuard processed wrapper = (None, {[eventKeyOf wrapper := true]}).
Proof.
  intros Hid Hkey Hsize. unfold eventGuard. fold (eventKeyOf wrapper).
  rewrite bool_decide_eq_false_2 by done. simpl. rewrite Hkey.
  rewrite (proj2 (Nat.ltb_lt _ _) Hsize). by rewrite insert_empty.
Qed.

(** C4. The recent-query guard: a key that is absent is processed and
    recorded with the current time (the clock reading of the clean-up
    being within 10 minutes of the recording one); a later call with that key less than 5
    seconds after the recorded time is answered as a duplicate and leaves
    the cache alone; a call 5 seconds or more after it is processed again;
    when the insertion takes the cache past 200 entries and no entry is
    older than 10 minutes, the cache is replaced by one that holds only the
    triggering key.  The inbound-event cache is replaced in the same way
    when an insertion takes it past 100 entries. *)
Theorem dedup_guards (clock : Clock) (recent : gmap gostring Z)
    (channel text : gostring) :
  let key := queryKey channel text in
  (recent !! key = None ->
   tClean clock - tRecord clock <= 10 * GoTime.Minute ->
   exists now recent',
     queryGuard clock recent key = (None, recent')
     /\ recent' !! key = Some now
     /\ (now = tRecord clock \/ now = tRefill clock)
     /\ (forall later, tCheck later - now < 5 * GoTime.Second ->
           queryGuard later recent' key = (Some duplicateQuery, recent'))
     /\ (forall later, 5 * GoTime.Second <= tCheck later - now ->
           (queryGuard later recent' key).1 = None))
  /\ ((queryGuard clock recent key).1 = None ->
      (200 < size (<[key := tRecord clock]> recent))%nat ->
      (forall k t, <[key := tRecord clock]> recent !! k = Some t ->
                   tClean clock - t <= 10 * GoTime.Minute) ->
      (queryGuard clock recent key).2 = {[key := tRefill clock]})
  /\ (forall (processed : gmap gostring bool) wrapper,
        EventID wrapper <> bs "" ->
        processed !! eventKeyOf wrapper = None ->
        (100 < size (<[eventKeyOf wrapper := true]> processed))%nat ->
        eventGuard processed wrapper = (None, {[eventKeyOf wrapper := true]})).
Proof.
  intros key. split; [|split].
  - intros Hkey Hprompt.
    destruct (queryGuard_records clock recent key Hkey Hprompt)
      as (now & recent' & Hguard & Hnow & Hwhich).
    exists now, recent'. repeat split; try done.
    + intros later Hlater. by apply (queryGuard_duplicate later recent' key now).
    + intros later Hlater. by apply (queryGuard_expired later recent' key now).
  - apply queryGuard_hard_clear.
  - apply eventGuard_hard_clear.
Qed.

Lemma dedup_guards_witness :
  exists now recent',
    queryGuard noon ∅ (queryKey (bs "C1") (bs "top ips")) = (None, recent')
    /\ recent' !! queryKey (bs "C1") (bs "top ips") = Some now
    /\ (now = tRecord noon \/ now = tRefill noon)
    /\ (forall later, tCheck later - now < 5 * GoTime.Second ->
          queryGuard later recent' (queryKey (bs "C1") (bs "top ips"))
          = (Some duplicateQuery, recent'))
    /\ (forall later, 5 * GoTime.Second <= tCheck later - now ->
          (queryGuard later recent' (queryKey (bs "C1") (bs "top ips"))).1 = None).
Proof.
  apply (proj1 (dedup_guards noon ∅ (bs "C1") (bs "top ips"))).
  - reflexivity.
  - vm_compute. discriminate.
Defined.

Lemma queryGuard_marks (clock : Clock) (recent recent' : gmap gostring Z)
    (key : gostring) :
  queryGuard clock recent key = (None, recent') ->
  tClean clock - tRecord clock <= 10 * GoTime.Minute ->
  recent' !! key = Some (tRecord clock) \/ recent' !! key = Some (tRefill clock).
Proof.
  unfold queryGuard.
  destruct (match recent !! key with Some _ => _ | None => _ end);
    [discriminate|].
  intros [= <-] Hprompt.
  destruct (200 <? size (<[key:=tRecord clock]> recent))%nat.
  - match goal with |- context [(150 <? ?n)%nat] => destruct (150 <? n)%nat end.
    + right. apply lookup_insert_eq.
    + left. apply map_lookup_filter_Some. rewrite lookup_insert_eq.
      split; [done|]. simpl. lia.
  - left. apply lookup_insert_eq.
Qed.






(** ** postToSlack: the outbound-notification cache *)

Lemma postToSlack_suppressed (slack : Slack) (clock : Clock)
    (recent : gmap gostring Z) (channel msg : gostring) (t : Z) :
  recent !! msgHash channel msg = Some t ->
  tCheck clock - t < 3 * GoTime.Minute ->
  postToSlack slack clock recent channel msg = (None, recent, []).
Proof.
  intros Hkey Hage. unfold postToSlack. rewrite Hkey.
  by rewrite bool_decide_eq_true_2.
Qed.

Lemma postToSlack_recorded (slack : Slack) (clock : Clock)
    (recent : gmap gostring Z) (channel msg : gostring) :
  match recent !! msgHash channel msg with
  | Some t => 3 * GoTime.Minute <= tCheck clock - t
  | None => True
  end ->
  tClean clock - tRecord clock <= 10 * GoTime.Minute ->
  exists err recent' sent,
    postToSlack slack clock recent channel msg = (err, recent', sent)
    /\ recent' !! msgHash channel msg = Some (tRecord clock)
    /\ (slackToken slack = bs "" -> err = Some tokenEmpty /\ sent = [])
    /\ (slackToken slack <> bs "" ->
        sent = [(channel, msg)]
        /\ forall e, chatPostMessage slack channel msg = SlackNotOk e ->
             err = Some (bs "Slack API error: " ++ default (bs "Unknown error") e)).
Proof.
  intros Hfirst Hprompt. unfold postToSlack.
  set (key := msgHash channel msg) in *.
  assert (match recent !! key with
          | Some lastTime =>
              bool_decide (tCheck clock - lastTime < 3 * GoTime.Minute)
          | None => false
          end = false) as ->.
  { destruct (recent !! key); [|done]. apply bool_decide_eq_false_2. lia. }
  set (recent' := if (50 <? size (<[key:=tRecord clock]> recent))%nat
                  then _ else _).
  assert (recent' !! key = Some (tRecord clock)) as Hrec.
  { subst recent'. destruct (50 <? _)%nat.
    - apply map_lookup_filter_Some. rewrite lookup_insert_eq.
      split; [done|]. simpl. lia.
    - apply lookup_insert_eq. }
  destruct (bool_decide (slackToken slack = bs "")) eqn:Htoken.
  - apply bool_decide_eq_true_1 in Htoken.
    eexists _, _, _. split; [done|]. split; [done|]. split; [done|].
    intros Hne. by destruct Hne.
  - apply bool_decide_eq_false_1 in Htoken.
    eexists _, _, _. split; [done|]. split; [done|]. split; [done|].
    intros _. split; [done|]. by intros e ->.
Qed.

(** C9. postToSlack records the key (channel and message signature)
    before the token check and the HTTP request: a call that is not itself
    suppressed leaves the key in the cache with the time of recording (the
    clock reading of the clean-up being within 10 minutes of it),
    also when the token is empty (nothing is sent, an error is returned)
    and when the Slack API answers with an error; a later call for the
    same channel and signature less than 3 minutes after that time
    returns nil, sends nothing and leaves the cache alone. *)
Theorem postToSlack_records_before_send (slack : Slack) (clock later : Clock)
    (recent : gmap gostring Z) (channel msg msg' : gostring) :
  match recent !! msgHash channel msg with
  | Some t => 3 * GoTime.Minute <= tCheck clock - t
  | None => True
  end ->
  tClean clock - tRecord clock <= 10 * GoTime.Minute ->
  contentSignature msg' = contentSignature msg ->
  tCheck later - tRecord clock < 3 * GoTime.Minute ->
  exists err recent' sent,
    postToSlack slack clock recent channel msg = (err, recent', sent)
    /\ recent' !! msgHash channel msg = Some (tRecord clock)
    /\ (slackToken slack = bs "" -> err = Some tokenEmpty /\ sent = [])
    /\ (slackToken slack <> bs "" ->
        sent = [(channel, msg)]
        /\ forall e, chatPostMessage slack channel msg = SlackNotOk e ->
             err = Some (bs "Slack API error: " ++ default (bs "Unknown error") e))
    /\ forall slack',
         postToSlack slack' later recent' channel msg' = (None, recent', []).
Proof.
  intros Hfirst Hprompt Hsig Hlater.
  destruct (postToSlack_recorded slack clock recent channel msg Hfirst Hprompt)
    as (err & recent' & sent & Hpost & Hrec & Hempty & Hapi).
  exists err, recent', sent. repeat (split; [assumption|]).
  intros slack'. apply postToSlack_suppressed with (t := tRecord clock); [|done].
  unfold msgHash in *. by rewrite Hsig.
Qed.

Lemma postToSlack_records_before_send_witness :
  exists err recent' sent,
    postToSlack noToken noon ∅ (bs "C1") (bs "Query failed") = (err, recent', sent)
    /\ recent' !! msgHash (bs "C1") (bs "Query failed") = Some (tRecord noon)
    /\ (slackToken noToken = bs "" -> err = Some tokenEmpty /\ sent = [])
    /\ (slackToken noToken <> bs "" ->
        sent = [(bs "C1", bs "Query failed")]
        /\ forall e,
             chatPostMessage noToken (bs "C1") (bs "Query failed") = SlackNotOk e ->
             err = Some (bs "Slack API error: " ++ default (bs "Unknown error") e))
    /\ forall slack',
         postToSlack slack' aMinuteLater recent' (bs "C1") (bs "Query failed")
         = (None, recent', []).
Proof.
  apply (postToSlack_records_before_send noToken noon aMinuteLater ∅
           (bs "C1") (bs "Query failed") (bs "Query failed")).
  - reflexivity.
  - vm_compute. discriminate.
  - reflexivity.
  - vm_compute. reflexivity.
Defined.

(** ** formatAthenaResults: the row cap *)

Section Folds.

Context {A : Type}.

Lemma fold_left_append (write : gostring -> A -> gostring)
    (f : A -> gostring) (l : list A) (sb : gostring) :
  (forall sb x, write sb x = sb ++ f x) ->
  fold_left write l sb = sb ++ concat (map f l).
Proof.
  intros Hwrite. revert sb. induction l as [|x l IH]; intros sb; simpl.
  - by rewrite app_nil_r.
  - by rewrite IH, Hwrite, <- app_assoc.
Qed.

(** A loop over the indices k, k+1, ..., k+n-1 of a slice that holds them
    all visits the n elements after the first k. *)
Lemma fold_left_indices {B : Type} (step : B -> A -> B) (rows : list A)
    (k n : nat) (acc : B) :
  (k + n <= length rows)%nat ->
  fold_left (fun acc i =>
               match rows !! i with Some row => step acc row | None => acc end)
    (seq k n) acc
  = fold_left step (take n (drop k rows)) acc.
Proof.
  revert k acc. induction n as [|n IH]; intros k acc Hlen; simpl; [done|].
  destruct (rows !! k) as [row|] eqn:Hrow.
  - rewrite IH by lia. rewrite (drop_S _ _ _ Hrow). done.
  - apply lookup_ge_None in Hrow. lia.
Qed.

End Folds.

Lemma formatAthenaResults_window (header : Row) (data : list Row) :
  (selectColumns header).1 <> [] ->
  formatAthenaResults (header :: data)
  = tableOf (selectColumns header).1 (selectColumns header).2
      (take 19 data)
    ++ (if (20 <=? length data)%nat then truncationNote else [])
    ++ codeFence.
Proof.
  intros Hcols. unfold formatAthenaResults, tableOf, columnWidths.
  destruct (selectColumns header) as [headers colIndices]. simpl in Hcols.
  assert ((length headers =? 0)%nat = false) as ->.
  { apply Nat.eqb_neq. by destruct headers. }
  cbn [fst snd length].
  set (maxRows := if (20 <? S (length data))%nat then 20%nat else S (length data)).
  assert (take (maxRows - 1) data = take 19 data) as Htake.
  { subst maxRows. destruct (20 <? S (length data))%nat eqn:Hlt; [done|].
    apply Nat.ltb_ge in Hlt.
    rewrite !take_ge; [done|lia|lia]. }
  assert (1 + (maxRows - 1) <= length (header :: data))%nat as Hin.
  { subst maxRows. simpl. destruct (20 <? S (length data))%nat eqn:Hlt.
    - apply Nat.ltb_lt in Hlt. lia.
    - lia. }
  rewrite !(fold_left_indices _ (header :: data) 1 (maxRows - 1)) by exact Hin.
  cbn [drop]. rewrite drop_0, Htake.
  rewrite (fold_left_append _ (renderRow colIndices _)) by done.
  rewrite (fold_left_append _ (fun width => Repeat "-" (width + 2))) by done.
  rewrite (fold_left_append _
             (fun '(i, header0) => padRight (widthAt _ i + 2) header0))
    by (by intros sb [i h]).
  replace (20 <? S (length data))%nat with (20 <=? length data)%nat
    by (destruct (20 <=? length data)%nat eqn:E;
        [apply Nat.leb_le in E; symmetry; apply Nat.ltb_lt; lia
        |apply Nat.leb_gt in E; symmetry; apply Nat.ltb_ge; lia]).
  destruct (20 <=? length data)%nat; rewrite <- ?app_assoc; try done.
Qed.

(** C5 as stated fails: with 25 data rows the table has the truncation
    note and the 19th data row, but not the 20th. *)
Lemma formatAthenaResults_25_rows_renders_19 :
  length sample25 = 26%nat
  /\ Contains (formatAthenaResults sample25) truncationNote = true
  /\ Contains (formatAthenaResults sample25) (bs "r19") = true
  /\ Contains (formatAthenaResults sample25) (bs "r20") = false
  /\ formatAthenaResults sample25
     = tableOf [bs "name"] [0%nat] (take 19 (tail sample25))
       ++ truncationNote ++ codeFence.
Proof. vm_compute. repeat split. Qed.

(** C5, amended. Given a header row with a displayable column and 25 data
    rows, the output is the code fence, the header line, the separator,
    the lines of the first 19 data rows (20 rows with the header), the
    truncation note and the closing fence; every cell is left-justified
    and padded to the column width plus two, the widths being those of
    the header and of these 19 rows. *)
Theorem formatAthenaResults_display_cap (header : Row) (data : list Row) :
  length data = 25%nat ->
  (selectColumns header).1 <> [] ->
  formatAthenaResults (header :: data)
  = tableOf (selectColumns header).1 (selectColumns header).2 (take 19 data)
    ++ truncationNote ++ codeFence
  /\ length (take 19 data) = 19%nat.
Proof.
  intros Hlen Hcols. split.
  - rewrite (formatAthenaResults_window header data Hcols). by rewrite Hlen.
  - rewrite length_take. lia.
Qed.

Lemma formatAthenaResults_display_cap_witness :
  formatAthenaResults sample25
  = tableOf [bs "name"] [0%nat] (take 19 (tail sample25))
    ++ truncationNote ++ codeFence
  /\ length (take 19 (tail sample25)) = 19%nat.
Proof.
  apply (formatAthenaResults_display_cap [Some (bs "name")] (tail sample25)).
  - reflexivity.
  - discriminate.
Defined.

(** ** Matching *)

Section Matching.

Implicit Types (re : list node) (cls : ascii -> bool) (s w lit : list ascii).

Lemma span_all cls w c rest :
  forallb cls w = true -> cls c = false ->
  span cls (w ++ c :: rest) = (w, c :: rest).
Proof.
  intros Hw Hc. induction w as [|x w IH]; simpl.
  - by rewrite Hc.
  - simpl in Hw. apply andb_true_iff in Hw as [Hx Hw]. by rewrite Hx, IH.
Qed.

Lemma span_spec cls s :
  s = (span cls s).1 ++ (span cls s).2
  /\ forallb cls (span cls s).1 = true
  /\ match (span cls s).2 with [] => True | c :: _ => cls c = false end.
Proof.
  induction s as [|c s (IH1 & IH2 & IH3)]; simpl; [done|].
  destruct (cls c) eqn:Hc; [|done].
  destruct (span cls s) as [a b]. simpl in *.
  by rewrite Hc, <- IH1.
Qed.

Lemma matchHere_Lit lit re s :
  matchHere (Lit lit :: re) (lit ++ s) = matchHere re s.
Proof. simpl. by rewrite HasPrefix_app, drop_app_length. Qed.

Lemma matchHere_Plus_Lit cls lit re w s :
  w <> [] -> forallb cls w = true -> startsOutside cls lit = true ->
  matchHere (Plus cls :: Lit lit :: re) (w ++ lit ++ s) = matchHere re s.
Proof.
  intros Hne Hw Hout. destruct lit as [|c lit]; [done|].
  apply negb_true_iff in Hout.
  cbn [matchHere]. rewrite <- app_comm_cons, (span_all _ _ _ _ Hw Hout).
  destruct w; [done|]. rewrite app_comm_cons. apply matchHere_Lit.
Qed.

Lemma matchHere_Group_Lit cls lit re w s :
  w <> [] -> forallb cls w = true -> startsOutside cls lit = true ->
  matchHere (Group cls :: Lit lit :: re) (w ++ lit ++ s)
  = '(gs, rest) ← matchHere re s; Some (w :: gs, rest).
Proof.
  intros Hne Hw Hout. destruct lit as [|c lit]; [done|].
  apply negb_true_iff in Hout.
  cbn [matchHere]. rewrite <- app_comm_cons, (span_all _ _ _ _ Hw Hout).
  destruct w; [done|]. rewrite app_comm_cons.
  change (if HasPrefix ((c :: lit) ++ s) (c :: lit)
          then matchHere re (drop (length (c :: lit)) ((c :: lit) ++ s))
          else None)
    with (matchHere (Lit (c :: lit) :: re) ((c :: lit) ++ s)).
  by rewrite matchHere_Lit.
Qed.

End Matching.

Lemma matchHere_simpleRegex w2 d1 w3 w4 d2 rest :
  blank w2 -> literal d1 -> blank w3 -> blank w4 -> literal d2 ->
  matchHere simpleRegex (untypedClause w2 d1 w3 w4 d2 ++ rest)
  = Some ([d1; d2], rest).
Proof.
  intros [] [] [] [] []. unfold simpleRegex, untypedClause.
  rewrite <- !app_assoc.
  rewrite matchHere_Lit, matchHere_Plus_Lit, matchHere_Group_Lit,
    matchHere_Plus_Lit, matchHere_Plus_Lit, matchHere_Group_Lit by done.
  done.
Qed.

Lemma matchHere_betweenRegex w1 w2 d1 w3 w4 d2 rest :
  blank w1 -> blank w2 -> literal d1 -> blank w3 -> blank w4 -> literal d2 ->
  matchHere betweenRegex
    (bs "time_dt" ++ w1 ++ untypedClause w2 d1 w3 w4 d2 ++ rest)
  = Some ([d1; d2], rest).
Proof.
  intros [] ? ? ? ? ?. unfold betweenRegex.
  rewrite matchHere_Lit.
  unfold untypedClause at 1. rewrite <- !app_assoc.
  rewrite matchHere_Plus_Lit by done.
  rewrite <- (matchHere_simpleRegex w2 d1 w3 w4 d2 rest) by done.
  unfold simpleRegex, untypedClause. rewrite <- !app_assoc.
  by rewrite matchHere_Lit.
Qed.

Section Replacing.

Context (re : list node) (repl : gostring -> gostring).

Lemma replaceAllFrom_skip (k : nat) (s : gostring) :
  replaceAllFrom re repl k s = replaceAllFrom re repl 0 (drop k s).
Proof.
  revert k. induction s as [|c s IH]; intros [|k]; try done.
  simpl. apply IH.
Qed.

Lemma findAllFrom_skip (k : nat) (s : gostring) :
  findAllFrom re k s = findAllFrom re 0 (drop k s).
Proof.
  revert k. induction s as [|c s IH]; intros [|k]; try done.
  simpl. apply IH.
Qed.

End Replacing.

Lemma FindStringSubmatch_here (re : list node) (s : gostring)
    (m : list gostring) :
  submatchHere re s = Some m -> FindStringSubmatch re s = m.
Proof. intros H. destruct s; simpl; by rewrite H. Qed.

(** ** preprocessSqlQuery: the bounds of a time_dt clause *)





(** ** preprocessSqlQuery: year-only bounds *)

(** C7. Year-only bounds of a BETWEEN clause that is not on time_dt are
    expanded; on a time_dt clause the cast that runs first has already
    wrapped the bounds, the second pattern no longer matches, and the
    years stay as they are inside the TIMESTAMP literals. *)
Lemma year_bounds_on_time_dt_not_expanded :
  preprocessSqlQuery (bs "SELECT * FROM waf WHERE year BETWEEN '2020' AND '2021'")
  = bs "SELECT * FROM waf WHERE year BETWEEN TIMESTAMP '2020-01-01 00:00:00' AND TIMESTAMP '2021-12-31 23:59:59'"
  /\ preprocessSqlQuery
       (bs "SELECT * FROM waf WHERE time_dt BETWEEN '2020' AND '2021'")
     = bs "SELECT * FROM waf WHERE time_dt BETWEEN TIMESTAMP '2020' AND TIMESTAMP '2021'".
Proof. by vm_compute. Qed.

(** ** handler: the failure report *)

(** C8. The failure report shows the SQL that callBedrock generated, not
    the text that preprocessSqlQuery produced and StartQueryExecution
    received. *)
Lemma handlerReport_shows_generated_sql :
  exists msg,
    handlerReport refusingEnv generatedSql
    = (Some msg,
       [CallStart (bs "ap-northeast-1") (preprocessSqlQuery generatedSql)
          (bs "amazon_security_lake_glue_db_ap_northeast_1")
          (bs "s3://athena-results-ap-northeast-1/") (bs "primary")])
    /\ preprocessSqlQuery generatedSql <> generatedSql
    /\ Contains msg (bs "region: ap-northeast-1") = true
    /\ Contains msg (bs "Athena start error: AccessDeniedException") = true
    /\ Contains msg generatedSql = true
    /\ Contains msg (preprocessSqlQuery generatedSql) = false.
Proof. eexists. by vm_compute. Qed.

(** ** Rewriting by replacement *)

Section Rewrites.

Context (ok : gostring -> gostring -> Prop).

Lemma rewrites_refl (s : gostring) : rewrites ok s s.
Proof. induction s; by constructor. Qed.

Lemma rewrites_sameFront (s t : gostring) :
  (forall m r, ok m r -> solidEnds m /\ solidEnds r) ->
  rewrites ok s t -> sameFront s t.
Proof.
  intros Hok. induction 1 as [|c s t _ IH|m r s t Hmr _ _].
  - by left.
  - destruct IH as [->|(p & a & a' & x & y & Ha & Ha' & -> & ->)]; [by left|].
    right. by exists (c :: p), a, a', x, y.
  - destruct (Hok m r Hmr) as [[(c & m' & -> & Hc) _] [(c' & r' & -> & Hc') _]].
    right. by exists [], c, c', (m' ++ s), (r' ++ t).
Qed.

Lemma rewrites_sameBack (s t : gostring) :
  (forall m r, ok m r -> solidEnds m /\ solidEnds r) ->
  rewrites ok s t -> sameBack s t.
Proof.
  intros Hok. induction 1 as [|c s t _ IH|m r s t Hmr _ IH].
  - by left.
  - destruct IH as [->|(q & a & a' & x & y & Ha & Ha' & -> & ->)]; [by left|].
    right. by exists q, a, a', (c :: x), (c :: y).
  - destruct (Hok m r Hmr) as [[_ (c & m' & -> & Hc)] [_ (c' & r' & -> & Hc')]].
    destruct IH as [->|(q & a & a' & x & y & Ha & Ha' & -> & ->)].
    + right. exists t, c, c', m', r'. by rewrite <- !app_assoc.
    + right. exists q, a, a', ((m' ++ [c]) ++ x), ((r' ++ [c']) ++ y).
      by rewrite <- !app_assoc.
Qed.

End Rewrites.

(** ** White space at the ends *)

Section Runes.

(** A table of non-empty runes none of which holds a visible ASCII byte. *)
Context (table : list gostring) (Htable : forallb noSolid table = true).

Lemma runeWidthIn_zero (s : gostring) :
  runeWidthIn table s = O <-> Forall (fun rune => HasPrefix s rune = false) table.
Proof.
  unfold runeWidthIn. induction table as [|rune tb IH]; simpl.
  - split; [constructor|done].
  - simpl in Htable. apply andb_true_iff in Htable as [Hrune Htb].
    destruct (HasPrefix s rune) eqn:Hp.
    + split.
      * intros Hlen. apply andb_true_iff in Hrune as [Hne _].
        by rewrite Hlen in Hne.
      * intros Hall. inversion Hall; congruence.
    + rewrite (IH Htb). split; [by constructor|by inversion 1].
Qed.

Lemma HasPrefix_before_solid (rune p x : gostring) (c : ascii) :
  forallb (fun c => negb (solid c)) rune = true -> solid c = true ->
  HasPrefix (p ++ c :: x) rune = true -> HasPrefix p rune = true.
Proof.
  intros Hrune Hc. revert p.
  induction rune as [|e rune IH]; intros p; [done|].
  simpl in Hrune. apply andb_true_iff in Hrune as [He Hrune].
  destruct p as [|a p]; simpl.
  - intros [Hec _]%andb_true_iff. apply Ascii.eqb_eq in Hec as ->.
    by rewrite Hc in He.
  - intros [-> Hp]%andb_true_iff. by rewrite (IH Hrune p Hp).
Qed.

Lemma HasPrefix_longer (rune p y : gostring) :
  HasPrefix p rune = true -> HasPrefix (p ++ y) rune = true.
Proof.
  intros [r ->]%HasPrefix_spec. rewrite <- app_assoc. apply HasPrefix_app.
Qed.

Lemma runeWidthIn_prefix (u z : gostring) :
  runeWidthIn table (u ++ z) = O -> runeWidthIn table u = O.
Proof.
  rewrite !runeWidthIn_zero. intros Hall.
  eapply Forall_impl; [exact Hall|]. intros rune Hz. simpl in Hz.
  destruct (HasPrefix u rune) eqn:Hu; [|done].
  by rewrite (HasPrefix_longer _ _ z Hu) in Hz.
Qed.

Lemma runeWidthIn_sameFront (s t : gostring) :
  sameFront s t -> runeWidthIn table s = O -> runeWidthIn table t = O.
Proof.
  intros [->|(p & c & c' & x & y & Hc & Hc' & -> & ->)]; [done|].
  rewrite !runeWidthIn_zero. intros Hs.
  apply Forall_forall. intros rune Hin.
  rewrite Forall_forall in Hs. specialize (Hs rune Hin).
  destruct (HasPrefix (p ++ c' :: y) rune) eqn:Ht; [|done].
  assert (forallb (fun c => negb (solid c)) rune = true) as Hrune.
  { rewrite forallb_forall in Htable. apply list_elem_of_In in Hin.
    specialize (Htable rune Hin).
    by apply andb_true_iff in Htable as [_ ?]. }
  apply (HasPrefix_before_solid _ _ _ _ Hrune Hc') in Ht.
  by rewrite (HasPrefix_longer _ _ (c :: x) Ht) in Hs.
Qed.

Lemma trimFrom_fixed (s : gostring) :
  runeWidthIn table s = O -> trimFrom (runeWidthIn table) 0 s = s.
Proof. intros H. destruct s; simpl; [done|]. by rewrite H. Qed.

Lemma trimFrom_width (k : nat) (s : gostring) :
  runeWidthIn table (trimFrom (runeWidthIn table) k s) = O.
Proof.
  revert k. induction s as [|c s IH]; intros k; simpl.
  - unfold runeWidthIn. clear Htable.
    induction table as [|[|e rune] tb IHtb]; simpl; done.
  - destruct k as [|k]; [|apply IH].
    destruct (runeWidthIn table (c :: s)) eqn:Hw; [done|apply IH].
Qed.

Lemma trimFrom_suffix (k : nat) (s : gostring) :
  exists z, s = z ++ trimFrom (runeWidthIn table) k s.
Proof.
  revert k. induction s as [|c s IH]; intros k; simpl.
  - by exists [].
  - destruct k as [|k].
    + destruct (runeWidthIn table (c :: s)); [by exists []|].
      destruct (IH n) as [z Hz]. exists (c :: z). simpl. by rewrite <- Hz.
    + destruct (IH k) as [z Hz]. exists (c :: z). simpl. by rewrite <- Hz.
Qed.

End Runes.

Lemma sameBack_rev (s t : gostring) : sameBack s t -> sameFront (rev s) (rev t).
Proof.
  intros [->|(q & c & c' & x & y & Hc & Hc' & -> & ->)]; [by left|].
  right. exists (rev q), c, c', (rev x), (rev y).
  rewrite !rev_app_distr. simpl. by rewrite <- !app_assoc.
Qed.

Lemma spaceRunes_noSolid : forallb noSolid spaceRunes = true.
Proof. reflexivity. Qed.

Lemma spaceRunes_rev_noSolid : forallb noSolid (map (@rev ascii) spaceRunes) = true.
Proof. reflexivity. Qed.

Lemma TrimSpace_trimmed (s : gostring) : trimmed (TrimSpace s).
Proof.
  unfold trimmed, TrimSpace, TrimRightSpace, TrimLeftSpace.
  set (front := trimFrom spaceWidth 0 s).
  set (back := trimFrom spaceWidthLast 0 (rev front)).
  split.
  - destruct (trimFrom_suffix (map (@rev ascii) spaceRunes) 0 (rev front))
      as [z Hz].
    change (rev front = z ++ back) in Hz.
    apply (runeWidthIn_prefix _ spaceRunes_noSolid _ (rev z)).
    rewrite <- rev_app_distr, <- Hz, rev_involutive.
    apply (trimFrom_width spaceRunes).
  - rewrite rev_involutive. apply (trimFrom_width (map (@rev ascii) spaceRunes)).
Qed.

Lemma trimmed_TrimSpace (s : gostring) : trimmed s -> TrimSpace s = s.
Proof.
  intros [Hfront Hback].
  unfold TrimSpace, TrimRightSpace, TrimLeftSpace.
  rewrite (trimFrom_fixed spaceRunes s Hfront : trimFrom spaceWidth 0 s = s).
  rewrite (trimFrom_fixed _ (rev s) Hback
           : trimFrom spaceWidthLast 0 (rev s) = rev s).
  apply rev_involutive.
Qed.

Lemma trimmed_same (s t : gostring) :
  sameFront s t -> sameBack s t -> trimmed s -> trimmed t.
Proof.
  intros Hf Hb [Hs Hr]. split.
  - by apply (runeWidthIn_sameFront _ spaceRunes_noSolid s t).
  - apply (runeWidthIn_sameFront _ spaceRunes_rev_noSolid (rev s) (rev t));
      [by apply sameBack_rev|done].
Qed.

Lemma trimmed_rewrites (ok : gostring -> gostring -> Prop) (s t : gostring) :
  (forall m r, ok m r -> solidEnds m /\ solidEnds r) ->
  rewrites ok s t -> trimmed s -> trimmed t.
Proof.
  intros Hok Hrw. apply trimmed_same.
  - by apply (rewrites_sameFront ok).
  - by apply (rewrites_sameBack ok).
Qed.

(** ** The scans are rewritings *)

Section Scans.

Implicit Types (re : list node) (s m r old new : gostring).

Lemma replaceFrom_skip old new limit (k : nat) s :
  replaceFrom old new limit k s = replaceFrom old new limit 0 (drop k s).
Proof.
  revert k. induction s as [|c s IH]; intros [|k]; try done.
  simpl. apply IH.
Qed.

Lemma replaceFrom_rewrites old new limit (k : nat) s :
  old <> [] ->
  rewrites (fun m r => m = old /\ r = new)
    (drop k s) (replaceFrom old new limit k s).
Proof.
  intros Hold. revert k limit.
  induction s as [|c s IH]; intros k limit.
  - rewrite drop_nil. destruct k; constructor.
  - destruct k as [|k]; [|apply IH].
    rewrite drop_0. cbn [replaceFrom].
    assert (rewrites (fun m r => m = old /\ r = new) (c :: s)
              (if HasPrefix (c :: s) old
               then new ++ replaceFrom old new (Nat.pred <$> limit)
                             (Nat.pred (length old)) s
               else c :: replaceFrom old new limit 0 s)) as Hstep.
    { destruct (HasPrefix (c :: s) old) eqn:Hp.
      - apply HasPrefix_inv in Hp. rewrite Hp at 1.
        apply rewrites_piece; [done|].
        destruct old as [|o old']; [done|].
        simpl in *. apply IH.
      - apply rewrites_keep. specialize (IH 0%nat limit).
        by rewrite drop_0 in IH. }
    destruct limit as [[|n]|]; [apply rewrites_refl|exact Hstep..].
Qed.

Lemma Replace_rewrites s old new (n : Z) :
  old <> [] ->
  rewrites (fun m r => m = old /\ r = new) s (Replace s old new n).
Proof.
  intros Hold. unfold Replace.
  destruct (decide (old = new)); [apply rewrites_refl|].
  destruct (n =? 0); [apply rewrites_refl|].
  destruct old as [|o old']; [done|].
  pose proof (replaceFrom_rewrites (o :: old') new
                (if n <? 0 then None else Some (Z.to_nat n)) 0 s Hold) as H.
  by rewrite drop_0 in H.
Qed.

Lemma matchHere_suffix re s gs rest :
  matchHere re s = Some (gs, rest) -> exists m, s = m ++ rest.
Proof.
  revert s gs. induction re as [|[l|cls|cls] re IH]; intros s gs; simpl.
  - intros [= _ ->]. by exists [].
  - destruct (HasPrefix s l) eqn:Hp; [|done].
    intros [m Hm]%IH. apply HasPrefix_inv in Hp.
    exists (l ++ m). by rewrite <- app_assoc, <- Hm.
  - pose proof (span_spec cls s) as (Hs & _).
    destruct (span cls s) as [[|a w] s']; [done|].
    intros [m Hm]%IH. exists ((a :: w) ++ m).
    simpl in *. by rewrite <- app_assoc, <- Hm.
  - pose proof (span_spec cls s) as (Hs & _).
    destruct (span cls s) as [[|a w] s']; [done|].
    destruct (matchHere re s') as [[gs' rest']|] eqn:Hm; [|done].
    simpl. intros [= _ ->].
    apply IH in Hm as [m Hm]. exists ((a :: w) ++ m).
    simpl in *. by rewrite <- app_assoc, <- Hm.
Qed.

Lemma submatchHere_whole re s whole gs :
  submatchHere re s = Some (whole :: gs) ->
  exists rest, s = whole ++ rest /\ matchHere re s = Some (gs, rest).
Proof.
  unfold submatchHere.
  destruct (matchHere re s) as [[gs' rest]|] eqn:Hm; [|done].
  simpl. intros [= <- ->]. exists rest. split; [|done].
  apply matchHere_suffix in Hm as [m ->].
  rewrite length_app, Nat.add_sub, take_app_length. done.
Qed.

Lemma replaceAllFrom_rewrites re repl (k : nat) s :
  (forall s gs, matchHere re s <> Some (gs, s)) ->
  rewrites (replacedBy re repl) (drop k s) (replaceAllFrom re repl k s).
Proof.
  intros Hne. revert k. induction s as [|c s IH]; intros k.
  - rewrite drop_nil. destruct k; constructor.
  - destruct k as [|k]; [|apply IH].
    rewrite drop_0. cbn [replaceAllFrom].
    assert (rewrites (replacedBy re repl) (c :: s)
              (c :: replaceAllFrom re repl 0 s)) as Hkeep.
    { apply rewrites_keep. specialize (IH 0%nat). by rewrite drop_0 in IH. }
    destruct (submatchHere re (c :: s)) as [[|whole gs]|] eqn:Hw;
      [exact Hkeep| |exact Hkeep].
    apply submatchHere_whole in Hw as (rest & Hs & Hm).
    destruct whole as [|w whole'].
    { simpl in Hs. subst rest. by destruct (Hne _ _ Hm). }
    rewrite Hs. apply rewrites_piece.
    + split; [done|]. exists gs, rest. by rewrite <- Hs.
    + simpl in Hs. injection Hs as -> Hs. subst s.
      specialize (IH (length whole')). by rewrite drop_app_length in IH.
Qed.

End Scans.

(** ** The shape of a matched clause *)

Section Inversion.

Implicit Types (re : list node) (cls : ascii -> bool) (s w lit : gostring).

Lemma matchHere_Lit_inv lit re s res :
  matchHere (Lit lit :: re) s = Some res ->
  exists s', s = lit ++ s' /\ matchHere re s' = Some res.
Proof.
  simpl. destruct (HasPrefix s lit) eqn:Hp; [|done].
  intros Hm. apply HasPrefix_inv in Hp. by eexists.
Qed.

Lemma matchHere_Plus_inv cls re s res :
  matchHere (Plus cls :: re) s = Some res ->
  exists w s', s = w ++ s' /\ w <> [] /\ forallb cls w = true
               /\ matchHere re s' = Some res.
Proof.
  simpl. pose proof (span_spec cls s) as (Hs & Hw & _).
  destruct (span cls s) as [[|a w] s']; [done|].
  intros Hm. by exists (a :: w), s'.
Qed.

Lemma matchHere_Group_inv cls re s gs rest :
  matchHere (Group cls :: re) s = Some (gs, rest) ->
  exists w s' gs', s = w ++ s' /\ w <> [] /\ forallb cls w = true
                   /\ matchHere re s' = Some (gs', rest) /\ gs = w :: gs'.
Proof.
  simpl. pose proof (span_spec cls s) as (Hs & Hw & _).
  destruct (span cls s) as [[|a w] s']; [done|].
  destruct (matchHere re s') as [[gs' rest']|] eqn:Hm; [|done].
  simpl. intros [= <- <-]. by exists (a :: w), s', gs'.
Qed.

End Inversion.

(** ** The scan and the language of a pattern *)

Section Engine.

Implicit Types (re : list node) (cls : ascii -> bool) (s m w rest : gostring).

Lemma matchHere_sound re s gs rest :
  matchHere re s = Some (gs, rest) -> exists m, s = m ++ rest /\ matches re m gs.
Proof.
  revert s gs. induction re as [|[l|cls|cls] re IH]; intros s gs H.
  - simpl in H. injection H as <- <-. exists []. split; [done|constructor].
  - apply matchHere_Lit_inv in H as (s' & -> & H).
    destruct (IH _ _ H) as (m & -> & Hm). exists (l ++ m).
    split; [by rewrite <- app_assoc|by constructor].
  - apply matchHere_Plus_inv in H as (w & s' & -> & Hne & Hw & H).
    destruct (IH _ _ H) as (m & -> & Hm). exists (w ++ m).
    split; [by rewrite <- app_assoc|by constructor].
  - apply matchHere_Group_inv in H as (w & s' & gs' & -> & Hne & Hw & H & ->).
    destruct (IH _ _ H) as (m & -> & Hm). exists (w ++ m).
    split; [by rewrite <- app_assoc|by constructor].
Qed.

Lemma deterministicStep_inv cls re m gs :
  deterministicStep cls re = true -> matches re m gs ->
  exists c m', m = c :: m' /\ cls c = false.
Proof.
  unfold deterministicStep. destruct re as [|[[|c l]| |] re]; try done.
  intros Hc%negb_true_iff Hm. inversion Hm; subst. by eexists _, _.
Qed.

Lemma matchHere_complete re m gs rest :
  deterministic re = true -> matches re m gs ->
  matchHere re (m ++ rest) = Some (gs, rest).
Proof.
  intros Hdet Hm. induction Hm as [|l re m gs Hm IH|cls re w m gs Hne Hw Hm IH
                                  |cls re w m gs Hne Hw Hm IH]; simpl in Hdet.
  - done.
  - rewrite <- app_assoc, matchHere_Lit. by apply IH.
  - apply andb_true_iff in Hdet as [Hstep Hdet].
    destruct (deterministicStep_inv _ _ _ _ Hstep Hm) as (c & m' & -> & Hc).
    cbn [matchHere]. rewrite <- !app_assoc, <- app_comm_cons.
    rewrite (span_all _ _ _ _ Hw Hc). destruct w; [done|].
    rewrite app_comm_cons. by apply IH.
  - apply andb_true_iff in Hdet as [Hstep Hdet].
    destruct (deterministicStep_inv _ _ _ _ Hstep Hm) as (c & m' & -> & Hc).
    cbn [matchHere]. rewrite <- !app_assoc, <- app_comm_cons.
    rewrite (span_all _ _ _ _ Hw Hc). destruct w; [done|].
    rewrite app_comm_cons, (IH Hdet). done.
Qed.

(** At a given start a deterministic pattern matches one text at most, so
    the preferences of leftmost-first matching choose nothing. *)
Lemma matches_unique re m gs rest m' gs' rest' :
  deterministic re = true ->
  matches re m gs -> matches re m' gs' -> m ++ rest = m' ++ rest' ->
  m = m' /\ gs = gs'.
Proof.
  intros Hdet Hm Hm' Heq.
  pose proof (matchHere_complete re m gs rest Hdet Hm) as H.
  pose proof (matchHere_complete re m' gs' rest' Hdet Hm') as H'.
  rewrite Heq, H' in H. injection H as Hgs Hrest. subst.
  split; [|done]. by apply (app_inv_tail _ _ _ Heq).
Qed.

Lemma patterns_deterministic :
  deterministic betweenRegex = true /\ deterministic simpleRegex = true.
Proof. done. Qed.

End Engine.

Lemma matchHere_simpleRegex_inv (s rest : gostring) (gs : list gostring) :
  matchHere simpleRegex s = Some (gs, rest) ->
  exists w2 d1 w3 w4 d2,
    blank w2 /\ literal d1 /\ blank w3 /\ blank w4 /\ literal d2
    /\ s = untypedClause w2 d1 w3 w4 d2 ++ rest /\ gs = [d1; d2].
Proof.
  unfold simpleRegex. intros H.
  apply matchHere_Lit_inv in H as (s1 & -> & H).
  apply matchHere_Plus_inv in H as (w2 & s2 & -> & ? & ? & H).
  apply matchHere_Lit_inv in H as (s3 & -> & H).
  apply matchHere_Group_inv in H as (d1 & s4 & gs1 & -> & ? & ? & H & ->).
  apply matchHere_Lit_inv in H as (s5 & -> & H).
  apply matchHere_Plus_inv in H as (w3 & s6 & -> & ? & ? & H).
  apply matchHere_Lit_inv in H as (s7 & -> & H).
  apply matchHere_Plus_inv in H as (w4 & s8 & -> & ? & ? & H).
  apply matchHere_Lit_inv in H as (s9 & -> & H).
  apply matchHere_Group_inv in H as (d2 & s10 & gs2 & -> & ? & ? & H & ->).
  apply matchHere_Lit_inv in H as (s11 & -> & H).
  simpl in H. injection H as <- <-.
  exists w2, d1, w3, w4, d2. unfold untypedClause.
  repeat (split; [done|]). by rewrite <- !app_assoc.
Qed.

Lemma matchHere_betweenRegex_inv (s rest : gostring) (gs : list gostring) :
  matchHere betweenRegex s = Some (gs, rest) ->
  exists w1 w2 d1 w3 w4 d2,
    blank w1 /\ blank w2 /\ literal d1 /\ blank w3 /\ blank w4 /\ literal d2
    /\ s = bs "time_dt" ++ w1 ++ untypedClause w2 d1 w3 w4 d2 ++ rest
    /\ gs = [d1; d2].
Proof.
  unfold betweenRegex. intros H.
  apply matchHere_Lit_inv in H as (s1 & -> & H).
  apply matchHere_Plus_inv in H as (w1 & s2 & -> & ? & ? & H).
  apply matchHere_simpleRegex_inv
    in H as (w2 & d1 & w3 & w4 & d2 & ? & ? & ? & ? & ? & -> & ->).
  by exists w1, w2, d1, w3, w4, d2.
Qed.

Lemma castBetweenMatch_clause (w1 w2 d1 w3 w4 d2 : gostring) :
  blank w1 -> blank w2 -> literal d1 -> blank w3 -> blank w4 -> literal d2 ->
  castBetweenMatch (bs "time_dt" ++ w1 ++ untypedClause w2 d1 w3 w4 d2)
  = typedClause d1 d2.
Proof.
  intros. unfold castBetweenMatch.
  pose proof (matchHere_betweenRegex w1 w2 d1 w3 w4 d2 []) as Hm.
  rewrite app_nil_r in Hm.
  rewrite (FindStringSubmatch_here betweenRegex _
             [bs "time_dt" ++ w1 ++ untypedClause w2 d1 w3 w4 d2; d1; d2]);
    [done|].
  unfold submatchHere. rewrite Hm by done.
  cbn [mbind option_bind length]. by rewrite Nat.sub_0_r, firstn_all.
Qed.

Lemma betweenRegex_consumes (s : gostring) (gs : list gostring) :
  matchHere betweenRegex s <> Some (gs, s).
Proof.
  intros H. apply matchHere_suffix in H as Hs. destruct Hs as [m Hm].
  apply matchHere_betweenRegex_inv in H
    as (w1 & w2 & d1 & w3 & w4 & d2 & _ & _ & _ & _ & _ & _ & Hs & _).
  apply (f_equal (@length ascii)) in Hs.
  rewrite !length_app in Hs. simpl in Hs. lia.
Qed.

Lemma castBetween_rewrites (query : gostring) :
  rewrites castPiece query (castBetween query).
Proof.
  unfold castBetween. destruct (MatchString betweenRegex query);
    [|apply rewrites_refl].
  pose proof (replaceAllFrom_rewrites betweenRegex castBetweenMatch 0 query
                betweenRegex_consumes) as Hrw.
  rewrite drop_0 in Hrw. unfold ReplaceAllStringFunc.
  induction Hrw as [|c s t _ IH|m r s t [-> (gs & rest & Hm)] _ IH];
    [constructor|by constructor|].
  apply rewrites_piece; [|done].
  apply matchHere_betweenRegex_inv in Hm
    as (w1 & w2 & d1 & w3 & w4 & d2 & ? & ? & ? & ? & ? & ? & Hs & _).
  assert (m = bs "time_dt" ++ w1 ++ untypedClause w2 d1 w3 w4 d2) as ->.
  { apply (app_inv_tail rest). by rewrite Hs, <- !app_assoc. }
  exists w1, w2, d1, w3, w4, d2. repeat (split; [done|]).
  by apply castBetweenMatch_clause.
Qed.

(** ** Year bounds as rewriting *)

Lemma rewrites_mono (ok ok' : gostring -> gostring -> Prop) (s t : gostring) :
  (forall m r, ok m r -> ok' m r) -> rewrites ok s t -> rewrites ok' s t.
Proof. intros Hok. induction 1; constructor; auto. Qed.

Lemma expandYear_invariant (inv : gostring -> Prop) (query : gostring)
    (match_ : list gostring) :
  (forall s t, rewrites yearPiece s t -> inv s -> inv t) ->
  inv query -> inv (expandYear query match_).
Proof.
  intros Hinv Hq. unfold expandYear.
  destruct match_ as [|whole [|date1 [|date2 [|]]]]; try done.
  set (q1 := if (length date1 =? 4)%nat && isNumeric date1 then _ else query).
  assert (inv q1) as Hq1.
  { subst q1. destruct (length date1 =? 4)%nat; [|done]. simpl.
    destruct (isNumeric date1) eqn:Hnum; [|done].
    eapply Hinv; [|exact Hq].
    eapply rewrites_mono; [|by apply Replace_rewrites].
    intros m r [-> ->]. exists date1, (bs "-01-01 00:00:00"). auto. }
  clearbody q1. destruct (length date2 =? 4)%nat; [|done]. simpl.
  destruct (isNumeric date2) eqn:Hnum; [|done].
  eapply Hinv; [|exact Hq1].
  eapply rewrites_mono; [|by apply Replace_rewrites].
  intros m r [-> ->]. exists date2, (bs "-12-31 23:59:59"). auto.
Qed.

Lemma expandYears_invariant (inv : gostring -> Prop) (query : gostring) :
  (forall s t, rewrites yearPiece s t -> inv s -> inv t) ->
  inv query -> inv (expandYears query).
Proof.
  intros Hinv. unfold expandYears.
  generalize (FindAllStringSubmatch simpleRegex query) as matches.
  intros matches. revert query.
  induction matches as [|m matches IH]; intros query Hq; simpl; [done|].
  apply IH. by apply expandYear_invariant.
Qed.

(** ** The rewritten query is trimmed *)

Lemma solidEnds_intro (c d : ascii) (m : gostring) :
  solid c = true -> solid d = true -> solidEnds (c :: m ++ [d]).
Proof.
  intros Hc Hd. split.
  - by exists c, (m ++ [d]).
  - by exists d, (c :: m).
Qed.

Lemma castPiece_solidEnds (m r : gostring) :
  castPiece m r -> solidEnds m /\ solidEnds r.
Proof.
  intros (w1 & w2 & d1 & w3 & w4 & d2 & _ & _ & _ & _ & _ & _ & -> & ->).
  split.
  - unfold untypedClause.
    replace (bs "time_dt" ++ w1 ++ bs "BETWEEN" ++ w2 ++ bs "'" ++ d1 ++ bs "'"
             ++ w3 ++ bs "AND" ++ w4 ++ bs "'" ++ d2 ++ bs "'")
      with ("t"%char :: (bs "ime_dt" ++ w1 ++ bs "BETWEEN" ++ w2 ++ bs "'" ++ d1
                         ++ bs "'" ++ w3 ++ bs "AND" ++ w4 ++ bs "'" ++ d2)
                        ++ ["'"%char])
      by (by rewrite <- !app_assoc).
    by apply solidEnds_intro.
  - unfold typedClause.
    replace (bs "time_dt BETWEEN TIMESTAMP '" ++ jstToUtc d1
             ++ bs "' AND TIMESTAMP '" ++ jstToUtc d2 ++ bs "'")
      with ("t"%char :: (bs "ime_dt BETWEEN TIMESTAMP '" ++ jstToUtc d1
                         ++ bs "' AND TIMESTAMP '" ++ jstToUtc d2)
                        ++ ["'"%char])
      by (by rewrite <- !app_assoc).
    by apply solidEnds_intro.
Qed.

Lemma yearPiece_solidEnds (m r : gostring) :
  yearPiece m r -> solidEnds m /\ solidEnds r.
Proof.
  intros (date & rest & _ & _ & -> & ->). split.
  - by apply (solidEnds_intro "'" "'" date).
  - replace (bs "TIMESTAMP '" ++ (date ++ rest) ++ bs "'")
      with ("T"%char :: (bs "IMESTAMP '" ++ date ++ rest) ++ ["'"%char])
      by (by rewrite <- !app_assoc).
    by apply solidEnds_intro.
Qed.

Lemma qualifyTables_trimmed (query : gostring) :
  trimmed query -> trimmed (qualifyTables query).
Proof.
  intros Hq. unfold qualifyTables.
  destruct (negb (Contains query glueDb)); [|done].
  set (q1 := if Contains query tableAp && negb (Contains query glueDbAp)
             then _ else query).
  assert (trimmed q1) as Hq1.
  { subst q1. destruct (_ && _); [|done].
    eapply trimmed_rewrites; [|by apply Replace_rewrites|exact Hq].
    intros m r [-> ->]. split.
    - by apply (solidEnds_intro "a" "0" (bs "mazon_security_lake_table_ap_northeast_1_waf_2_")).
    - by apply (solidEnds_intro "a" "0" (bs "mazon_security_lake_glue_db_ap_northeast_1.amazon_security_lake_table_ap_northeast_1_waf_2_")). }
  clearbody q1. destruct (_ && _); [|done].
  eapply trimmed_rewrites; [|by apply Replace_rewrites|exact Hq1].
  intros m r [-> ->]. split.
  - by apply (solidEnds_intro "a" "0" (bs "mazon_security_lake_table_us_east_1_waf_2_")).
  - by apply (solidEnds_intro "a" "0" (bs "mazon_security_lake_glue_db_us_east_1.amazon_security_lake_table_us_east_1_waf_2_")).
Qed.

Lemma preprocessSqlQuery_trimmed (query : gostring) :
  trimmed (preprocessSqlQuery query).
Proof.
  unfold preprocessSqlQuery.
  apply expandYears_invariant.
  { intros s t Hrw. by apply (trimmed_rewrites yearPiece s t yearPiece_solidEnds). }
  eapply (trimmed_rewrites castPiece);
    [apply castPiece_solidEnds|apply castBetween_rewrites|].
  apply qualifyTables_trimmed, TrimSpace_trimmed.
Qed.

(** ** The names in a query *)

Section Runs.

Implicit Types (s u n cur p r : gostring) (c : ascii).

Lemma letterByte_wordByte c : letterByte c = true -> wordByte c = true.
Proof.
  unfold letterByte, wordByte.
  intros [->| ->]%orb_true_iff; by rewrite ?orb_true_r.
Qed.

Lemma runsFrom_word cur u s :
  forallb wordByte u = true -> runsFrom cur (u ++ s) = runsFrom (cur ++ u) s.
Proof.
  revert cur. induction u as [|x u IH]; intros cur Hu; simpl.
  - by rewrite app_nil_r.
  - simpl in Hu. apply andb_true_iff in Hu as [-> Hu].
    rewrite IH by done. by rewrite <- app_assoc.
Qed.

Lemma runsFrom_break cur u c s :
  wordByte c = false ->
  runsFrom cur (u ++ c :: s) = runsFrom cur (u ++ [c]) ++ names s.
Proof.
  intros Hc. revert cur. induction u as [|x u IH]; intros cur; simpl.
  - rewrite Hc. unfold names. by rewrite <- app_assoc.
  - destruct (wordByte x); [apply IH|].
    by rewrite IH, <- app_assoc.
Qed.

Lemma noLetters_app n1 n2 :
  noLetters (n1 ++ n2) = noLetters n1 && noLetters n2.
Proof. apply forallb_app. Qed.

Lemma emit_noLetters cur : noLetters cur = true -> emit cur = [].
Proof.
  unfold emit, noLetters. intros H.
  destruct (existsb letterByte cur) eqn:He; [|done].
  apply existsb_exists in He as (c & Hin & Hc).
  rewrite forallb_forall in H. specialize (H c Hin). by rewrite Hc in H.
Qed.

Lemma runsFrom_noLetters cur n c :
  noLetters cur = true -> noLetters n = true -> wordByte c = false ->
  runsFrom cur (n ++ [c]) = [].
Proof.
  intros Hcur Hn Hc. revert cur Hcur.
  induction n as [|x n IH]; intros cur Hcur; simpl.
  - rewrite Hc. simpl. by rewrite (emit_noLetters cur Hcur).
  - simpl in Hn. apply andb_true_iff in Hn as [Hx Hn].
    destruct (wordByte x).
    + apply IH; [done|]. rewrite noLetters_app, Hcur. simpl. by rewrite Hx.
    + rewrite (emit_noLetters cur Hcur). by apply IH.
Qed.

Lemma rewrites_runs (ok : gostring -> gostring -> Prop) s t :
  (forall m r, ok m r -> sameRuns m r) ->
  rewrites ok s t -> forall cur, runsFrom cur s = runsFrom cur t.
Proof.
  intros Hok. induction 1 as [|c s t _ IH|m r s t Hmr _ IH]; intros cur.
  - done.
  - simpl. destruct (wordByte c); [apply IH|]. by rewrite (IH []).
  - apply (Hok m r Hmr). apply IH.
Qed.

Lemma runsFrom_emitted cur s :
  existsb letterByte cur = true -> exists u, In (cur ++ u) (runsFrom cur s).
Proof.
  revert cur. induction s as [|c s IH]; intros cur Hcur; simpl.
  - exists []. unfold emit. rewrite Hcur, app_nil_r. by left.
  - destruct (wordByte c).
    + destruct (IH (cur ++ [c])) as [u Hu].
      { rewrite existsb_app, Hcur. done. }
      exists (c :: u). by rewrite <- app_assoc in Hu.
    + exists []. unfold emit. rewrite Hcur, app_nil_r. by left.
Qed.

Lemma Contains_runs cur a p b :
  wordy p = true ->
  exists r, In r (runsFrom cur (a ++ p ++ b)) /\ Contains r p = true.
Proof.
  intros [Hword Hletter]%andb_true_iff. revert cur.
  induction a as [|x a IH]; intros cur.
  - simpl. rewrite (runsFrom_word _ _ _ Hword).
    destruct (runsFrom_emitted (cur ++ p) b) as [u Hu].
    { rewrite existsb_app, Hletter. apply orb_true_r. }
    exists ((cur ++ p) ++ u). split; [done|].
    apply Contains_spec. exists cur, u. by rewrite <- !app_assoc.
  - simpl. destruct (wordByte x); [apply IH|].
    destruct (IH []) as (r & Hin & Hr). exists r. split; [|done].
    apply in_or_app. by right.
Qed.

Lemma runs_Contains cur s r :
  In r (runsFrom cur s) -> Contains (cur ++ s) r = true.
Proof.
  revert cur. induction s as [|c s IH]; intros cur; simpl.
  - unfold emit. destruct (existsb letterByte cur); [|done].
    intros [<-|[]]. rewrite app_nil_r. apply Contains_HasPrefix.
    rewrite <- (app_nil_r cur) at 1. apply HasPrefix_app.
  - destruct (wordByte c).
    + intros Hin%IH. by rewrite <- app_assoc in Hin.
    + intros [Hin|Hin]%in_app_or.
      * unfold emit in Hin. destruct (existsb letterByte cur); [|done].
        destruct Hin as [<-|[]]. apply Contains_HasPrefix, HasPrefix_app.
      * apply IH in Hin. simpl in Hin.
        apply Contains_app_r, (Contains_app_r _ _ [c]), Hin.
Qed.

Lemma Contains_trans s r p :
  Contains s r = true -> Contains r p = true -> Contains s p = true.
Proof.
  rewrite !Contains_spec. intros (a & b & ->) (a' & b' & ->).
  exists (a ++ a'), (b' ++ b). by rewrite <- !app_assoc.
Qed.

Lemma names_Contains_le s t p :
  wordy p = true -> names s = names t ->
  Contains s p = true -> Contains t p = true.
Proof.
  intros Hp Hnames (a & b & ->)%Contains_spec.
  destruct (Contains_runs [] a p b Hp) as (r & Hin & Hr).
  fold (names (a ++ p ++ b)) in Hin. rewrite Hnames in Hin.
  apply runs_Contains in Hin. simpl in Hin.
  by apply (Contains_trans t r p).
Qed.

Lemma names_Contains s t p :
  wordy p = true -> names s = names t -> Contains s p = Contains t p.
Proof.
  intros Hp Hnames.
  destruct (Contains s p) eqn:Hs, (Contains t p) eqn:Ht; try done.
  - by rewrite (names_Contains_le s t p Hp Hnames Hs) in Ht.
  - by rewrite (names_Contains_le t s p Hp (eq_sym Hnames) Ht) in Hs.
Qed.

End Runs.

(** ** The bytes of a timestamp *)

Section DateBytes.

Import GoTime.

Implicit Types (s rest value : gostring) (c : ascii).

Lemma dateByte_noLetter c : dateByte c = true -> letterByte c = false.
Proof. destruct c as [[] [] [] [] [] [] [] []]; by vm_compute. Qed.

Lemma perlSpace_noLetter c : perlSpace c = true -> letterByte c = false.
Proof. destruct c as [[] [] [] [] [] [] [] []]; by vm_compute. Qed.

Lemma perlSpace_noWord c : perlSpace c = true -> wordByte c = false.
Proof. destruct c as [[] [] [] [] [] [] [] []]; by vm_compute. Qed.

Lemma isDigit_dateByte c : isDigit c = true -> dateByte c = true.
Proof. unfold dateByte. by intros ->. Qed.

Lemma dateBytes_noLetters s : forallb dateByte s = true -> noLetters s = true.
Proof.
  unfold noLetters. rewrite !forallb_forall. intros H c Hin.
  by rewrite (dateByte_noLetter c (H c Hin)).
Qed.

Lemma blank_noLetters s : forallb perlSpace s = true -> noLetters s = true.
Proof.
  unfold noLetters. rewrite !forallb_forall. intros H c Hin.
  by rewrite (perlSpace_noLetter c (H c Hin)).
Qed.

Lemma eats_refl s : eats s s.
Proof. by exists []. Qed.

Lemma eats_trans s1 s2 s3 : eats s1 s2 -> eats s2 s3 -> eats s1 s3.
Proof.
  intros (p1 & -> & H1) (p2 & -> & H2). exists (p1 ++ p2).
  by rewrite <- app_assoc, forallb_app, H1, H2.
Qed.

Lemma eats_cons c s rest : dateByte c = true -> eats s rest -> eats (c :: s) rest.
Proof.
  intros Hc (p & -> & Hp). exists (c :: p). simpl. by rewrite Hc, Hp.
Qed.

Lemma getyear_eats s year rest : getyear s = Some (year, rest) -> eats s rest.
Proof.
  unfold getyear. destruct s as [|c0 [|c1 [|c2 [|c3 s]]]]; try done.
  destruct (forallb isDigit [c0; c1; c2; c3]) eqn:Hd; [|done].
  intros [= _ <-]. exists [c0; c1; c2; c3]. split; [done|].
  simpl in *. repeat (apply andb_true_iff in Hd as [?%isDigit_dateByte Hd]).
  by repeat (apply andb_true_iff; split).
Qed.

Lemma getnum_eats s fixed n rest :
  getnum s fixed = Some (n, rest) -> eats s rest.
Proof.
  unfold getnum. destruct s as [|c0 s]; [done|].
  destruct (isDigit c0) eqn:H0; [|done].
  apply isDigit_dateByte in H0.
  destruct s as [|c1 s].
  - destruct fixed; [done|]. intros [= _ <-].
    apply eats_cons; [done|apply eats_refl].
  - destruct (isDigit c1) eqn:H1.
    + apply isDigit_dateByte in H1. intros [= _ <-].
      do 2 (apply eats_cons; [done|]). apply eats_refl.
    + destruct fixed; [done|]. intros [= _ <-].
      apply eats_cons; [done|apply eats_refl].
Qed.

Lemma skipByte_eats c s rest :
  dateByte c = true -> skipByte c s = Some rest -> eats s rest.
Proof.
  intros Hc. unfold skipByte. destruct s as [|c' s]; [done|].
  destruct (Ascii.eqb c c') eqn:He; [|done].
  apply Ascii.eqb_eq in He as <-. intros [= <-].
  apply eats_cons; [done|apply eats_refl].
Qed.

Lemma cutspace_eats s : eats s (cutspace s).
Proof.
  induction s as [|c s IH]; simpl; [apply eats_refl|].
  destruct (Ascii.eqb c " ") eqn:He; [|apply eats_refl].
  apply Ascii.eqb_eq in He as ->. by apply eats_cons.
Qed.

Lemma skipSpace_eats s rest : skipSpace s = Some rest -> eats s rest.
Proof.
  unfold skipSpace. destruct s as [|c s]; [intros [= <-]; apply eats_refl|].
  destruct (Ascii.eqb c " "); [|done]. intros [= <-]. apply cutspace_eats.
Qed.

Lemma span_eats s : eats s (span isDigit s).2.
Proof.
  induction s as [|c s IH]; simpl; [apply eats_refl|].
  destruct (isDigit c) eqn:Hc; [|apply eats_refl].
  destruct (span isDigit s) as [a b]. simpl in *.
  apply eats_cons; [by apply isDigit_dateByte|done].
Qed.

Lemma skipFraction_eats s : eats s (skipFraction s).
Proof.
  unfold skipFraction. destruct s as [|c0 [|c1 s]]; try apply eats_refl.
  destruct (commaOrPeriod c0 && isDigit c1) eqn:H; [|apply eats_refl].
  apply andb_true_iff in H as [H0 H1].
  apply eats_cons.
  { unfold commaOrPeriod in H0. unfold dateByte.
    apply orb_true_iff in H0 as [-> | ->]; by rewrite ?orb_true_r. }
  apply eats_cons; [by apply isDigit_dateByte|]. apply span_eats.
Qed.

Lemma Parse_dateBytes value t :
  Parse value = Some t -> forallb dateByte value = true.
Proof.
  unfold Parse. intros H.
  assert (eats value []) as (pre & -> & Hpre);
    [|by rewrite app_nil_r].
  repeat match type of H with
  | (match ?x with _ => _ end) = _ =>
      let E := fresh "E" in destruct x eqn:E; try discriminate H
  | (mbind _ ?x) = _ =>
      let E := fresh "E" in destruct x eqn:E; try discriminate H;
      cbn [mbind option_bind] in H
  | (let '(_, _) := ?x in _) = _ => destruct x
  | (if ?b then _ else _) = _ => destruct b; try discriminate H
  end.
  repeat match goal with
  | E : getyear _ = Some _ |- _ => apply getyear_eats in E
  | E : getnum _ _ = Some _ |- _ => apply getnum_eats in E
  | E : skipByte _ _ = Some _ |- _ => apply skipByte_eats in E; [|done]
  | E : skipSpace _ = Some _ |- _ => apply skipSpace_eats in E
  | E : skipFraction ?s = [] |- _ =>
      let F := fresh "F" in
      pose proof (skipFraction_eats s) as F; rewrite E in F; clear E
  end.
  repeat (eapply eats_trans; [eassumption|]). apply eats_refl.
Qed.

Lemma digitChar_isDigit (n : Z) : isDigit (digitChar n) = true.
Proof.
  unfold digitChar.
  pose proof (Z.mod_pos_bound n 10 ltac:(lia)) as Hk.
  set (k := n mod 10) in *.
  assert (k = 0 \/ k = 1 \/ k = 2 \/ k = 3 \/ k = 4 \/ k = 5 \/ k = 6
          \/ k = 7 \/ k = 8 \/ k = 9) as Hcases by lia.
  repeat destruct Hcases as [->|Hcases]; try done. by rewrite Hcases.
Qed.

Lemma decimalFuel_dateBytes (fuel : nat) (n : Z) :
  forallb dateByte (decimalFuel fuel n) = true.
Proof.
  revert n. induction fuel as [|fuel IH]; intros n; simpl; [done|].
  destruct (n <? 10); simpl.
  - by rewrite (isDigit_dateByte _ (digitChar_isDigit n)).
  - rewrite forallb_app, IH. simpl.
    by rewrite (isDigit_dateByte _ (digitChar_isDigit n)).
Qed.

Lemma appendInt_dateBytes (x : Z) (width : nat) :
  forallb dateByte (appendInt x width) = true.
Proof.
  unfold appendInt. rewrite !forallb_app, decimalFuel_dateBytes.
  assert (forallb dateByte (repeat "0"%char
            (width - length (decimalFuel 20 (Z.abs x)))) = true) as ->.
  { induction (width - _)%nat; simpl; done. }
  by destruct (x <? 0).
Qed.

Lemma Format_dateBytes (t : Time) : forallb dateByte (Format t) = true.
Proof.
  unfold Format. destruct (civilFromDays _) as [[year month] day].
  by rewrite !forallb_app, !appendInt_dateBytes.
Qed.

Lemma jstToUtc_runs (date : gostring) :
  runsFrom [] (jstToUtc date ++ bs "'") = runsFrom [] (date ++ bs "'").
Proof.
  unfold jstToUtc. destruct (_ && _); [|done].
  destruct (Parse date) as [t|] eqn:Hp; [|done].
  change (bs "'") with ["'"%char].
  rewrite !runsFrom_noLetters; try done.
  - by apply dateBytes_noLetters, (Parse_dateBytes date t).
  - apply dateBytes_noLetters, Format_dateBytes.
Qed.

Lemma atoiOk_noLetters s : atoiOk s = true -> noLetters s = true.
Proof.
  assert (forall ds, forallb isDigit ds = true -> noLetters ds = true) as Hds.
  { intros ds Hd. apply dateBytes_noLetters.
    rewrite forallb_forall in *. intros c Hc.
    by apply isDigit_dateByte, Hd. }
  unfold atoiOk. destruct s as [|c s]; [done|].
  destruct (Ascii.eqb c "-") eqn:Hm.
  { apply Ascii.eqb_eq in Hm as ->. destruct s; [done|].
    intros [Hd _]%andb_true_iff. simpl. by rewrite <- (Hds _ Hd). }
  destruct (Ascii.eqb c "+") eqn:Hp.
  { apply Ascii.eqb_eq in Hp as ->. destruct s; [done|].
    intros [Hd _]%andb_true_iff. simpl. by rewrite <- (Hds _ Hd). }
  intros [Hd _]%andb_true_iff. by apply Hds.
Qed.

End DateBytes.

(** ** The pieces leave the names alone *)

Section Pieces.

Implicit Types (s u cur rest : gostring).

Lemma runsFrom_quote cur u s :
  runsFrom cur (u ++ bs "'" ++ s) = runsFrom cur (u ++ bs "'") ++ names s.
Proof. by apply (runsFrom_break cur u "'" s). Qed.

Lemma runsFrom_space cur c n :
  wordByte c = false -> noLetters n = true ->
  runsFrom cur (c :: n ++ bs "'") = emit cur.
Proof.
  intros Hc Hn. simpl. rewrite Hc.
  rewrite (runsFrom_noLetters [] n "'") by done. apply app_nil_r.
Qed.

Lemma runsFrom_quoted cur a0 d1 a1 d2 rest :
  runsFrom cur (a0 ++ bs "'" ++ d1 ++ bs "'" ++ a1 ++ bs "'" ++ d2 ++ bs "'"
                ++ rest)
  = runsFrom cur (a0 ++ bs "'") ++ runsFrom [] (d1 ++ bs "'")
    ++ runsFrom [] (a1 ++ bs "'") ++ runsFrom [] (d2 ++ bs "'") ++ names rest.
Proof.
  rewrite runsFrom_quote. unfold names at 1.
  rewrite runsFrom_quote. unfold names at 1.
  rewrite runsFrom_quote. unfold names at 1.
  by rewrite runsFrom_quote.
Qed.

Lemma castPiece_sameRuns (m r : gostring) : castPiece m r -> sameRuns m r.
Proof.
  intros (w1 & w2 & d1 & w3 & w4 & d2
          & [Hne1 Hw1] & [_ Hw2] & _ & [Hne3 Hw3] & [_ Hw4] & _ & -> & ->).
  intros cur rest rest' Hnames.
  replace ((bs "time_dt" ++ w1 ++ untypedClause w2 d1 w3 w4 d2) ++ rest)
    with ((bs "time_dt" ++ w1 ++ bs "BETWEEN" ++ w2) ++ bs "'" ++ d1 ++ bs "'"
          ++ (w3 ++ bs "AND" ++ w4) ++ bs "'" ++ d2 ++ bs "'" ++ rest)
    by (unfold untypedClause; by rewrite <- !app_assoc).
  replace (typedClause d1 d2 ++ rest')
    with (bs "time_dt BETWEEN TIMESTAMP " ++ bs "'" ++ jstToUtc d1 ++ bs "'"
          ++ bs " AND TIMESTAMP " ++ bs "'" ++ jstToUtc d2 ++ bs "'" ++ rest')
    by (unfold typedClause; by rewrite <- !app_assoc).
  rewrite !runsFrom_quoted, !jstToUtc_runs, Hnames.
  f_equal; [|f_equal; f_equal].
  - rewrite <- !app_assoc.
    rewrite (runsFrom_word cur (bs "time_dt")) by done.
    change (bs "time_dt BETWEEN TIMESTAMP " ++ bs "'")
      with (bs "time_dt" ++ " "%char :: bs "BETWEEN TIMESTAMP " ++ bs "'").
    rewrite (runsFrom_word cur (bs "time_dt")) by done.
    rewrite (runsFrom_space _ " " (bs "BETWEEN TIMESTAMP ")) by done.
    destruct w1 as [|x w1]; [done|].
    simpl in Hw1. apply andb_true_iff in Hw1 as [Hx Hw1].
    replace ((x :: w1) ++ bs "BETWEEN" ++ w2 ++ bs "'")
      with (x :: (w1 ++ bs "BETWEEN" ++ w2) ++ bs "'")
      by (by rewrite <- !app_assoc).
    apply runsFrom_space; [by apply perlSpace_noWord|].
    rewrite !noLetters_app, (blank_noLetters _ Hw1), (blank_noLetters _ Hw2).
    done.
  - change (bs " AND TIMESTAMP " ++ bs "'")
      with (" "%char :: bs "AND TIMESTAMP " ++ bs "'").
    rewrite (runsFrom_space _ " " (bs "AND TIMESTAMP ")) by done.
    destruct w3 as [|x w3]; [done|].
    simpl in Hw3. apply andb_true_iff in Hw3 as [Hx Hw3].
    replace (((x :: w3) ++ bs "AND" ++ w4) ++ bs "'")
      with (x :: (w3 ++ bs "AND" ++ w4) ++ bs "'")
      by (by rewrite <- !app_assoc).
    apply runsFrom_space; [by apply perlSpace_noWord|].
    rewrite !noLetters_app, (blank_noLetters _ Hw3), (blank_noLetters _ Hw4).
    done.
Qed.

Lemma yearPiece_sameRuns (m r : gostring) : yearPiece m r -> sameRuns m r.
Proof.
  intros (date & tail_ & Hnum%atoiOk_noLetters & Htail & -> & ->).
  intros cur rest rest' Hnames.
  replace ((bs "'" ++ date ++ bs "'") ++ rest)
    with (("'"%char :: date) ++ bs "'" ++ rest)
    by (by rewrite <- !app_assoc).
  replace ((bs "TIMESTAMP '" ++ (date ++ tail_) ++ bs "'") ++ rest')
    with (("T"%char :: bs "IMESTAMP '" ++ date ++ tail_) ++ bs "'" ++ rest')
    by (simpl; by rewrite <- !app_assoc).
  rewrite !runsFrom_quote, Hnames. f_equal.
  rewrite <- !app_comm_cons.
  rewrite !runsFrom_space; try done.
  rewrite !noLetters_app, Hnum. by destruct Htail as [-> | ->].
Qed.

End Pieces.

(** ** The rewritten query is qualified *)

Lemma qualified_qualifyTables (query : gostring) :
  qualified query -> qualifyTables query = query.
Proof.
  unfold qualifyTables. intros [-> |[Hap Hus]]; [done|].
  destruct (negb _); [|done]. rewrite Hap. simpl. by rewrite Hus.
Qed.

Lemma replaceFrom_Contains (old new : gostring) (s : gostring) :
  old <> [] -> Contains s old = true ->
  Contains (replaceFrom old new None 0 s) new = true.
Proof.
  intros Hold. induction s as [|c s IH].
  - simpl. rewrite orb_false_r. by destruct old.
  - intros Hs. cbn [replaceFrom].
    destruct (HasPrefix (c :: s) old) eqn:Hp.
    + apply Contains_HasPrefix, HasPrefix_app.
    + simpl in Hs. rewrite Hp in Hs. simpl in Hs.
      apply (Contains_app_r _ _ [c]), IH, Hs.
Qed.

Lemma Replace_all_Contains (s old new : gostring) :
  old <> [] -> old <> new -> Contains s old = true ->
  Contains (Replace s old new (-1)) new = true.
Proof.
  intros Hold Hne Hs. unfold Replace.
  destruct (decide (old = new)); [done|]. simpl.
  destruct old; [done|]. by apply replaceFrom_Contains.
Qed.

Lemma qualifyTables_qualified (query : gostring) :
  qualified (qualifyTables query).
Proof.
  unfold qualifyTables, qualified.
  destruct (Contains query glueDb) eqn:Hdb; simpl; [by left|].
  destruct (Contains query tableAp && negb (Contains query glueDbAp)) eqn:Hap.
  - apply andb_true_iff in Hap as [Hap _].
    pose proof (Replace_all_Contains query tableAp (glueDbAp ++ bs "." ++ tableAp)
                  ltac:(done) ltac:(done) Hap) as Hq.
    set (q1 := Replace query tableAp _ (-1)) in *. clearbody q1.
    assert (Contains q1 glueDb = true) as Hq1.
    { apply (Contains_trans _ _ _ Hq). by vm_compute. }
    destruct (Contains q1 tableUs && negb (Contains q1 glueDbUs)) eqn:Hus;
      [|by left].
    apply andb_true_iff in Hus as [Hus _]. left.
    apply (Contains_trans _ (glueDbUs ++ bs "." ++ tableUs)); [|by vm_compute].
    by apply Replace_all_Contains.
  - assert (Contains query tableAp = false) as Hap'.
    { apply andb_false_iff in Hap as [Hap|Hap]; [done|].
      apply negb_false_iff in Hap.
      rewrite (Contains_trans query glueDbAp glueDb Hap) in Hdb; [done|].
      by vm_compute. }
    destruct (Contains query tableUs && negb (Contains query glueDbUs)) eqn:Hus.
    + apply andb_true_iff in Hus as [Hus _]. left.
      apply (Contains_trans _ (glueDbUs ++ bs "." ++ tableUs)); [|by vm_compute].
      by apply Replace_all_Contains.
    + right. split; [done|].
      apply andb_false_iff in Hus as [Hus|Hus]; [done|].
      apply negb_false_iff in Hus.
      rewrite (Contains_trans query glueDbUs glueDb Hus) in Hdb; [done|].
      by vm_compute.
Qed.

Lemma qualified_names (s t : gostring) :
  names s = names t -> qualified s -> qualified t.
Proof.
  intros Hnames. unfold qualified.
  by rewrite (names_Contains s t glueDb), (names_Contains s t tableAp),
    (names_Contains s t tableUs).
Qed.

Lemma preprocessSqlQuery_qualified (query : gostring) :
  qualified (preprocessSqlQuery query).
Proof.
  unfold preprocessSqlQuery.
  apply expandYears_invariant.
  { intros s t Hrw. apply qualified_names.
    apply (rewrites_runs yearPiece s t yearPiece_sameRuns Hrw). }
  eapply qualified_names; [|apply qualifyTables_qualified].
  apply (rewrites_runs castPiece _ _ castPiece_sameRuns
           (castBetween_rewrites _)).
Qed.

(** ** preprocessSqlQuery: a second pass *)

Lemma expandYear_done (query : gostring) (match_ : list gostring) :
  yearsExpanded match_ = true -> expandYear query match_ = query.
Proof.
  unfold expandYear, yearsExpanded, yearLike.
  destruct match_ as [|whole [|date1 [|date2 [|]]]]; try done.
  intros [H1 H2]%andb_true_iff.
  apply negb_true_iff in H1. apply negb_true_iff in H2. by rewrite H1, H2.
Qed.

Lemma fold_expandYear_done (query : gostring) (matches : list (list gostring)) :
  forallb yearsExpanded matches = true ->
  fold_left expandYear matches query = query.
Proof.
  induction matches as [|m matches IH]; simpl; [done|].
  intros [Hm Hrest]%andb_true_iff. by rewrite (expandYear_done _ _ Hm), IH.
Qed.

Lemma fullyTyped_fixed (query : gostring) :
  trimmed query -> qualified query -> fullyTyped query = true ->
  preprocessSqlQuery query = query.
Proof.
  intros Htrim Hqual [Hcast Hyears]%andb_true_iff.
  apply negb_true_iff in Hcast.
  unfold preprocessSqlQuery.
  rewrite (trimmed_TrimSpace _ Htrim), (qualified_qualifyTables _ Hqual).
  unfold castBetween. rewrite Hcast.
  unfold expandYears. by apply fold_expandYear_done.
Qed.

(** ** A pass that changes nothing *)

Section Counting.

Implicit Types (s t m r old new : gostring).

Lemma countT_app s t : countT (s ++ t) = (countT s + countT t)%nat.
Proof.
  induction s as [|c s IH]; cbn [countT app]; [done|].
  destruct (isT c); lia.
Qed.

Lemma countT_dateBytes s : forallb dateByte s = true -> countT s = O.
Proof.
  induction s as [|c s IH]; cbn [countT forallb]; [done|].
  intros [Hc Hs]%andb_true_iff.
  destruct (isT c) eqn:HT; [|by apply IH].
  apply Ascii.eqb_eq in HT as ->. done.
Qed.

Lemma rewrites_countT (ok : gostring -> gostring -> Prop) s t :
  (forall m r, ok m r -> addsT m r) ->
  rewrites ok s t ->
  (countT s <= countT t)%nat /\ (countT s = countT t -> s = t).
Proof.
  intros Hok. induction 1 as [|c s t _ [IHle IHeq]|m r s t Hmr _ [IHle IHeq]].
  - done.
  - cbn [countT]. destruct (isT c); (split; [lia|]);
      intros H; f_equal; apply IHeq; lia.
  - specialize (Hok m r Hmr). unfold addsT in Hok.
    rewrite !countT_app. split; lia.
Qed.

Lemma jstToUtc_countT (date : gostring) : countT (jstToUtc date) = countT date.
Proof.
  unfold jstToUtc. destruct (_ && _); [|done].
  destruct (GoTime.Parse date) as [t|] eqn:Hp; [|done].
  rewrite (countT_dateBytes _ (Format_dateBytes _)).
  by rewrite (countT_dateBytes _ (Parse_dateBytes date t Hp)).
Qed.

Lemma castPiece_addsT m r : castPiece m r -> addsT m r.
Proof.
  intros (w1 & w2 & d1 & w3 & w4 & d2
          & [_ Hw1] & [_ Hw2] & _ & [_ Hw3] & [_ Hw4] & _ & -> & ->).
  assert (forall w, forallb perlSpace w = true -> countT w = O) as Hblank.
  { induction w as [|c w IH]; cbn [countT forallb]; [done|].
    intros [Hc Hw]%andb_true_iff.
    destruct (isT c) eqn:HT; [|by apply IH].
    apply Ascii.eqb_eq in HT as ->. done. }
  unfold addsT, untypedClause, typedClause.
  rewrite !countT_app, !jstToUtc_countT,
    (Hblank _ Hw1), (Hblank _ Hw2), (Hblank _ Hw3), (Hblank _ Hw4).
  change (countT (bs "time_dt")) with 0%nat.
  change (countT (bs "BETWEEN")) with 1%nat.
  change (countT (bs "'")) with 0%nat.
  change (countT (bs "AND")) with 0%nat.
  change (countT (bs "time_dt BETWEEN TIMESTAMP '")) with 3%nat.
  change (countT (bs "' AND TIMESTAMP '")) with 2%nat.
  lia.
Qed.

Lemma replaceFrom_countT old new (limit : option nat) (k : nat) s :
  old <> [] -> addsT old new ->
  (countT (drop k s) <= countT (replaceFrom old new limit k s))%nat.
Proof.
  intros Hold Hadd.
  apply (rewrites_countT (fun m r => m = old /\ r = new)).
  - by intros m r [-> ->].
  - by apply replaceFrom_rewrites.
Qed.

(** A scan that finds the text to replace makes a replacement. *)
Lemma replaceFrom_addsT old new (n : nat) s :
  old <> [] -> addsT old new -> Contains s old = true ->
  addsT s (replaceFrom old new (Some (S n)) 0 s).
Proof.
  intros Hold Hadd. unfold addsT in *. induction s as [|c s IH].
  - cbn [Contains]. rewrite orb_false_r. by destruct old.
  - intros Hs. cbn [replaceFrom].
    destruct (HasPrefix (c :: s) old) eqn:Hp.
    + pose proof (replaceFrom_countT old new (Nat.pred <$> Some (S n))
                    (Nat.pred (length old)) s Hold Hadd) as Hle.
      apply HasPrefix_inv in Hp. destruct old as [|o old']; [done|].
      cbn [length Nat.pred] in *. injection Hp as -> Hp.
      rewrite Hp in Hle at 1. rewrite drop_app_length in Hle.
      rewrite Hp at 1.
      change (o :: old' ++ drop (length old') s)
        with ((o :: old') ++ drop (length old') s).
      rewrite !countT_app. lia.
    + cbn [Contains] in Hs. rewrite Hp in Hs. simpl in Hs.
      specialize (IH Hs). cbn [countT]. destruct (isT c); lia.
Qed.

Lemma Replace_first_addsT s old new :
  old <> [] -> addsT old new -> Contains s old = true ->
  addsT s (Replace s old new 1).
Proof.
  intros Hold Hadd Hs. unfold Replace.
  destruct (decide (old = new)) as [->|_].
  { unfold addsT in Hadd. lia. }
  destruct old as [|o old']; [done|].
  by apply (replaceFrom_addsT (o :: old') new 0).
Qed.

End Counting.

Lemma replacedBy_castPiece (m r : gostring) :
  replacedBy betweenRegex castBetweenMatch m r -> castPiece m r.
Proof.
  intros [-> (gs & rest & Hm)].
  apply matchHere_betweenRegex_inv in Hm
    as (w1 & w2 & d1 & w3 & w4 & d2 & ? & ? & ? & ? & ? & ? & Hs & _).
  assert (m = bs "time_dt" ++ w1 ++ untypedClause w2 d1 w3 w4 d2) as ->.
  { apply (app_inv_tail rest). by rewrite Hs, <- !app_assoc. }
  exists w1, w2, d1, w3, w4, d2. repeat (split; [done|]).
  by apply castBetweenMatch_clause.
Qed.

(** A scan that finds a clause replaces it. *)
Lemma replaceAllFrom_addsT (s : gostring) :
  FindStringSubmatch betweenRegex s <> [] ->
  addsT s (replaceAllFrom betweenRegex castBetweenMatch 0 s).
Proof.
  unfold addsT. induction s as [|c s IH]; [done|].
  cbn [FindStringSubmatch replaceAllFrom].
  destruct (submatchHere betweenRegex (c :: s)) as [[|whole gs]|] eqn:Hw.
  - unfold submatchHere in Hw.
    by destruct (matchHere betweenRegex (c :: s)) as [[? ?]|].
  - intros _. apply submatchHere_whole in Hw as (rest & Hs & Hm).
    assert (castPiece whole (castBetweenMatch whole)) as Hpiece.
    { apply replacedBy_castPiece. split; [done|].
      exists gs, rest. by rewrite <- Hs. }
    apply castPiece_addsT in Hpiece. unfold addsT in Hpiece.
    destruct whole as [|w whole']; [simpl in Hpiece; lia|].
    injection Hs as -> ->.
    pose proof (replaceAllFrom_rewrites betweenRegex castBetweenMatch
                  (length whole') (whole' ++ rest) betweenRegex_consumes) as Hrw.
    rewrite drop_app_length in Hrw.
    apply (rewrites_countT _ _ _
             (fun m r H => castPiece_addsT m r (replacedBy_castPiece m r H)))
      in Hrw as [Hle _].
    cbn [length Nat.pred].
    change (w :: whole' ++ rest) with ((w :: whole') ++ rest).
    rewrite !countT_app. lia.
  - intros Hfind. specialize (IH Hfind). cbn [countT]. destruct (isT c); lia.
Qed.

Lemma castBetween_fixed (query : gostring) :
  castBetween query = query -> MatchString betweenRegex query = false.
Proof.
  unfold castBetween, MatchString, ReplaceAllStringFunc.
  destruct (FindStringSubmatch betweenRegex query) as [|whole gs] eqn:Hfind;
    [done|].
  intros Heq.
  assert (FindStringSubmatch betweenRegex query <> []) as Hne by by rewrite Hfind.
  apply replaceAllFrom_addsT in Hne. unfold addsT in Hne.
  rewrite Heq in Hne. lia.
Qed.

Lemma submatchHere_quotedIn (s : gostring) (match_ : list gostring) :
  submatchHere simpleRegex s = Some match_ -> quotedIn s match_.
Proof.
  unfold submatchHere.
  destruct (matchHere simpleRegex s) as [[gs rest]|] eqn:Hm; [|done].
  simpl. intros [= <-].
  apply matchHere_simpleRegex_inv in Hm
    as (w2 & d1 & w3 & w4 & d2 & _ & _ & _ & _ & _ & -> & ->).
  eexists _, d1, d2. split; [done|]. unfold untypedClause. split.
  - apply Contains_spec. exists (bs "BETWEEN" ++ w2).
    eexists. by rewrite <- !app_assoc.
  - apply Contains_spec.
    exists (bs "BETWEEN" ++ w2 ++ bs "'" ++ d1 ++ bs "'" ++ w3 ++ bs "AND" ++ w4).
    exists rest. by rewrite <- !app_assoc.
Qed.

Lemma quotedIn_cons (c : ascii) (s : gostring) (match_ : list gostring) :
  quotedIn s match_ -> quotedIn (c :: s) match_.
Proof.
  intros (whole & d1 & d2 & -> & H1 & H2). exists whole, d1, d2.
  split; [done|]. split; by apply (Contains_app_r _ _ [c]).
Qed.

Lemma findAllFrom_quotedIn (k : nat) (s : gostring) (match_ : list gostring) :
  In match_ (findAllFrom simpleRegex k s) -> quotedIn s match_.
Proof.
  revert k. induction s as [|c s IH]; intros k; [done|].
  cbn [findAllFrom]. destruct k as [|k].
  - destruct (submatchHere simpleRegex (c :: s)) as [m0|] eqn:Hm0.
    + intros [<-|Hin].
      * by apply submatchHere_quotedIn.
      * by apply quotedIn_cons, (IH _ Hin).
    + intros Hin. by apply quotedIn_cons, (IH _ Hin).
  - intros Hin. by apply quotedIn_cons, (IH _ Hin).
Qed.

Lemma quotedYear_addsT (date rest : gostring) :
  rest = bs "-01-01 00:00:00" \/ rest = bs "-12-31 23:59:59" ->
  addsT (bs "'" ++ date ++ bs "'") (bs "TIMESTAMP '" ++ (date ++ rest) ++ bs "'").
Proof.
  intros Hrest. unfold addsT. rewrite !countT_app.
  change (countT (bs "'")) with 0%nat.
  change (countT (bs "TIMESTAMP '")) with 2%nat.
  destruct Hrest as [-> | ->]; simpl; lia.
Qed.

Lemma yearPiece_addsT (m r : gostring) : yearPiece m r -> addsT m r.
Proof.
  intros (date & rest & _ & Hrest & -> & ->). by apply quotedYear_addsT.
Qed.

Lemma Replace_countT (s old new : gostring) (n : Z) :
  old <> [] -> addsT old new -> (countT s <= countT (Replace s old new n))%nat.
Proof.
  intros Hold Hadd.
  apply (rewrites_countT (fun m r => m = old /\ r = new)).
  - by intros m r [-> ->].
  - by apply Replace_rewrites.
Qed.

Lemma expandYear_countT (query : gostring) (match_ : list gostring) :
  (countT query <= countT (expandYear query match_))%nat
  /\ (countT query = countT (expandYear query match_) ->
      expandYear query match_ = query).
Proof.
  apply (expandYear_invariant
           (fun t => (countT query <= countT t)%nat
                     /\ (countT query = countT t -> t = query))); [|done].
  intros s t Hrw [Hle Heq].
  apply (rewrites_countT _ _ _ yearPiece_addsT) in Hrw as [Hle' Heq'].
  split; [lia|]. intros H.
  assert (s = query) as -> by (apply Heq; lia). symmetry. apply Heq'. lia.
Qed.

Lemma fold_expandYear_countT (matches : list (list gostring)) (query : gostring) :
  (countT query <= countT (fold_left expandYear matches query))%nat.
Proof.
  revert query. induction matches as [|m ms IH]; intros query; simpl; [done|].
  pose proof (expandYear_countT query m) as [Hle _].
  specialize (IH (expandYear query m)). lia.
Qed.

Lemma expandYear_fixed (query : gostring) (match_ : list gostring) :
  quotedIn query match_ -> expandYear query match_ = query ->
  yearsExpanded match_ = true.
Proof.
  intros (whole & date1 & date2 & -> & H1 & H2) Hfix.
  unfold expandYear in Hfix. unfold yearsExpanded, yearLike.
  pose proof (quotedYear_addsT date1 (bs "-01-01 00:00:00") (or_introl eq_refl))
    as Hadd1.
  pose proof (quotedYear_addsT date2 (bs "-12-31 23:59:59") (or_intror eq_refl))
    as Hadd2.
  destruct ((length date1 =? 4)%nat && isNumeric date1) eqn:Hy1.
  { exfalso.
    pose proof (Replace_first_addsT query (bs "'" ++ date1 ++ bs "'") _
                  ltac:(done) Hadd1 H1) as Hq1.
    set (q1 := Replace query _ _ 1) in *. clearbody q1. unfold addsT in Hq1.
    destruct ((length date2 =? 4)%nat && isNumeric date2).
    - pose proof (Replace_countT q1 (bs "'" ++ date2 ++ bs "'") _ 1
                    ltac:(done) Hadd2) as Hle.
      rewrite Hfix in Hle. lia.
    - rewrite Hfix in Hq1. lia. }
  destruct ((length date2 =? 4)%nat && isNumeric date2) eqn:Hy2; [|done].
  exfalso.
  pose proof (Replace_first_addsT query (bs "'" ++ date2 ++ bs "'") _
                ltac:(done) Hadd2 H2) as Hq2.
  unfold addsT in Hq2. rewrite Hfix in Hq2. lia.
Qed.

Lemma fold_expandYear_fixed (matches : list (list gostring)) (query : gostring) :
  Forall (quotedIn query) matches ->
  fold_left expandYear matches query = query ->
  forallb yearsExpanded matches = true.
Proof.
  induction matches as [|m ms IH]; simpl; [done|].
  intros Hall Hfix. inversion Hall as [|? ? Hm Hms]; subst.
  pose proof (expandYear_countT query m) as [Hle Heq].
  pose proof (fold_expandYear_countT ms (expandYear query m)) as Hle'.
  rewrite Hfix in Hle'.
  assert (expandYear query m = query) as Hstep by (apply Heq; lia).
  rewrite Hstep in Hfix.
  by rewrite (expandYear_fixed query m Hm Hstep), (IH Hms Hfix).
Qed.

Lemma expandYears_fixed (query : gostring) :
  expandYears query = query ->
  forallb yearsExpanded (FindAllStringSubmatch simpleRegex query) = true.
Proof.
  apply fold_expandYear_fixed. apply Forall_forall. intros m Hin.
  apply list_elem_of_In in Hin. by apply (findAllFrom_quotedIn 0).
Qed.

Lemma castBetween_countT (query : gostring) :
  (countT query <= countT (castBetween query))%nat
  /\ (countT query = countT (castBetween query) -> query = castBetween query).
Proof.
  apply (rewrites_countT castPiece _ _ castPiece_addsT),castBetween_rewrites.
Qed.

Lemma fixed_fullyTyped (query : gostring) :
  trimmed query -> qualified query ->
  preprocessSqlQuery query = query -> fullyTyped query = true.
Proof.
  intros Htrim Hqual. unfold preprocessSqlQuery, fullyTyped.
  rewrite (trimmed_TrimSpace _ Htrim), (qualified_qualifyTables _ Hqual).
  intros Hfix.
  pose proof (castBetween_countT query) as [Hle Heq].
  pose proof (fold_expandYear_countT
                (FindAllStringSubmatch simpleRegex (castBetween query))
                (castBetween query)) as Hle'.
  fold (expandYears (castBetween query)) in Hle'. rewrite Hfix in Hle'.
  assert (castBetween query = query) as Hcast by (symmetry; apply Heq; lia).
  rewrite Hcast in Hfix.
  by rewrite (castBetween_fixed _ Hcast), (expandYears_fixed _ Hfix).
Qed.

(** C1 as stated fails: the first pass expands the two quoted years of
    the IN list and leaves the clause, the second pass expands the clause. *)
Lemma preprocessSqlQuery_second_pass_differs :
  preprocessSqlQuery yearsQuotedEarlier
  = bs "SELECT * FROM waf WHERE year IN (TIMESTAMP '2020-01-01 00:00:00', TIMESTAMP '2021-12-31 23:59:59') AND day BETWEEN '2020' AND '2021'"
  /\ preprocessSqlQuery (preprocessSqlQuery yearsQuotedEarlier)
     = bs "SELECT * FROM waf WHERE year IN (TIMESTAMP '2020-01-01 00:00:00', TIMESTAMP '2021-12-31 23:59:59') AND day BETWEEN TIMESTAMP '2020-01-01 00:00:00' AND TIMESTAMP '2021-12-31 23:59:59'"
  /\ preprocessSqlQuery (preprocessSqlQuery yearsQuotedEarlier)
     <> preprocessSqlQuery yearsQuotedEarlier.
Proof.
  split; [by vm_compute|]. split; [by vm_compute|].
  intros H. apply (f_equal (@length ascii)) in H. vm_compute in H.
  discriminate H.
Qed.

(** C1, amended. For every SQL text x, the two first steps of a second
    pass leave the rewritten text as it is: TrimSpace does, and so does
    the qualification of table names; and the second pass as a whole
    changes nothing,
    preprocessSqlQuery (preprocessSqlQuery x) = preprocessSqlQuery x,
    exactly when the rewritten text has no match of the time_dt pattern
    and none of the matches of the BETWEEN pattern found in it has a
    bound that is taken for a year.  Nothing more is said of a second
    pass that does change the text. *)
Theorem preprocessSqlQuery_idempotent_when_typed (x : gostring) :
  TrimSpace (preprocessSqlQuery x) = preprocessSqlQuery x
  /\ qualifyTables (preprocessSqlQuery x) = preprocessSqlQuery x
  /\ (preprocessSqlQuery (preprocessSqlQuery x) = preprocessSqlQuery x
      <-> fullyTyped (preprocessSqlQuery x) = true).
Proof.
  pose proof (preprocessSqlQuery_trimmed x) as Htrim.
  pose proof (preprocessSqlQuery_qualified x) as Hqual.
  split; [|split; [|split]].
  - by apply trimmed_TrimSpace.
  - by apply qualified_qualifyTables.
  - by apply fixed_fullyTyped.
  - by apply fullyTyped_fixed.
Qed.

Lemma preprocessSqlQuery_idempotent_when_typed_witness :
  preprocessSqlQuery unqualifiedQuery <> TrimSpace unqualifiedQuery
  /\ preprocessSqlQuery (preprocessSqlQuery unqualifiedQuery)
     = preprocessSqlQuery unqualifiedQuery.
Proof.
  split.
  - intros H. apply (f_equal (@length ascii)) in H. vm_compute in H.
    discriminate H.
  - apply (proj2 (proj2 (preprocessSqlQuery_idempotent_when_typed
                           unqualifiedQuery))).
    by vm_compute.
Defined.

(* ===================================================================== *)
(** * Further properties *)
(* ===================================================================== *)

(** ** runAthenaQuery: the calls of a run *)

Lemma pollLoop_waits client qid (k ticks attempts : nat) state :
  (k < ticks)%nat ->
  (forall j, (attempts < j <= attempts + k)%nat ->
             keepsPolling (GetQueryExecution client qid j)) ->
  exists state',
    pollLoop client qid ticks attempts state
    = let '(r, calls) := pollLoop client qid (ticks - k) (attempts + k) state' in
      (r, repeat (CallGetExecution qid) k ++ calls).
Proof.
  revert ticks attempts state.
  induction k as [|k IH]; intros ticks attempts state Hk Hpoll.
  - exists state. rewrite Nat.sub_0_r, Nat.add_0_r. simpl.
    by destruct (pollLoop client qid ticks attempts state).
  - destruct ticks as [|ticks]; [lia|]. simpl.
    specialize (Hpoll (S attempts)) as Hnow.
    destruct (GetQueryExecution client qid (S attempts)) as [err|[st reason]];
      simpl in Hnow.
    + exfalso. apply Hnow. lia.
    + destruct Hnow as (H1 & H2 & H3); [lia|].
      rewrite !bool_decide_eq_false_2 by done.
      destruct (IH ticks (S attempts) st) as (state' & ->); [lia| |].
      { intros j Hj. apply Hpoll. lia. }
      exists state'. replace (attempts + S k)%nat with (S attempts + k)%nat by lia.
      by destruct (pollLoop client qid (ticks - k) (S attempts + k) state').
Qed.

Lemma repeat_snoc {A} (x : A) (n : nat) : repeat x n ++ [x] = repeat x (S n).
Proof. induction n as [|n IH]; simpl; [done|]. by rewrite IH. Qed.

(** X1. The successful run.  When the query is not rejected, the backend
    accepts it, the first k polls find it still running and poll k+1,
    made before the deadline, finds it SUCCEEDED, runAthenaQuery returns
    the execution id, the rows of GetQueryResults, an empty error message
    and the region, after exactly these calls: one StartQueryExecution
    with the rewritten query, k+1 GetQueryExecution, one GetQueryResults;
    StopQueryExecution is not called, and the NextToken is not followed. *)
Theorem runAthenaQuery_success (env : Env) (query qid : gostring) (k : nat)
    (rows : list Row) (next : option gostring) :
  let rewritten := preprocessSqlQuery query in
  let region := getQueryRegion rewritten in
  let client := getAthenaClient env region in
  denyListed env query = false ->
  (forall database output workgroup,
     StartQueryExecution client rewritten database output workgroup = inr qid) ->
  (k < Nat.min (ticksDelivered env) maxTicks)%nat ->
  (forall j, (1 <= j <= k)%nat ->
             keepsPolling (GetQueryExecution client qid j)) ->
  (exists reason,
     GetQueryExecution client qid (S k) = inr (bs "SUCCEEDED", reason)) ->
  GetQueryResults client qid = inr (rows, next) ->
  exists database output,
    runAthenaQuery env query
    = ((qid, rows, bs "", region),
       CallStart region rewritten database output (athenaWorkgroup env)
       :: repeat (CallGetExecution qid) (S k) ++ [CallGetResults qid]).
Proof.
  intros rewritten region client Hdeny Hstart Hk Hpoll [reason Hdone] Hrows.
  unfold runAthenaQuery. rewrite Hdeny.
  fold rewritten. fold region. fold client. rewrite Hstart.
  destruct (pollLoop_waits client qid k
              (Nat.min (ticksDelivered env) maxTicks) 0 (bs "") Hk)
    as (state' & ->).
  { intros j Hj. apply Hpoll. lia. }
  destruct (Nat.min (ticksDelivered env) maxTicks - k)%nat as [|ticks] eqn:Hleft;
    [lia|].
  change (0 + k)%nat with k. cbn [pollLoop]. rewrite Hdone.
  rewrite (bool_decide_eq_true_2 (bs "SUCCEEDED" = bs "SUCCEEDED")) by done.
  rewrite (bool_decide_eq_true_2 (bs "" = bs "")) by done.
  cbn [negb orb]. rewrite Hrows.
  eexists _, _. rewrite <- app_assoc. rewrite <- (repeat_snoc _ k).
  rewrite <- !app_assoc. reflexivity.
Qed.

Lemma runAthenaQuery_success_witness :
  exists database output,
    runAthenaQuery finishingEnv (bs "SELECT 1")
    = ((bs "qid-2", [[Some (bs "count")]], bs "", bs "ap-northeast-1"),
       CallStart (bs "ap-northeast-1") (bs "SELECT 1") database output
         (bs "primary")
       :: repeat (CallGetExecution (bs "qid-2")) 3
          ++ [CallGetResults (bs "qid-2")]).
Proof.
  apply (runAthenaQuery_success finishingEnv (bs "SELECT 1") (bs "qid-2") 2
           [[Some (bs "count")]] None).
  - reflexivity.
  - reflexivity.
  - vm_compute. lia.
  - intros j Hj. destruct j as [|[|[|j]]]; [lia| | |lia];
      simpl; repeat split; discriminate.
  - by exists None.
  - reflexivity.
Defined.

(** X2. The failed run.  When the poll k+1, made before the deadline, fails
    or finds the query FAILED or CANCELLED, runAthenaQuery returns the
    execution id, no rows and the message of that failure (the error of
    the status call, the StateChangeReason or "Unknown error", the
    cancellation), after one StartQueryExecution and k+1 GetQueryExecution:
    it neither stops the query nor asks for results. *)
Theorem runAthenaQuery_failure (env : Env) (query qid errorMsg : gostring)
    (k : nat) :
  let rewritten := preprocessSqlQuery query in
  let region := getQueryRegion rewritten in
  let client := getAthenaClient env region in
  denyListed env query = false ->
  (forall database output workgroup,
     StartQueryExecution client rewritten database output workgroup = inr qid) ->
  (k < Nat.min (ticksDelivered env) maxTicks)%nat ->
  (forall j, (1 <= j <= k)%nat ->
             keepsPolling (GetQueryExecution client qid j)) ->
  reportsFailure (GetQueryExecution client qid (S k)) errorMsg ->
  exists database output,
    runAthenaQuery env query
    = ((qid, [], errorMsg, region),
       CallStart region rewritten database output (athenaWorkgroup env)
       :: repeat (CallGetExecution qid) (S k)).
Proof.
  intros rewritten region client Hdeny Hstart Hk Hpoll Hfail.
  unfold runAthenaQuery. rewrite Hdeny.
  fold rewritten. fold region. fold client. rewrite Hstart.
  destruct (pollLoop_waits client qid k
              (Nat.min (ticksDelivered env) maxTicks) 0 (bs "") Hk)
    as (state' & ->).
  { intros j Hj. apply Hpoll. lia. }
  destruct (Nat.min (ticksDelivered env) maxTicks - k)%nat as [|ticks] eqn:Hleft;
    [lia|].
  change (0 + k)%nat with k. cbn [pollLoop].
  remember (GetQueryExecution client qid (S k)) as answer eqn:Hanswer.
  destruct Hfail as [err|reason|reason].
  - cbn [negb orb bool_decide]. eexists _, _.
    rewrite <- (repeat_snoc _ k). reflexivity.
  - rewrite (bool_decide_eq_false_2 (bs "FAILED" = bs "SUCCEEDED")) by done.
    rewrite (bool_decide_eq_true_2 (bs "FAILED" = bs "FAILED")) by done.
    assert (bs "Athena query failed: " ++ default (bs "Unknown error") reason
            <> bs "") as Hne by done.
    rewrite (bool_decide_eq_false_2 _ Hne). cbn [negb orb].
    eexists _, _. rewrite <- (repeat_snoc _ k). reflexivity.
  - rewrite (bool_decide_eq_false_2 (bs "CANCELLED" = bs "SUCCEEDED")) by done.
    rewrite (bool_decide_eq_false_2 (bs "CANCELLED" = bs "FAILED")) by done.
    rewrite (bool_decide_eq_true_2 (bs "CANCELLED" = bs "CANCELLED")) by done.
    eexists _, _. rewrite <- (repeat_snoc _ k). reflexivity.
Qed.

Lemma runAthenaQuery_failure_witness :
  exists database output,
    runAthenaQuery failingEnv (bs "SELECT 1")
    = ((bs "qid-3", [],
        bs "Athena query failed: SYNTAX_ERROR: line 1:8", bs "ap-northeast-1"),
       CallStart (bs "ap-northeast-1") (bs "SELECT 1") database output
         (bs "primary")
       :: repeat (CallGetExecution (bs "qid-3")) 2).
Proof.
  apply (runAthenaQuery_failure failingEnv (bs "SELECT 1") (bs "qid-3")
           (bs "Athena query failed: SYNTAX_ERROR: line 1:8") 1).
  - reflexivity.
  - reflexivity.
  - vm_compute. lia.
  - intros j Hj. destruct j as [|[|j]]; [lia| |lia].
    simpl. repeat split; discriminate.
  - exact (queryFailed (Some (bs "SYNTAX_ERROR: line 1:8"))).
Defined.

Lemma pollLoop_calls client qid (ticks attempts : nat) state :
  exists n,
    (pollLoop client qid ticks attempts state).2
    = repeat (CallGetExecution qid) n
    /\ (n <= ticks)%nat
    /\ match (pollLoop client qid ticks attempts state).1 with
       | PollDeadline => n = ticks
       | PollDone _ _ => (1 <= n)%nat
       end.
Proof.
  revert attempts state.
  induction ticks as [|ticks IH]; intros attempts state; cbn [pollLoop].
  - by exists O.
  - destruct (GetQueryExecution client qid (S attempts)) as [err|[st reason]].
    + exists 1%nat. simpl. repeat split; lia.
    + repeat (match goal with
              | |- context [bool_decide ?P] => destruct (bool_decide P)
              end; [exists 1%nat; simpl; repeat split; lia|]).
      destruct (IH (S attempts) st) as (n & Hcalls & Hn & Hend).
      destruct (pollLoop client qid ticks (S attempts) st) as [r calls].
      simpl in *. subst calls. exists (S n). repeat split; [lia|].
      destruct r; lia.
Qed.

(** X3. Whatever the backend answers, runAthenaQuery either rejects the
    query without any call, or calls StartQueryExecution once, then
    GetQueryExecution some number of times, then at most one of
    StopQueryExecution and GetQueryResults: nothing after a failure
    (which returns no rows and a message), StopQueryExecution when it
    returns the timeout, GetQueryResults after at least one poll; rows
    are returned only with an empty error message. *)
Theorem runAthenaQuery_call_discipline (env : Env) (query : gostring) :
  let rewritten := preprocessSqlQuery query in
  let region := getQueryRegion rewritten in
  runAthenaQuery env query = rejected
  \/ exists qid rows errMsg database output n tail,
       runAthenaQuery env query
       = ((qid, rows, errMsg, region),
          CallStart region rewritten database output (athenaWorkgroup env)
          :: repeat (CallGetExecution qid) n ++ tail)
       /\ (tail = [] /\ rows = [] /\ errMsg <> bs ""
           \/ tail = [CallStop qid] /\ rows = [] /\ errMsg = timedOut
           \/ tail = [CallGetResults qid] /\ (1 <= n)%nat
              /\ (errMsg = bs "" \/ rows = [] /\ errMsg <> bs "")).
Proof.
  intros rewritten region. unfold runAthenaQuery.
  destruct (denyListed env query); [by left|right].
  fold rewritten. fold region.
  set (client := getAthenaClient env region).
  match goal with
  | |- context [StartQueryExecution client rewritten ?db ?out ?wg] =>
      set (database := db); set (output := out)
  end.
  destruct (StartQueryExecution client rewritten database output
              (athenaWorkgroup env)) as [err|qid].
  - exists (bs ""), [], (bs "Athena start error: " ++ err), database, output,
      O, [].
    split; [done|]. left. done.
  - destruct (pollLoop_calls client qid
                (Nat.min (ticksDelivered env) maxTicks) 0 (bs ""))
      as (n & Hcalls & Hn & Hend).
    destruct (pollLoop client qid (Nat.min (ticksDelivered env) maxTicks) 0
                (bs "")) as [[errorMsg state|] calls];
      simpl in Hcalls, Hend; subst calls.
    + destruct (bool_decide (errorMsg = bs "")) eqn:Herr; cbn [negb orb].
      * apply bool_decide_eq_true_1 in Herr. subst errorMsg.
        destruct (bool_decide (state = bs "SUCCEEDED")); cbn [negb].
        -- destruct (GetQueryResults client qid) as [err|[rows next]].
           ++ eexists qid, [], _, database, output, n, [CallGetResults qid].
              split; [done|]. right. right.
              split; [done|]. split; [done|]. right. done.
           ++ eexists qid, rows, _, database, output, n, [CallGetResults qid].
              split; [done|]. right. right.
              split; [done|]. split; [done|]. left. done.
        -- eexists qid, [], _, database, output, n, [].
           split; [by rewrite app_nil_r|]. left. done.
      * apply bool_decide_eq_false_1 in Herr.
        eexists qid, [], errorMsg, database, output, n, [].
        split; [by rewrite app_nil_r|]. left. done.
    + eexists qid, [], _, database, output, n, [CallStop qid].
      split; [done|]. right. left. done.
Qed.

(** ** The handler: redelivery and the size of the caches *)

Lemma eventGuard_marks (processed processed' : gmap gostring bool)
    (wrapper : SlackEventWrapper) :
  EventID wrapper <> bs "" ->
  eventGuard processed wrapper = (None, processed') ->
  processed' !! eventKeyOf wrapper = Some true.
Proof.
  intros Hid. unfold eventGuard. fold (eventKeyOf wrapper).
  rewrite (bool_decide_eq_false_2 _ Hid). cbn [negb].
  destruct (processed !! eventKeyOf wrapper); [discriminate|].
  destruct (100 <? _)%nat; intros [= <-]; apply lookup_insert_eq.
Qed.

(** X4. A request that was handed on for processing is not processed a
    second time when it is delivered again: with an event id the second
    delivery is answered "duplicate event" whenever it arrives, without
    one it is answered "duplicate query ignored" when it arrives within 5
    seconds; the caches are left as the first delivery left them. *)
Theorem handlerIntake_redelivery (clock later : Clock) (caches caches' : Caches)
    (req : Request) (channel text : gostring) :
  handlerIntake clock caches req = (Process channel text, caches') ->
  exists wrapper,
    body req = Payload None (Some wrapper)
    /\ channel = evChannel (Event wrapper)
    /\ text = questionText (evText (Event wrapper))
    /\ (3 <= length text)%nat
    /\ (EventID wrapper <> bs "" ->
        handlerIntake later caches' req = (Respond duplicateEvent, caches'))
    /\ (EventID wrapper = bs "" ->
        tClean clock - tRecord clock <= 10 * GoTime.Minute ->
        tCheck later - tRecord clock < 5 * GoTime.Second ->
        tCheck later - tRefill clock < 5 * GoTime.Second ->
        handlerIntake later caches' req = (Respond duplicateQuery, caches')).
Proof.
  unfold handlerIntake.
  destruct (bool_decide (retryNum req = bs "")) eqn:Hretry; [|discriminate].
  cbn [negb].
  destruct (body req) as [|[challenge|] [wrapper|]]; try discriminate.
  destruct (bool_decide (wrType wrapper = bs "event_callback")) eqn:Htype;
    [|discriminate]. cbn [negb].
  destruct (negb (bool_decide (evType (Event wrapper) = bs "message"))
            && negb (bool_decide (evType (Event wrapper) = bs "app_mention")))
    eqn:Hev; [discriminate|].
  destruct (bool_decide (evUser (Event wrapper) = bs "U08N7NYBPAL")) eqn:Huser;
    [discriminate|].
  destruct (eventGuard (processedEvents caches) wrapper)
    as [[r|] processed] eqn:Hevent; [discriminate|].
  cbn [recentQueries processedEvents].
  set (question := questionText (evText (Event wrapper))).
  destruct (bool_decide (question = bs "") || (length question <? 3)%nat)
    eqn:Hshort; [discriminate|].
  destruct (queryGuard clock (recentQueries caches)
              (queryKey (evChannel (Event wrapper)) question))
    as [[r|] recent] eqn:Hquery; [discriminate|].
  intros [= <- <- <-].
  exists wrapper. split; [done|]. split; [done|]. split; [done|].
  split. { apply orb_false_iff in Hshort as [_ Hlen]. by apply Nat.ltb_ge. }
  cbn [recentQueries processedEvents]. split.
  - intros Hid.
    assert (eventGuard processed wrapper
            = (Some duplicateEvent, processed)) as ->; [|done].
    pose proof (eventGuard_marks _ _ _ Hid Hevent) as Hmark.
    unfold eventGuard. fold (eventKeyOf wrapper).
    rewrite (bool_decide_eq_false_2 _ Hid). cbn [negb]. by rewrite Hmark.
  - intros Hid Hprompt Hrecord Hrefill.
    assert (processed = processedEvents caches) as ->.
    { revert Hevent. unfold eventGuard. rewrite Hid.
      rewrite (bool_decide_eq_true_2 (bs "" = bs "")) by done.
      by intros [= <-]. }
    rewrite Hevent. cbn [recentQueries processedEvents].
    assert (queryGuard later recent
              (queryKey (evChannel (Event wrapper)) question)
            = (Some duplicateQuery, recent)) as ->; [|done].
    destruct (queryGuard_marks _ _ _ _ Hquery Hprompt) as [Hnow|Hnow].
    + by apply (queryGuard_duplicate later recent _ (tRecord clock)).
    + by apply (queryGuard_duplicate later recent _ (tRefill clock)).
Qed.

Lemma handlerIntake_redelivery_witness :
  handlerIntake aSecondLater (handlerIntake noon noCaches anonymousRequest).2
    anonymousRequest
  = (Respond duplicateQuery, (handlerIntake noon noCaches anonymousRequest).2).
Proof.
  destruct (handlerIntake_redelivery noon aSecondLater noCaches
              (handlerIntake noon noCaches anonymousRequest).2
              anonymousRequest (bs "C1") (bs "top ips today"))
    as (wrapper & Hbody & _ & _ & _ & _ & Hagain); [reflexivity|].
  injection Hbody as <-. apply Hagain.
  - reflexivity.
  - vm_compute. discriminate.
  - reflexivity.
  - reflexivity.
Defined.

Lemma eventGuard_bounded (processed : gmap gostring bool)
    (wrapper : SlackEventWrapper) :
  (size processed <= 100)%nat ->
  (size (eventGuard processed wrapper).2 <= 100)%nat.
Proof.
  intros Hsize. unfold eventGuard.
  destruct (negb _); [|done].
  destruct (processed !! _); [done|]. cbn [snd].
  destruct (100 <? _)%nat eqn:Hfull.
  - rewrite insert_empty, map_size_singleton. lia.
  - by apply Nat.ltb_ge in Hfull.
Qed.

Lemma queryGuard_bounded (clock : Clock) (recent : gmap gostring Z)
    (key : gostring) :
  (size recent <= 200)%nat ->
  (size (queryGuard clock recent key).2 <= 200)%nat.
Proof.
  intros Hsize. unfold queryGuard.
  destruct (match recent !! key with Some _ => _ | None => _ end); [done|].
  cbn [snd].
  destruct (200 <? size (<[key:=tRecord clock]> recent))%nat eqn:Hfull.
  - match goal with
    | |- context [(150 <? ?n)%nat] => destruct (150 <? n)%nat eqn:Hkept
    end.
    + rewrite insert_empty, map_size_singleton. lia.
    + apply Nat.ltb_ge in Hkept. lia.
  - by apply Nat.ltb_ge in Hfull.
Qed.

Lemma handlerIntake_bounded (clock : Clock) (caches : Caches) (req : Request) :
  (size (processedEvents caches) <= 100)%nat ->
  (size (recentQueries caches) <= 200)%nat ->
  (size (processedEvents (handlerIntake clock caches req).2) <= 100)%nat
  /\ (size (recentQueries (handlerIntake clock caches req).2) <= 200)%nat.
Proof.
  intros Hevents Hqueries. unfold handlerIntake.
  destruct (negb _); [done|].
  destruct (body req) as [|[challenge|] [wrapper|]]; try done.
  destruct (negb _); [done|]. destruct (_ && _); [done|].
  destruct (bool_decide _); [done|].
  pose proof (eventGuard_bounded (processedEvents caches) wrapper Hevents)
    as Hevents'.
  destruct (eventGuard (processedEvents caches) wrapper) as [[r|] processed];
    [done|]. simpl in Hevents'. cbn [recentQueries processedEvents].
  destruct (_ || _); [done|].
  match goal with
  | |- context [queryGuard clock ?m ?k] =>
      pose proof (queryGuard_bounded clock m k Hqueries) as Hqueries';
      destruct (queryGuard clock m k) as [[r|] recent]
  end; done.
Qed.

(** X5. The two caches of the handler stay bounded: whatever requests a
    process serves after a cold start, processedEvents never holds more
    than 100 keys and recentQueries never more than 200. *)
Theorem caches_stay_bounded (requests : list (Clock * Request)) :
  (size (processedEvents (served requests)) <= 100)%nat
  /\ (size (recentQueries (served requests)) <= 200)%nat.
Proof.
  unfold served.
  assert ((size (processedEvents noCaches) <= 100)%nat
          /\ (size (recentQueries noCaches) <= 200)%nat) as Hcold.
  { simpl. rewrite !map_size_empty. lia. }
  revert Hcold. generalize noCaches.
  induction requests as [|[clock req] requests IH]; intros caches Hcaches;
    [done|].
  simpl. apply IH. destruct Hcaches. by apply handlerIntake_bounded.
Qed.

Lemma colon_split (c1 c2 t1 t2 : gostring) :
  noColon c1 -> noColon c2 ->
  c1 ++ bs ":" ++ t1 = c2 ++ bs ":" ++ t2 -> c1 = c2 /\ t1 = t2.
Proof.
  unfold noColon. revert c2.
  induction c1 as [|a c1 IH]; intros [|b c2]; simpl.
  - by intros _ _ [= ->].
  - intros _ [Hb _]%andb_true_iff [= <- _]. done.
  - intros [Ha _]%andb_true_iff _ [= -> _]. done.
  - intros [_ H1]%andb_true_iff [_ H2]%andb_true_iff [= -> Heq].
    destruct (IH c2 H1 H2 Heq) as [-> ->]. done.
Qed.

Lemma queryGuard_other (clock : Clock) (recent : gmap gostring Z)
    (key key' : gostring) :
  key' <> key -> recent !! key' = None ->
  (queryGuard clock recent key).2 !! key' = None.
Proof.
  intros Hne Hkey'. unfold queryGuard.
  destruct (match recent !! key with Some _ => _ | None => _ end); [done|].
  cbn [snd].
  assert (<[key:=tRecord clock]> recent !! key' = None) as Hins
    by (by rewrite lookup_insert_ne).
  destruct (200 <? _)%nat; [|done].
  match goal with |- context [(150 <? ?n)%nat] => destruct (150 <? n)%nat end.
  - by rewrite lookup_insert_ne.
  - apply map_lookup_filter_None. by left.
Qed.

Lemma postToSlack_other (slack : Slack) (clock : Clock)
    (recent : gmap gostring Z) (channel msg key' : gostring) :
  key' <> msgHash channel msg -> recent !! key' = None ->
  (postToSlack slack clock recent channel msg).1.2 !! key' = None.
Proof.
  intros Hne Hkey'. unfold postToSlack.
  destruct (match recent !! msgHash channel msg with
            | Some _ => _ | None => _ end); [done|].
  assert ((if (50 <? size (<[msgHash channel msg:=tRecord clock]> recent))%nat
           then filter (fun '(_, t) => ¬ tClean clock - t > 10 * GoTime.Minute)
                  (<[msgHash channel msg:=tRecord clock]> recent)
           else <[msgHash channel msg:=tRecord clock]> recent) !! key' = None)
    as Hclean.
  { destruct (50 <? _)%nat.
    - apply map_lookup_filter_None. left. by rewrite lookup_insert_ne.
    - by rewrite lookup_insert_ne. }
  destruct (bool_decide (slackToken slack = bs "")); exact Hclean.
Qed.

(** X6. The keys of the two time-window caches tell channels and texts
    apart, provided channel ids hold no colon: a question that is not in
    recentQueries is not held back by the recording of a different
    question or of the same question in another channel, and a message
    whose key is not in recentSlackMessages is sent although a message to
    another channel has just been recorded. *)
Theorem guards_tell_channels_apart (clock later : Clock)
    (channel text channel' text' : gostring) :
  noColon channel -> noColon channel' ->
  (channel, text) <> (channel', text') ->
  (forall recent : gmap gostring Z,
     recent !! queryKey channel' text' = None ->
     (queryGuard later (queryGuard clock recent (queryKey channel text)).2
        (queryKey channel' text')).1 = None)
  /\ (forall (slack slack' : Slack) (recent : gmap gostring Z),
        channel <> channel' ->
        slackToken slack' <> bs "" ->
        recent !! msgHash channel' text' = None ->
        (postToSlack slack' later
           (postToSlack slack clock recent channel text).1.2 channel' text').2
        = [(channel', text')]).
Proof.
  intros Hc Hc' Hne. split.
  - intros recent Hkey'.
    assert (queryKey channel' text' <> queryKey channel text) as Hkeys.
    { intros Heq. apply colon_split in Heq as [-> ->]; done. }
    pose proof (queryGuard_other clock recent _ _ Hkeys Hkey') as Hother.
    unfold queryGuard at 1. by rewrite Hother.
  - intros slack slack' recent Hchan Htoken Hkey'.
    assert (msgHash channel' text' <> msgHash channel text) as Hkeys.
    { intros Heq. apply colon_split in Heq as [-> _]; done. }
    pose proof (postToSlack_other slack clock recent _ _ _ Hkeys Hkey')
      as Hother.
    unfold postToSlack at 1. rewrite Hother.
    by rewrite (bool_decide_eq_false_2 _ Htoken).
Qed.

Lemma guards_tell_channels_apart_witness :
  (queryGuard aSecondLater
     (queryGuard noon ∅ (queryKey (bs "C1") (bs "top ips"))).2
     (queryKey (bs "C2") (bs "top ips"))).1 = None
  /\ (postToSlack withToken aSecondLater
        (postToSlack withToken noon ∅ (bs "C1") (bs "Query failed")).1.2
        (bs "C2") (bs "Query failed")).2
     = [(bs "C2", bs "Query failed")].
Proof.
  split.
  - apply (proj1 (guards_tell_channels_apart noon aSecondLater
                    (bs "C1") (bs "top ips") (bs "C2") (bs "top ips")
                    eq_refl eq_refl ltac:(discriminate))).
    reflexivity.
  - apply (proj2 (guards_tell_channels_apart noon aSecondLater
                    (bs "C1") (bs "Query failed") (bs "C2") (bs "Query failed")
                    eq_refl eq_refl ltac:(discriminate))).
    + discriminate.
    + discriminate.
    + reflexivity.
Defined.

Lemma postToSlack_keeps (slack : Slack) (clock : Clock)
    (recent : gmap gostring Z) (channel msg key' : gostring) (t : Z) :
  key' <> msgHash channel msg -> recent !! key' = Some t ->
  tClean clock - t <= 10 * GoTime.Minute ->
  (postToSlack slack clock recent channel msg).1.2 !! key' = Some t.
Proof.
  intros Hne Hkey' Hyoung. unfold postToSlack.
  destruct (match recent !! msgHash channel msg with
            | Some _ => _ | None => _ end); [done|].
  assert ((if (50 <? size (<[msgHash channel msg:=tRecord clock]> recent))%nat
           then filter (fun '(_, t) => ¬ tClean clock - t > 10 * GoTime.Minute)
                  (<[msgHash channel msg:=tRecord clock]> recent)
           else <[msgHash channel msg:=tRecord clock]> recent) !! key' = Some t)
    as Hclean.
  { destruct (50 <? _)%nat.
    - apply map_lookup_filter_Some. rewrite lookup_insert_ne by done.
      split; [done|]. simpl. lia.
    - by rewrite lookup_insert_ne. }
  destruct (bool_decide (slackToken slack = bs "")); exact Hclean.
Qed.

(** X7. The clean-up of recentSlackMessages drops only entries older than
    10 minutes, so a recorded message stays suppressed for its 3 minutes
    also when another message is posted in between: after a call that
    records a message and a call for a different key, a third call with
    the first message within 3 minutes of its recording returns nil and
    sends nothing. *)
Theorem postToSlack_suppression_survives (slack slack2 slack3 : Slack)
    (clock clock2 clock3 : Clock) (recent : gmap gostring Z)
    (channel msg channel2 msg2 : gostring) :
  let recent1 := (postToSlack slack clock recent channel msg).1.2 in
  let recent2 := (postToSlack slack2 clock2 recent1 channel2 msg2).1.2 in
  match recent !! msgHash channel msg with
  | Some t => 3 * GoTime.Minute <= tCheck clock - t
  | None => True
  end ->
  tClean clock - tRecord clock <= 10 * GoTime.Minute ->
  msgHash channel2 msg2 <> msgHash channel msg ->
  tClean clock2 - tRecord clock <= 10 * GoTime.Minute ->
  tCheck clock3 - tRecord clock < 3 * GoTime.Minute ->
  postToSlack slack3 clock3 recent2 channel msg = (None, recent2, []).
Proof.
  intros recent1 recent2 Hfirst Hprompt Hkeys Hyoung Hwindow.
  destruct (postToSlack_recorded slack clock recent channel msg Hfirst Hprompt)
    as (err & recent' & sent & Hpost & Hrec & _).
  assert (recent1 !! msgHash channel msg = Some (tRecord clock)) as Hrec1.
  { subst recent1. by rewrite Hpost. }
  apply postToSlack_suppressed with (t := tRecord clock); [|done].
  subst recent2. apply postToSlack_keeps; done.
Qed.

Lemma postToSlack_suppression_survives_witness :
  postToSlack withToken aMinuteLater
    (postToSlack withToken aSecondLater
       (postToSlack withToken noon ∅ (bs "C1") (bs "Query failed")).1.2
       (bs "C2") (bs "Query failed")).1.2
    (bs "C1") (bs "Query failed")
  = (None,
     (postToSlack withToken aSecondLater
        (postToSlack withToken noon ∅ (bs "C1") (bs "Query failed")).1.2
        (bs "C2") (bs "Query failed")).1.2,
     []).
Proof.
  apply (postToSlack_suppression_survives withToken withToken withToken
           noon aSecondLater aMinuteLater ∅
           (bs "C1") (bs "Query failed") (bs "C2") (bs "Query failed")).
  - reflexivity.
  - vm_compute. discriminate.
  - discriminate.
  - vm_compute. discriminate.
  - vm_compute. reflexivity.
Defined.

(** ** The formatters: columns, rows and widths *)

Section Columns.

Implicit Types (header : Row) (cells : list (nat * option gostring)).

Lemma fold_select (keep : gostring -> bool) cells
    (headers : list gostring) (colIndices : list nat) :
  fold_left (fun '(headers, colIndices) '(i, data) =>
     match data with
     | Some colName =>
         if keep colName
         then (headers ++ [colName], colIndices ++ [i])
         else (headers, colIndices)
     | None => (headers, colIndices)
     end) cells (headers, colIndices)
  = (headers ++ (filter (fun c => keep c.2 = true) (omap cellName cells)).*2,
     colIndices ++ (filter (fun c => keep c.2 = true) (omap cellName cells)).*1).
Proof.
  revert headers colIndices.
  induction cells as [|[i [name|]] cells IH]; intros headers colIndices.
  - cbn -[bs]. by rewrite !app_nil_r.
  - change (omap cellName ((i, Some name) :: cells))
      with ((i, name) :: omap cellName cells).
    rewrite filter_cons. cbn [fold_left snd].
    destruct (keep name); rewrite IH.
    + rewrite decide_True by done. cbn [fmap list_fmap fst snd].
      by rewrite <- !app_assoc.
    + rewrite decide_False by done. done.
  - apply IH.
Qed.

Lemma fold_first_pass cells (headers : list gostring) (colIndices : list nat)
    (colHeaders : list gostring) :
  fold_left (fun '(headers, colIndices, colHeaders) '(i, data) =>
     match data with
     | Some colName =>
         if negb (HasPrefix colName (bs "_col"))
         then (headers ++ [colName], colIndices ++ [i], colHeaders)
         else (headers, colIndices, colHeaders ++ [colName])
     | None => (headers, colIndices, colHeaders)
     end) cells (headers, colIndices, colHeaders)
  = (headers
     ++ (filter (fun c => negb (isNumbered c.2) = true) (omap cellName cells)).*2,
     colIndices
     ++ (filter (fun c => negb (isNumbered c.2) = true) (omap cellName cells)).*1,
     colHeaders
     ++ (filter (fun c => isNumbered c.2 = true) (omap cellName cells)).*2).
Proof.
  revert headers colIndices colHeaders.
  induction cells as [|[i [name|]] cells IH];
    intros headers colIndices colHeaders.
  - cbn -[bs]. by rewrite !app_nil_r.
  - change (omap cellName ((i, Some name) :: cells))
      with ((i, name) :: omap cellName cells).
    rewrite !filter_cons. cbn [fold_left snd]. fold (isNumbered name).
    destruct (isNumbered name); cbn [negb]; rewrite IH.
    + rewrite decide_False by done. rewrite decide_True by done.
      cbn [fmap list_fmap fst snd]. by rewrite <- !app_assoc.
    + rewrite decide_True by done. rewrite decide_False by done.
      cbn [fmap list_fmap fst snd]. by rewrite <- !app_assoc.
  - apply IH.
Qed.

Lemma filter_all {A} (l : list A) : filter (fun _ => true = true) l = l.
Proof.
  induction l as [|x l IH]; [done|].
  rewrite filter_cons, decide_True by done. by rewrite IH.
Qed.

Lemma selectColumns_chosen header :
  selectColumns header = ((chosenCells header).*2, (chosenCells header).*1).
Proof.
  unfold selectColumns, chosenCells. rewrite fold_first_pass.
  fold (namedCells header). cbn zeta. cbn [app].
  destruct (filter (fun c => negb (isNumbered c.2) = true) (namedCells header))
    as [|c normal] eqn:Hnormal; [|done].
  cbn [fmap list_fmap length Nat.eqb andb].
  destruct (filter (fun c => isNumbered c.2 = true) (namedCells header))
    as [|o others] eqn:Hothers.
  - cbn [fmap list_fmap length Nat.ltb Nat.leb].
    assert (namedCells header = []) as Hnone.
    { destruct (namedCells header) as [|[i name] cells]; [done|].
      exfalso. rewrite filter_cons in Hnormal, Hothers.
      cbn [snd] in Hnormal, Hothers. destruct (isNumbered name); cbn [negb] in *.
      - by rewrite decide_True in Hothers.
      - by rewrite decide_True in Hnormal. }
    rewrite (fold_select (fun _ => true)). fold (namedCells header).
    rewrite Hnone. done.
  - cbn [fmap list_fmap length Nat.ltb Nat.leb].
    rewrite (fold_select (fun name => negb (isCol0 name) && isNumbered name)).
    fold (namedCells header). cbn [app].
    destruct (filter (fun c => negb (isCol0 c.2) && isNumbered c.2 = true)
                (namedCells header)) as [|n numbered]; [|done].
    cbn [fmap list_fmap length Nat.eqb].
    rewrite (fold_select (fun _ => true)). fold (namedCells header).
    cbn [app]. by rewrite filter_all.
Qed.

End Columns.

Section Cells.

Implicit Types (header l : Row) (cs : list (nat * gostring)).

Lemma cells_from (k : nat) l :
  Forall (fun c => (k <= c.1)%nat /\ l !! (c.1 - k)%nat = Some (Some c.2))
    (omap cellName (combine (seq k (length l)) l))
  /\ StronglySorted lt (omap cellName (combine (seq k (length l)) l)).*1.
Proof.
  revert k. induction l as [|data l IH]; intros k.
  - split; constructor.
  - destruct (IH (S k)) as [Hcells Hsorted].
    assert (Forall (fun c => (k <= c.1)%nat
                             /\ (data :: l) !! (c.1 - k)%nat = Some (Some c.2))
              (omap cellName (combine (seq (S k) (length l)) l))) as Hshift.
    { eapply Forall_impl; [exact Hcells|]. intros [i name] [Hi Hname].
      cbn [fst snd] in *. split; [lia|].
      replace (i - k)%nat with (S (i - S k)) by lia. exact Hname. }
    destruct data as [name|].
    + change (omap cellName (combine (seq k (length (Some name :: l)))
                               (Some name :: l)))
        with ((k, name) :: omap cellName (combine (seq (S k) (length l)) l)).
      split.
      * constructor; [|exact Hshift]. cbn [fst snd]. split; [lia|].
        by rewrite Nat.sub_diag.
      * cbn [fmap list_fmap fst]. constructor; [exact Hsorted|].
        apply Forall_fmap. eapply Forall_impl; [exact Hcells|].
        intros [i n] [Hi _]. cbn [fst snd compose] in *. lia.
    + change (omap cellName (combine (seq k (length (None :: l))) (None :: l)))
        with (omap cellName (combine (seq (S k) (length l)) l)).
      split; [exact Hshift|exact Hsorted].
Qed.

Lemma namedCells_lookup header :
  Forall (fun c => header !! c.1 = Some (Some c.2)) (namedCells header).
Proof.
  eapply Forall_impl; [exact (proj1 (cells_from 0 header))|].
  intros [i name] [_ Hname]. cbn [fst snd] in *.
  by rewrite Nat.sub_0_r in Hname.
Qed.

Lemma namedCells_sorted header : StronglySorted lt (namedCells header).*1.
Proof. exact (proj2 (cells_from 0 header)). Qed.

Lemma namedCells_names header : (namedCells header).*2 = columnNames header.
Proof.
  unfold namedCells, columnNames, indexed. generalize 0%nat.
  induction header as [|[name|] header IH]; intros k; [done| |].
  - simpl. f_equal. apply IH.
  - apply IH.
Qed.

Lemma filter_sorted (P : nat * gostring -> Prop) `{!forall c, Decision (P c)} cs :
  StronglySorted lt cs.*1 -> StronglySorted lt (filter P cs).*1.
Proof.
  induction cs as [|c cs IH]; [done|].
  cbn [fmap list_fmap]. intros Hsorted.
  apply StronglySorted_inv in Hsorted as [Hrest Hc].
  rewrite filter_cons. destruct (decide (P c)); [|by apply IH].
  cbn [fmap list_fmap]. constructor; [by apply IH|].
  apply Forall_fmap, Forall_forall. intros x Hx.
  rewrite Forall_forall in Hc. apply Hc.
  apply list_elem_of_fmap_2. by apply list_elem_of_filter in Hx as [_ Hx].
Qed.

Lemma filter_names (keep : gostring -> bool) cs :
  (filter (fun c => keep c.2 = true) cs).*2
  = filter (fun name => keep name = true) cs.*2.
Proof.
  induction cs as [|[i name] cs IH]; [done|].
  cbn [fmap list_fmap snd]. rewrite !filter_cons. cbn [snd].
  destruct (decide (keep name = true)); cbn [fmap list_fmap snd];
    by rewrite IH.
Qed.

Lemma chosenCells_filter header :
  exists keep : gostring -> bool,
    chosenCells header = filter (fun c => keep c.2 = true) (namedCells header).
Proof.
  unfold chosenCells.
  destruct (filter (fun c => negb (isNumbered c.2) = true) (namedCells header))
    as [|c normal] eqn:Hnormal.
  - destruct (filter (fun c => negb (isCol0 c.2) && isNumbered c.2 = true)
                (namedCells header)) as [|n numbered] eqn:Hnumbered.
    + exists (fun _ => true). by rewrite filter_all.
    + exists (fun name => negb (isCol0 name) && isNumbered name).
      by rewrite Hnumbered.
  - exists (fun name => negb (isNumbered name)). by rewrite Hnormal.
Qed.

End Cells.

(** X8. Every column that selectColumns picks is a named cell of the header
    row: the i-th index points at the cell that holds the i-th name, and
    the indices increase strictly, so the columns keep their order and
    none is shown twice. *)
Theorem selectColumns_points_at_names (header : Row) :
  Forall2 (fun name i => header !! i = Some (Some name))
    (selectColumns header).1 (selectColumns header).2
  /\ StronglySorted lt (selectColumns header).2.
Proof.
  rewrite selectColumns_chosen. cbn [fst snd].
  destruct (chosenCells_filter header) as [keep ->]. split.
  - apply Forall2_fmap. apply Forall_Forall2_diag.
    apply Forall_forall. intros c Hc.
    apply list_elem_of_filter in Hc as [_ Hc].
    pose proof (namedCells_lookup header) as Hall.
    rewrite Forall_forall in Hall. by apply Hall.
  - apply filter_sorted, namedCells_sorted.
Qed.

Lemma filter_nil_iff {A} (P : A -> Prop) `{!forall x, Decision (P x)} (l : list A) :
  filter P l = [] <-> Forall (fun x => ¬ P x) l.
Proof.
  induction l as [|x l IH]; [by split; [constructor|]|].
  rewrite filter_cons. destruct (decide (P x)).
  - split; [done|]. by intros [? _]%Forall_cons.
  - rewrite IH. split; [by constructor|]. by intros [_ ?]%Forall_cons.
Qed.

Lemma filter_agree {A} (P Q : A -> Prop) `{!forall x, Decision (P x)}
    `{!forall x, Decision (Q x)} (l : list A) :
  Forall (fun x => P x <-> Q x) l -> filter P l = filter Q l.
Proof.
  induction 1 as [|x l Hx _ IH]; [done|].
  rewrite !filter_cons, IH.
  destruct (decide (P x)), (decide (Q x)); tauto.
Qed.

Lemma chosenCells_nil (header : Row) :
  chosenCells header = [] <-> columnNames header = [].
Proof.
  rewrite <- namedCells_names. unfold chosenCells.
  destruct (filter (fun c => negb (isNumbered c.2) = true) (namedCells header))
    as [|c normal] eqn:Hnormal.
  - destruct (filter (fun c => negb (isCol0 c.2) && isNumbered c.2 = true)
                (namedCells header)) as [|n numbered] eqn:Hnumbered.
    + by destruct (namedCells header).
    + split; [done|]. intros Hnone.
      destruct (namedCells header); [|done]. by rewrite filter_nil in Hnumbered.
  - split; [done|]. intros Hnone.
    destruct (namedCells header); [|done]. by rewrite filter_nil in Hnormal.
Qed.

(** X9. Which columns are shown: when some name of the header does not
    start with _col, exactly the names that do not start with _col; when
    every name starts with _col and some name differs from _col0, exactly
    the names other than _col0; when every name is _col0, all of them.
    The table of a non-empty result is replaced by "No displayable columns
    found" exactly when no cell of the header row holds a name. *)
Theorem selectColumns_priority (header : Row) (data : list Row) :
  let names := columnNames header in
  let headers := (selectColumns header).1 in
  (existsb (fun name => negb (isNumbered name)) names = true ->
   headers = filter (fun name => negb (isNumbered name) = true) names)
  /\ (forallb isNumbered names = true ->
      existsb (fun name => negb (isCol0 name)) names = true ->
      headers = filter (fun name => negb (isCol0 name) = true) names)
  /\ (forallb isCol0 names = true -> headers = names)
  /\ (formatAthenaResults (header :: data) = bs "No displayable columns found"
      <-> names = []).
Proof.
  intros names headers.
  assert (headers = (chosenCells header).*2) as Hheaders.
  { subst headers. by rewrite selectColumns_chosen. }
  assert (forall keep : gostring -> bool,
            (filter (fun c => keep c.2 = true) (namedCells header)).*2
            = filter (fun name => keep name = true) names) as Hkeep.
  { intros keep. by rewrite filter_names, namedCells_names. }
  pose proof (Hkeep (fun name => negb (isNumbered name))) as Hnormal.
  pose proof (Hkeep (fun name => negb (isCol0 name) && isNumbered name))
    as Hnumbered.
  cbn beta in Hnormal, Hnumbered.
  assert (forallb isNumbered names = true ->
          filter (fun c => negb (isNumbered c.2) = true) (namedCells header) = [])
    as Hhidden.
  { intros Hall. apply fmap_nil_inv with (f := snd). rewrite Hnormal.
    apply filter_nil_iff, Forall_forall. intros name Hin.
    apply list_elem_of_In in Hin.
    rewrite forallb_forall in Hall. by rewrite (Hall name Hin). }
  split; [|split; [|split]].
  - intros Hsome. unfold chosenCells in Hheaders.
    destruct (filter (fun c => negb (isNumbered c.2) = true) (namedCells header))
      as [|c normal]; [|by rewrite Hheaders, <- Hnormal].
    exfalso. symmetry in Hnormal. cbn [fmap list_fmap] in Hnormal.
    apply filter_nil_iff in Hnormal. rewrite Forall_forall in Hnormal.
    apply existsb_exists in Hsome as (name & Hin & Hname).
    apply list_elem_of_In in Hin. by apply (Hnormal name).
  - intros Hall Hsome. unfold chosenCells in Hheaders.
    rewrite (Hhidden Hall) in Hheaders.
    assert (filter (fun name => negb (isCol0 name) && isNumbered name = true) names
            = filter (fun name => negb (isCol0 name) = true) names) as Hsame.
    { apply filter_agree, Forall_forall. intros name Hin.
      apply list_elem_of_In in Hin.
      rewrite forallb_forall in Hall. rewrite (Hall name Hin).
      by rewrite andb_true_r. }
    rewrite Hsame in Hnumbered.
    destruct (filter (fun c => negb (isCol0 c.2) && isNumbered c.2 = true)
                (namedCells header)) as [|n numbered];
      [|by rewrite Hheaders, <- Hnumbered].
    exfalso. symmetry in Hnumbered. cbn [fmap list_fmap] in Hnumbered.
    apply filter_nil_iff in Hnumbered. rewrite Forall_forall in Hnumbered.
    apply existsb_exists in Hsome as (name & Hin & Hname).
    apply list_elem_of_In in Hin. by apply (Hnumbered name).
  - intros Hall. unfold chosenCells in Hheaders.
    assert (forallb isNumbered names = true) as Hnum.
    { apply forallb_forall. intros name Hin.
      rewrite forallb_forall in Hall. specialize (Hall name Hin).
      apply bool_decide_eq_true_1 in Hall. by subst name. }
    rewrite (Hhidden Hnum) in Hheaders.
    assert (filter (fun c => negb (isCol0 c.2) && isNumbered c.2 = true)
              (namedCells header) = []) as Hnone.
    { apply fmap_nil_inv with (f := snd). rewrite Hnumbered.
      apply filter_nil_iff, Forall_forall. intros name Hin.
      apply list_elem_of_In in Hin.
      rewrite forallb_forall in Hall. by rewrite (Hall name Hin). }
    rewrite Hnone in Hheaders. by rewrite Hheaders, namedCells_names.
  - unfold names. rewrite <- (chosenCells_nil header). split.
    + intros Hnone.
      destruct (chosenCells header) as [|c chosen] eqn:Hchosen; [done|].
      exfalso. rewrite formatAthenaResults_window in Hnone.
      * discriminate Hnone.
      * fold headers. by rewrite Hheaders.
    + intros Hnone. unfold formatAthenaResults.
      rewrite selectColumns_chosen, Hnone. done.
Qed.

Lemma selectColumns_priority_witness :
  (selectColumns numberedHeader).1 = [bs "_col1"; bs "_col2"]
  /\ (formatAthenaResults [[None; None]] = bs "No displayable columns found").
Proof.
  destruct (selectColumns_priority numberedHeader []) as (_ & Hnumbered & _).
  destruct (selectColumns_priority [None; None] []) as (_ & _ & _ & Hnone).
  split.
  - apply Hnumbered; reflexivity.
  - apply Hnone. reflexivity.
Defined.

(** X10. The table of formatAthenaResults has one line for each of the first
    19 data rows: with at most 19 data rows every row is rendered and no
    note is added, with 20 or more the note on the 20-row limit follows
    the 19th data row. *)
Theorem formatAthenaResults_rows_shown (header : Row) (data : list Row) :
  (selectColumns header).1 <> [] ->
  ((length data <= 19)%nat ->
   formatAthenaResults (header :: data)
   = tableOf (selectColumns header).1 (selectColumns header).2 data
     ++ codeFence)
  /\ ((20 <= length data)%nat ->
      formatAthenaResults (header :: data)
      = tableOf (selectColumns header).1 (selectColumns header).2
          (take 19 data)
        ++ truncationNote ++ codeFence).
Proof.
  intros Hcols. rewrite (formatAthenaResults_window header data Hcols). split.
  - intros Hlen. rewrite take_ge by lia.
    by rewrite (proj2 (Nat.leb_gt _ _)) by lia.
  - intros Hlen. by rewrite (proj2 (Nat.leb_le _ _)) by lia.
Qed.

Lemma formatAthenaResults_rows_shown_witness :
  formatAthenaResults ([Some (bs "name")] :: sample60)
  = tableOf [bs "name"] [0%nat] (take 19 sample60)
    ++ truncationNote ++ codeFence.
Proof.
  apply (formatAthenaResults_rows_shown [Some (bs "name")] sample60).
  - discriminate.
  - vm_compute. lia.
Defined.

Lemma formatResultsForAnalysis_window (header : Row) (data : list Row) :
  (selectColumns header).1 <> [] ->
  formatResultsForAnalysis (header :: data)
  = tableLines (selectColumns header).1 (selectColumns header).2
      (take 49 data)
    ++ (if (50 <=? length data)%nat then rowsLeftOut (length data - 49) else []).
Proof.
  intros Hcols. unfold formatResultsForAnalysis, tableLines, columnWidths.
  destruct (selectColumns header) as [headers colIndices]. simpl in Hcols.
  assert ((length headers =? 0)%nat = false) as ->.
  { apply Nat.eqb_neq. by destruct headers. }
  cbn [fst snd length].
  set (maxRows := min (S (length data)) 50).
  assert (maxRows = if (50 <=? length data)%nat then 50%nat else S (length data))
    as HmaxRows.
  { subst maxRows. unfold min.
    destruct (S (length data) <? 50)%nat eqn:Hlt;
      [apply Nat.ltb_lt in Hlt|apply Nat.ltb_ge in Hlt];
      (destruct (50 <=? length data)%nat eqn:Hle;
       [apply Nat.leb_le in Hle|apply Nat.leb_gt in Hle]); lia. }
  assert (take (maxRows - 1) data = take 49 data) as Htake.
  { rewrite HmaxRows. destruct (50 <=? length data)%nat eqn:Hle; [done|].
    apply Nat.leb_gt in Hle. by rewrite !take_ge by (simpl; lia). }
  assert (1 + (maxRows - 1) <= length (header :: data))%nat as Hin.
  { rewrite HmaxRows. cbn [length].
    destruct (50 <=? length data)%nat eqn:Hle;
      [apply Nat.leb_le in Hle|apply Nat.leb_gt in Hle]; lia. }
  rewrite !(fold_left_indices _ (header :: data) 1 (maxRows - 1)) by exact Hin.
  cbn [drop]. rewrite drop_0, Htake.
  rewrite (fold_left_append _ (renderRow colIndices _)) by done.
  rewrite (fold_left_append _ (fun width => Repeat "-" (width + 2))) by done.
  rewrite (fold_left_append _
             (fun '(i, header0) => padRight (widthAt _ i + 2) header0))
    by (by intros sb [i h]).
  rewrite HmaxRows. destruct (50 <=? length data)%nat eqn:Hle.
  - apply Nat.leb_le in Hle.
    rewrite (proj2 (Nat.ltb_lt _ _)) by lia.
    replace (S (length data) - 50)%nat with (length data - 49)%nat by lia.
    unfold rowsLeftOut. cbn [app]. by rewrite <- !app_assoc.
  - rewrite Nat.ltb_irrefl. cbn [app]. by rewrite <- !app_assoc, app_nil_r.
Qed.

(** X11. formatResultsForAnalysis renders the same table as
    formatAthenaResults, without the code fences, for the first 49 data
    rows; when there are 50 or more it ends with the number of data rows
    left out.  For a result of at most 19 data rows the text sent to Slack
    is the text given to the analysis between two code fences. *)
Theorem formatResultsForAnalysis_same_table (header : Row) (data : list Row) :
  (selectColumns header).1 <> [] ->
  formatResultsForAnalysis (header :: data)
  = tableLines (selectColumns header).1 (selectColumns header).2
      (take 49 data)
    ++ (if (50 <=? length data)%nat then rowsLeftOut (length data - 49) else [])
  /\ ((length data <= 19)%nat ->
      formatAthenaResults (header :: data)
      = codeFence ++ formatResultsForAnalysis (header :: data) ++ codeFence).
Proof.
  intros Hcols. split; [by apply formatResultsForAnalysis_window|].
  intros Hlen.
  rewrite (formatResultsForAnalysis_window header data Hcols).
  rewrite (formatAthenaResults_window header data Hcols).
  rewrite !take_ge by lia.
  rewrite (proj2 (Nat.leb_gt 20 _)) by lia.
  rewrite (proj2 (Nat.leb_gt 50 _)) by lia.
  unfold tableOf, tableLines. by rewrite app_nil_r, <- !app_assoc.
Qed.

Lemma formatResultsForAnalysis_same_table_witness :
  formatResultsForAnalysis ([Some (bs "name")] :: sample60)
  = tableLines [bs "name"] [0%nat] (take 49 sample60) ++ rowsLeftOut 11.
Proof.
  apply (formatResultsForAnalysis_same_table [Some (bs "name")] sample60).
  discriminate.
Defined.

(** ** Counting runes *)

Section RuneCounts.

Implicit Types (s t v : gostring) (a c : ascii).

Lemma runeCountFrom_skip (k : nat) s :
  runeCountFrom k s = runeCountFrom 0 (drop k s).
Proof.
  revert k. induction s as [|c s IH]; intros [|k]; try done.
  cbn [runeCountFrom drop]. apply IH.
Qed.

Lemma inRange_ascii (lo hi : N) a :
  (128 <= lo)%N -> isASCII a = true -> inRange lo hi (code a) = false.
Proof.
  unfold isASCII, RuneSelf, inRange. intros Hlo Ha%N.ltb_lt.
  apply andb_false_iff. left. apply N.leb_gt. lia.
Qed.

Lemma runeWidth_bounds c s : (1 <= runeWidth (c :: s) <= length (c :: s))%nat.
Proof.
  unfold runeWidth. cbn [map length].
  destruct (code c <? 128)%N; [lia|].
  repeat match goal with
         | |- context [if ?b then _ else _] => destruct b
         end;
    destruct s as [|c1 [|c2 [|c3 s]]]; cbn [map length];
    repeat match goal with
           | |- context [if ?b then _ else _] => destruct b
           end; lia.
Qed.

Lemma runeWidth_app c s a t :
  isASCII a = true -> runeWidth ((c :: s) ++ a :: t) = runeWidth (c :: s).
Proof.
  intros Ha. unfold runeWidth. cbn [map app].
  destruct (code c <? 128)%N; [done|].
  assert (forall lo hi, (128 <= lo)%N -> inRange lo hi (code a) = false) as Hout
    by (intros; by apply inRange_ascii).
  repeat match goal with
         | |- context [if ?b then _ else _] => destruct b
         end;
    destruct s as [|c1 [|c2 [|c3 s]]]; cbn [map app];
    rewrite ?Hout by lia; rewrite ?andb_false_r; try done;
    repeat match goal with
           | |- context [if ?b then _ else _] => destruct b
           end; try done;
    by destruct t as [|t1 [|t2 t]].
Qed.

Lemma RuneCountInString_cons c s :
  RuneCountInString (c :: s)
  = S (RuneCountInString (drop (runeWidth (c :: s)) (c :: s))).
Proof.
  unfold RuneCountInString. cbn [runeCountFrom].
  rewrite runeCountFrom_skip. f_equal. f_equal.
  pose proof (runeWidth_bounds c s) as Hw.
  destruct (runeWidth (c :: s)) as [|w]; [lia|]. done.
Qed.

Lemma RuneCountInString_app s a t :
  isASCII a = true ->
  RuneCountInString (s ++ a :: t)
  = (RuneCountInString s + RuneCountInString (a :: t))%nat.
Proof.
  intros Ha. remember (length s) as n eqn:Hn. revert s Hn.
  induction n as [n IH] using lt_wf_ind. intros [|c s] Hn; [done|].
  change ((c :: s) ++ a :: t) with (c :: s ++ a :: t).
  rewrite (RuneCountInString_cons c (s ++ a :: t)), (RuneCountInString_cons c s).
  change (c :: s ++ a :: t) with ((c :: s) ++ a :: t).
  rewrite (runeWidth_app c s a t Ha).
  pose proof (runeWidth_bounds c s) as Hw.
  rewrite drop_app_le by lia.
  rewrite (IH (length (drop (runeWidth (c :: s)) (c :: s)))); [done| |done].
  rewrite length_drop. subst n. lia.
Qed.

Lemma RuneCountInString_le s : (RuneCountInString s <= length s)%nat.
Proof.
  remember (length s) as n eqn:Hn. revert s Hn.
  induction n as [n IH] using lt_wf_ind. intros [|c s] Hn; [cbn; lia|].
  rewrite RuneCountInString_cons.
  pose proof (runeWidth_bounds c s) as Hw.
  assert (length (drop (runeWidth (c :: s)) (c :: s)) < n)%nat as Hless
    by (rewrite length_drop; subst n; lia).
  specialize (IH _ Hless _ eq_refl). rewrite length_drop in IH. lia.
Qed.

Lemma RuneCountInString_repeat a (n : nat) :
  isASCII a = true -> RuneCountInString (repeat a n) = n.
Proof.
  intros Ha. induction n as [|n IH]; [done|].
  cbn [repeat]. rewrite RuneCountInString_cons.
  assert (runeWidth (a :: repeat a n) = 1%nat) as ->.
  { unfold runeWidth. cbn [map]. unfold isASCII, RuneSelf in Ha. by rewrite Ha. }
  cbn [drop]. by rewrite drop_0, IH.
Qed.

(** A text that fits is padded to exactly the width, in runes. *)
Lemma padRight_width (width : nat) v :
  (RuneCountInString v <= width)%nat ->
  RuneCountInString (padRight width v) = width.
Proof.
  intros Hfits. unfold padRight, Repeat.
  destruct (width - RuneCountInString v)%nat as [|n] eqn:Hpad.
  - cbn [repeat]. rewrite app_nil_r. lia.
  - cbn [repeat]. rewrite RuneCountInString_app by done.
    change (" "%char :: repeat " "%char n) with (repeat " "%char (S n)).
    rewrite RuneCountInString_repeat by done. lia.
Qed.

End RuneCounts.

(** ** The widths of the columns *)

Section Widths.

Implicit Types (ws colWidths colIndices : list nat) (row : Row).

Lemma widenRow_fold colIndices ws row :
  widenRow colIndices ws row = fold_left (widen row) (indexed colIndices) ws.
Proof.
  unfold widenRow. generalize (indexed colIndices) as cells. intros cells.
  revert ws. induction cells as [|[a b] cells IH]; intros ws; [done|].
  cbn [fold_left]. apply IH.
Qed.

Lemma widen_grows row ws cell :
  length (widen row ws cell) = length ws
  /\ forall j, (widthAt ws j <= widthAt (widen row ws cell) j)%nat.
Proof.
  unfold widen. destruct (row !! cell.2) as [[value|]|]; try (split; [done|lia]).
  destruct (ws !! cell.1) as [w|] eqn:Hw; [|split; [done|lia]].
  destruct (w <? length value)%nat eqn:Hlt; [|split; [done|lia]].
  apply Nat.ltb_lt in Hlt. split; [apply length_insert|].
  intros j. unfold widthAt. destruct (decide (cell.1 = j)) as [<-|Hne].
  - rewrite list_lookup_insert_eq by (by eapply lookup_lt_Some).
    rewrite Hw. simpl. lia.
  - by rewrite list_lookup_insert_ne.
Qed.

Lemma widen_covers row ws cell value :
  (cell.1 < length ws)%nat -> row !! cell.2 = Some (Some value) ->
  (length value <= widthAt (widen row ws cell) cell.1)%nat.
Proof.
  intros Hin Hvalue. unfold widen, widthAt. rewrite Hvalue.
  destruct (lookup_lt_is_Some_2 ws cell.1 Hin) as [w Hw]. rewrite Hw.
  destruct (w <? length value)%nat eqn:Hlt.
  - by rewrite list_lookup_insert_eq.
  - apply Nat.ltb_ge in Hlt. by rewrite Hw.
Qed.

Lemma fold_widen_grows row (cells : list (nat * nat)) ws :
  length (fold_left (widen row) cells ws) = length ws
  /\ forall j, (widthAt ws j <= widthAt (fold_left (widen row) cells ws) j)%nat.
Proof.
  revert ws. induction cells as [|cell cells IH]; intros ws;
    [split; [done|intros; cbn [fold_left]; lia]|].
  cbn [fold_left]. destruct (IH (widen row ws cell)) as [Hlen Hmono].
  destruct (widen_grows row ws cell) as [Hlen' Hmono'].
  split; [congruence|]. intros j. specialize (Hmono j). specialize (Hmono' j). lia.
Qed.

Lemma fold_widen_covers row (cells : list (nat * nat)) ws cell value :
  cell ∈ cells -> (cell.1 < length ws)%nat ->
  row !! cell.2 = Some (Some value) ->
  (length value <= widthAt (fold_left (widen row) cells ws) cell.1)%nat.
Proof.
  revert ws. induction cells as [|c cells IH]; intros ws Hin Hlt Hvalue.
  - by apply elem_of_nil in Hin.
  - cbn [fold_left]. apply elem_of_cons in Hin as [<-|Hin].
    + pose proof (widen_covers row ws cell value Hlt Hvalue) as Hnow.
      destruct (fold_widen_grows row cells (widen row ws cell)) as [_ Hmono].
      specialize (Hmono cell.1). lia.
    + apply IH; [done| |done].
      by rewrite (proj1 (widen_grows row ws c)).
Qed.

Lemma fold_widenRow_grows colIndices (window : list Row) ws :
  length (fold_left (widenRow colIndices) window ws) = length ws
  /\ forall j, (widthAt ws j
                <= widthAt (fold_left (widenRow colIndices) window ws) j)%nat.
Proof.
  revert ws. induction window as [|row window IH]; intros ws;
    [split; [done|intros; cbn [fold_left]; lia]|].
  cbn [fold_left]. destruct (IH (widenRow colIndices ws row)) as [Hlen Hmono].
  rewrite widenRow_fold in *.
  destruct (fold_widen_grows row (indexed colIndices) ws) as [Hlen' Hmono'].
  split; [congruence|]. intros j. specialize (Hmono j). specialize (Hmono' j).
  lia.
Qed.

Lemma fold_widenRow_covers colIndices (window : list Row) ws row cell value :
  row ∈ window -> cell ∈ indexed colIndices -> (cell.1 < length ws)%nat ->
  row !! cell.2 = Some (Some value) ->
  (length value
   <= widthAt (fold_left (widenRow colIndices) window ws) cell.1)%nat.
Proof.
  revert ws. induction window as [|r window IH]; intros ws Hrow Hcell Hlt Hvalue.
  - by apply elem_of_nil in Hrow.
  - cbn [fold_left]. apply elem_of_cons in Hrow as [<-|Hrow].
    + destruct (fold_widenRow_grows colIndices window
                  (widenRow colIndices ws row)) as [_ Hmono].
      specialize (Hmono cell.1). rewrite widenRow_fold in *.
      pose proof (fold_widen_covers row _ ws cell value Hcell Hlt Hvalue).
      lia.
    + apply IH; try done. rewrite widenRow_fold.
      by rewrite (proj1 (fold_widen_grows r (indexed colIndices) ws)).
Qed.

End Widths.

(** ** The width of a line *)

Section Lines.

Implicit Types (ws : list nat) (rest : gostring).

Lemma RuneCountInString_ascii_cons (a : ascii) rest :
  isASCII a = true ->
  RuneCountInString (a :: rest) = S (RuneCountInString rest).
Proof.
  intros Ha. rewrite RuneCountInString_cons.
  assert (runeWidth (a :: rest) = 1%nat) as ->.
  { unfold runeWidth. cbn [map]. unfold isASCII, RuneSelf in Ha. by rewrite Ha. }
  done.
Qed.

Lemma RuneCountInString_repeat_app (a : ascii) (n : nat) rest :
  isASCII a = true ->
  RuneCountInString (repeat a n ++ rest) = (n + RuneCountInString rest)%nat.
Proof.
  intros Ha. induction n as [|n IH]; [done|].
  cbn [repeat app]. rewrite RuneCountInString_ascii_cons by done.
  by rewrite IH.
Qed.

Lemma padRight_app (width : nat) (v : gostring) rest :
  (RuneCountInString v < width)%nat ->
  RuneCountInString (padRight width v ++ rest)
  = (width + RuneCountInString rest)%nat.
Proof.
  intros Hfits. unfold padRight, Repeat.
  destruct (width - RuneCountInString v)%nat as [|n] eqn:Hpad; [lia|].
  cbn [repeat]. rewrite <- app_assoc. cbn [app].
  rewrite RuneCountInString_app by done.
  rewrite RuneCountInString_ascii_cons by done.
  rewrite RuneCountInString_repeat_app by done. lia.
Qed.

Lemma padded_cells {B} (text : B -> gostring) (cells : list (nat * B)) ws rest :
  Forall (fun cell => (RuneCountInString (text cell.2) <= widthAt ws cell.1)%nat)
    cells ->
  RuneCountInString
    (concat (map (fun cell => padRight (widthAt ws cell.1 + 2) (text cell.2))
               cells) ++ rest)
  = (sum_list (map (fun i => widthAt ws i + 2)%nat cells.*1)
     + RuneCountInString rest)%nat.
Proof.
  induction 1 as [|cell cells Hcell _ IH]; [done|].
  cbn [map concat fmap list_fmap sum_list sum_list_with].
  rewrite <- app_assoc, padRight_app by lia. rewrite IH. unfold id. lia.
Qed.

Lemma indexed_indices {B} (l : list B) : (indexed l).*1 = seq 0 (length l).
Proof.
  unfold indexed. generalize 0%nat.
  induction l as [|x l IH]; intros k; [done|].
  cbn [length seq combine fmap list_fmap fst]. f_equal. apply IH.
Qed.

Lemma widthAt_seq ws : map (widthAt ws) (seq 0 (length ws)) = ws.
Proof.
  apply list_eq. intros i. rewrite list_lookup_fmap.
  destruct (ws !! i) as [w|] eqn:Hw.
  - rewrite lookup_seq_lt by (by eapply lookup_lt_Some).
    simpl. unfold widthAt. by rewrite Hw.
  - apply lookup_ge_None in Hw. by rewrite lookup_seq_ge.
Qed.

Lemma separatorLine_width ws :
  RuneCountInString (separatorLine ws)
  = S (sum_list (map (fun w => w + 2)%nat ws)).
Proof.
  unfold separatorLine.
  assert (forall rest,
            RuneCountInString
              (concat (map (fun width => Repeat "-" (width + 2)) ws) ++ rest)
            = (sum_list (map (fun w => w + 2)%nat ws)
               + RuneCountInString rest)%nat) as Hsep.
  { induction ws as [|w ws IH]; intros rest; [done|].
    cbn [map concat sum_list sum_list_with]. rewrite <- app_assoc.
    unfold Repeat at 1. rewrite RuneCountInString_repeat_app by done.
    rewrite IH. unfold id. lia. }
  rewrite Hsep. change (RuneCountInString newline) with 1%nat. lia.
Qed.

Lemma line_width (n : nat) ws :
  n = length ws ->
  sum_list (map (fun i => widthAt ws i + 2)%nat (seq 0 n))
  = sum_list (map (fun w => w + 2)%nat ws).
Proof.
  intros ->.
  transitivity (sum_list (map (fun w => w + 2)%nat
                            (map (widthAt ws) (seq 0 (length ws))))).
  - by rewrite map_map.
  - by rewrite widthAt_seq.
Qed.

End Lines.

Lemma indexed_lookup {B} (l : list B) (i : nat) (x : B) :
  (i, x) ∈ indexed l -> l !! i = Some x.
Proof.
  unfold indexed.
  assert (forall k, (i, x) ∈ combine (seq k (length l)) l ->
                    (k <= i)%nat /\ l !! (i - k)%nat = Some x) as Hfrom.
  { induction l as [|y l IH]; intros k Hin; [by apply elem_of_nil in Hin|].
    cbn [length seq combine] in Hin. apply elem_of_cons in Hin as [[= -> ->]|Hin].
    - split; [lia|]. by rewrite Nat.sub_diag.
    - destruct (IH (S k) Hin) as [Hk Hx]. split; [lia|].
      replace (i - k)%nat with (S (i - S k)) by lia. exact Hx. }
  intros Hin. destruct (Hfrom 0%nat Hin) as [_ Hx].
  by rewrite Nat.sub_0_r in Hx.
Qed.

Lemma selectColumns_lengths (header : Row) :
  length (selectColumns header).1 = length (selectColumns header).2.
Proof. rewrite selectColumns_chosen. cbn [fst snd]. by rewrite !length_fmap. Qed.

(** X12. The columns of the table line up.  The table is the code fence, the
    header line, the separator line and one line per row of the window;
    counted in characters, the header line is as wide as the separator
    line, and so is the line of every row whose displayed cells all hold
    a value (the widths follow the values, not the NULL and N/A
    placeholders). *)
Theorem table_columns_line_up (header : Row) (window : list Row) :
  let headers := (selectColumns header).1 in
  let colIndices := (selectColumns header).2 in
  let colWidths := columnWidths headers colIndices window in
  tableOf headers colIndices window
  = codeFence ++ headerLine headers colWidths ++ separatorLine colWidths
    ++ concat (map (renderRow colIndices colWidths) window)
  /\ RuneCountInString (headerLine headers colWidths)
     = RuneCountInString (separatorLine colWidths)
  /\ (forall row, row ∈ window -> filled colIndices row ->
        RuneCountInString (renderRow colIndices colWidths row)
        = RuneCountInString (separatorLine colWidths)).
Proof.
  intros headers colIndices colWidths.
  pose proof (selectColumns_lengths header) as Hlengths.
  fold headers colIndices in Hlengths.
  destruct (fold_widenRow_grows colIndices window (map (@length ascii) headers))
    as [Hlen Hmono].
  fold (columnWidths headers colIndices window) in Hlen, Hmono.
  fold colWidths in Hlen, Hmono. rewrite length_map in Hlen.
  split; [|split].
  - unfold tableOf, headerLine, separatorLine. fold colWidths.
    by rewrite <- !app_assoc.
  - unfold headerLine.
    assert (map (fun '(i, header0) => padRight (widthAt colWidths i + 2) header0)
              (indexed headers)
            = map (fun cell => padRight (widthAt colWidths cell.1 + 2) (id cell.2))
                (indexed headers)) as ->
      by (apply map_ext; by intros [i h]).
    rewrite padded_cells.
    + rewrite indexed_indices, (line_width _ colWidths) by done.
      by rewrite separatorLine_width, Nat.add_comm.
    + apply Forall_forall. intros [i h] Hin. cbn [fst snd id].
      apply indexed_lookup in Hin.
      pose proof (RuneCountInString_le h) as Hrunes.
      specialize (Hmono i). unfold widthAt at 1 in Hmono.
      rewrite list_lookup_fmap, Hin in Hmono. simpl in Hmono. lia.
  - intros row Hrow Hfilled. unfold renderRow.
    assert (map (fun '(colIndex, colIdx) =>
                   padRight (widthAt colWidths colIndex + 2) (cellText row colIdx))
              (indexed colIndices)
            = map (fun cell => padRight (widthAt colWidths cell.1 + 2)
                                 (cellText row cell.2))
                (indexed colIndices)) as ->
      by (apply map_ext; by intros [i h]).
    rewrite padded_cells.
    + rewrite indexed_indices, (line_width _ colWidths) by congruence.
      by rewrite separatorLine_width, Nat.add_comm.
    + apply Forall_forall. intros [colIndex colIdx] Hin. cbn [fst snd].
      pose proof (indexed_lookup _ _ _ Hin) as Hidx.
      unfold filled in Hfilled. rewrite Forall_forall in Hfilled.
      destruct (Hfilled colIdx) as [value Hvalue].
      { by eapply list_elem_of_lookup_2. }
      unfold cellText. rewrite Hvalue.
      pose proof (RuneCountInString_le value) as Hrunes.
      pose proof (fold_widenRow_covers colIndices window
                    (map (@length ascii) headers) row (colIndex, colIdx) value
                    Hrow Hin) as Hcovers.
      cbn [fst snd] in Hcovers. rewrite length_map in Hcovers.
      apply lookup_lt_Some in Hidx.
      specialize (Hcovers ltac:(lia) Hvalue).
      fold (columnWidths headers colIndices window) in Hcovers.
      fold colWidths in Hcovers. lia.
Qed.

Lemma table_columns_line_up_witness :
  RuneCountInString
    (renderRow [0%nat] (columnWidths [bs "name"] [0%nat] sample60)
       [Some (bs "r07")])
  = RuneCountInString
      (separatorLine (columnWidths [bs "name"] [0%nat] sample60)).
Proof.
  apply (table_columns_line_up [Some (bs "name")] sample60).
  - apply list_elem_of_In. vm_compute. tauto.
  - constructor; [|constructor]. by eexists.
Defined.

(** ** The rewriter: quotes, first clauses and year bounds *)

(** ** A query without quotes *)

Section Quotes.

Implicit Types (re : list node) (s m pre post : gostring).

Lemma forallb_rev {A} (f : A -> bool) (l : list A) :
  forallb f (rev l) = forallb f l.
Proof.
  induction l as [|x l IH]; [done|].
  cbn [rev forallb]. rewrite forallb_app, IH. cbn [forallb].
  rewrite andb_true_r. apply andb_comm.
Qed.

Lemma matches_app re1 re2 m1 m2 gs1 gs2 :
  matches re1 m1 gs1 -> matches re2 m2 gs2 ->
  matches (re1 ++ re2) (m1 ++ m2) (gs1 ++ gs2).
Proof.
  induction 1 as [|l re m gs _ IH|cls re w m gs Hw Hcls _ IH
                  |cls re w m gs Hw Hcls _ IH]; intros H2.
  - done.
  - rewrite <- !app_assoc. cbn [app]. constructor. by apply IH.
  - rewrite <- !app_assoc. cbn [app]. constructor; try done. by apply IH.
  - rewrite <- !app_assoc. cbn [app]. constructor; try done. by apply IH.
Qed.

Lemma matches_app_inv re1 re2 m gs :
  matches (re1 ++ re2) m gs ->
  exists m1 m2 gs1 gs2,
    m = m1 ++ m2 /\ gs = gs1 ++ gs2
    /\ matches re1 m1 gs1 /\ matches re2 m2 gs2.
Proof.
  revert m gs. induction re1 as [|n re1 IH]; intros m gs Hm.
  - exists [], m, [], gs. repeat split; try done. constructor.
  - cbn [app] in Hm. inversion Hm as [|l re m' gs' Hrest|cls re w m' gs' Hw Hcls Hrest
                                      |cls re w m' gs' Hw Hcls Hrest]; subst;
      destruct (IH _ _ Hrest) as (m1 & m2 & gs1 & gs2 & -> & -> & H1 & H2).
    + exists (l ++ m1), m2, gs1, gs2. rewrite <- app_assoc.
      repeat split; try done. by constructor.
    + exists (w ++ m1), m2, gs1, gs2. rewrite <- app_assoc.
      repeat split; try done. by constructor.
    + exists (w ++ m1), m2, (w :: gs1), gs2. rewrite <- app_assoc.
      repeat split; try done. by constructor.
Qed.

Lemma matches_rev re m gs :
  matches re m gs -> matches (revNodes re) (rev m) (rev (map (@rev ascii) gs)).
Proof.
  unfold revNodes.
  induction 1 as [|l re m gs _ IH|cls re w m gs Hw Hcls _ IH
                  |cls re w m gs Hw Hcls _ IH]; cbn [map rev].
  - constructor.
  - rewrite rev_app_distr. rewrite <- (app_nil_r (rev (map _ gs))).
    apply matches_app; [done|].
    rewrite <- (app_nil_r (rev l)). apply matches_Lit, matches_nil.
  - rewrite rev_app_distr. rewrite <- (app_nil_r (rev (map _ gs))).
    apply matches_app; [done|].
    rewrite <- (app_nil_r (rev w)).
    apply matches_Plus; [|by rewrite forallb_rev|apply matches_nil].
    intros Hnil. apply Hw. by rewrite <- (rev_involutive w), Hnil.
  - rewrite rev_app_distr.
    apply matches_app; [done|].
    rewrite <- (app_nil_r (rev w)) at 1.
    apply matches_Group; [|by rewrite forallb_rev|apply matches_nil].
    intros Hnil. apply Hw. by rewrite <- (rev_involutive w), Hnil.
Qed.

Lemma class_quoteFree (cls : ascii -> bool) (w : gostring) :
  negb (cls "'"%char) = true -> forallb cls w = true ->
  forallb notQuote w = true.
Proof.
  intros Hn Hcls. apply forallb_forall. intros c Hc.
  rewrite forallb_forall in Hcls. specialize (Hcls c Hc). unfold notQuote.
  destruct (Ascii.eqb_spec c "'"%char) as [->|]; [|done].
  by rewrite Hcls in Hn.
Qed.

Lemma matches_quoteFree re m gs :
  forallb quoteFree re = true -> matches re m gs -> forallb notQuote m = true.
Proof.
  intros Hre Hm. induction Hm as [|l re m gs _ IH|cls re w m gs Hw Hcls _ IH
                                  |cls re w m gs Hw Hcls _ IH]; [done|..];
    cbn [forallb quoteFree] in Hre; apply andb_true_iff in Hre as [Hn Hre];
    rewrite forallb_app, (IH Hre), andb_true_r.
  - done.
  - by apply (class_quoteFree cls).
  - by apply (class_quoteFree cls).
Qed.

Lemma first_quote (u v x y : gostring) :
  forallb notQuote u = true -> forallb notQuote v = true ->
  u ++ bs "'" ++ x = v ++ bs "'" ++ y -> u = v /\ x = y.
Proof.
  revert v. induction u as [|a u IH]; intros [|b v]; cbn [forallb app].
  - by intros _ _ [= ->].
  - intros _ [Hb _]%andb_true_iff [= <- _]. done.
  - intros [Ha _]%andb_true_iff _ [= -> _]. done.
  - intros [_ Hu]%andb_true_iff [_ Hv]%andb_true_iff [= -> Heq].
    destruct (IH v Hu Hv Heq) as [-> ->]. done.
Qed.

(** No match starts before the text up to the first quote of the query
    matches the head of the pattern. *)
Lemma matchHere_before head tail (a : ascii) pre h x :
  forallb quoteFree head = true -> deterministic (revNodes head) = true ->
  forallb notQuote (a :: pre) = true ->
  matches head h [] ->
  matchHere (head ++ Lit (bs "'") :: tail) ((a :: pre) ++ h ++ bs "'" ++ x)
  = None.
Proof.
  intros Hfree Hdet Hpre Hh.
  destruct (matchHere _ _) as [[gs rest]|] eqn:Hmatch; [exfalso|done].
  apply matchHere_sound in Hmatch as (m & Heq & Hm).
  apply matches_app_inv in Hm as (h' & t & gs1 & gs2 & -> & -> & Hh' & Ht).
  inversion Ht as [|l re m' gs' Hrest| |]; subst.
  pose proof (matches_quoteFree _ _ _ Hfree Hh) as Hq.
  pose proof (matches_quoteFree _ _ _ Hfree Hh') as Hq'.
  rewrite app_assoc in Heq. rewrite <- !app_assoc in Heq.
  rewrite (app_assoc (a :: pre) h) in Heq.
  apply first_quote in Heq as [Heq _]; [|by rewrite forallb_app, Hpre, Hq|done].
  apply matches_rev in Hh, Hh'. rewrite <- Heq in Hh'.
  rewrite rev_app_distr in Hh'.
  destruct (matches_unique _ _ _ (rev (a :: pre)) _ _ [] Hdet Hh Hh') as [Hrev _].
  { by rewrite app_nil_r. }
  apply (f_equal (@length ascii)) in Hrev.
  rewrite length_app, !length_rev in Hrev. cbn [length] in Hrev. lia.
Qed.

Lemma noQuote_noMatch re1 re2 s :
  forallb notQuote s = true -> matchHere (re1 ++ Lit (bs "'") :: re2) s = None.
Proof.
  intros Hs. destruct (matchHere _ s) as [[gs rest]|] eqn:Hmatch; [exfalso|done].
  apply matchHere_sound in Hmatch as (m & -> & Hm).
  apply matches_app_inv in Hm as (m1 & m2 & gs1 & gs2 & -> & -> & _ & Hm2).
  inversion Hm2 as [|l re m' gs' Hrest| |]; subst.
  rewrite !forallb_app in Hs. cbn in Hs. by rewrite !andb_false_r in Hs.
Qed.

End Quotes.

(** ** The leftmost clause of a query *)

Section Leftmost.

Context (head tail : list node).
Context (Hfree : forallb quoteFree head = true).
Context (Hdet : deterministic (revNodes head) = true).

Let re := head ++ Lit (bs "'") :: tail.

Implicit Types (pre post h x whole : gostring) (gs : list gostring).

Lemma submatchHere_whole_match whole post gs :
  matchHere re (whole ++ post) = Some (gs, post) ->
  submatchHere re (whole ++ post) = Some (whole :: gs).
Proof.
  intros Hmatch. unfold submatchHere. rewrite Hmatch. cbn.
  rewrite length_app, Nat.add_sub, take_app_length. done.
Qed.

Lemma submatchHere_before (a : ascii) pre h x :
  forallb notQuote (a :: pre) = true -> matches head h [] ->
  submatchHere re ((a :: pre) ++ h ++ bs "'" ++ x) = None.
Proof.
  intros Hpre Hh. unfold submatchHere, re.
  by rewrite (matchHere_before head tail a pre h x Hfree Hdet Hpre Hh).
Qed.

Lemma FindStringSubmatch_leftmost pre h x post gs :
  forallb notQuote pre = true -> matches head h [] ->
  matchHere re ((h ++ bs "'" ++ x) ++ post) = Some (gs, post) ->
  FindStringSubmatch re (pre ++ (h ++ bs "'" ++ x) ++ post)
  = (h ++ bs "'" ++ x) :: gs.
Proof.
  intros Hpre Hh Hmatch. induction pre as [|a pre IH].
  - cbn [app]. apply FindStringSubmatch_here. by apply submatchHere_whole_match.
  - cbn [app FindStringSubmatch].
    pose proof (submatchHere_before a pre h (x ++ post) Hpre Hh) as Hnone.
    rewrite <- !app_assoc in *. cbn [app] in Hnone. rewrite Hnone.
    apply IH. by apply andb_true_iff in Hpre as [_ ?].
Qed.

Lemma replaceAllFrom_leftmost (repl : gostring -> gostring) pre h x post gs :
  forallb notQuote pre = true -> matches head h [] ->
  matchHere re ((h ++ bs "'" ++ x) ++ post) = Some (gs, post) ->
  replaceAllFrom re repl 0 (pre ++ (h ++ bs "'" ++ x) ++ post)
  = pre ++ repl (h ++ bs "'" ++ x) ++ replaceAllFrom re repl 0 post.
Proof.
  intros Hpre Hh Hmatch. induction pre as [|a pre IH].
  - pose proof (submatchHere_whole_match _ _ _ Hmatch) as Hsub.
    cbn [app]. destruct (h ++ bs "'" ++ x) as [|c whole] eqn:Hwhole.
    { by destruct h. }
    cbn [app replaceAllFrom]. cbn [app] in Hsub. rewrite Hsub.
    rewrite replaceAllFrom_skip. cbn [length Nat.pred].
    by rewrite drop_app_length.
  - cbn [app replaceAllFrom].
    pose proof (submatchHere_before a pre h (x ++ post) Hpre Hh) as Hnone.
    rewrite <- !app_assoc in *. cbn [app] in Hnone. rewrite Hnone.
    f_equal. apply IH. by apply andb_true_iff in Hpre as [_ ?].
Qed.

Lemma findAllFrom_leftmost pre h x post gs :
  forallb notQuote pre = true -> matches head h [] ->
  matchHere re ((h ++ bs "'" ++ x) ++ post) = Some (gs, post) ->
  findAllFrom re 0 (pre ++ (h ++ bs "'" ++ x) ++ post)
  = ((h ++ bs "'" ++ x) :: gs) :: findAllFrom re 0 post.
Proof.
  intros Hpre Hh Hmatch. induction pre as [|a pre IH].
  - pose proof (submatchHere_whole_match _ _ _ Hmatch) as Hsub.
    cbn [app]. destruct (h ++ bs "'" ++ x) as [|c whole] eqn:Hwhole.
    { by destruct h. }
    cbn [app findAllFrom]. cbn [app] in Hsub. rewrite Hsub.
    rewrite findAllFrom_skip. cbn [matchLength length Nat.pred].
    by rewrite drop_app_length.
  - cbn [app findAllFrom].
    pose proof (submatchHere_before a pre h (x ++ post) Hpre Hh) as Hnone.
    rewrite <- !app_assoc in *. cbn [app] in Hnone. rewrite Hnone.
    apply IH. by apply andb_true_iff in Hpre as [_ ?].
Qed.

Lemma FindStringSubmatch_noQuote s :
  forallb notQuote s = true -> FindStringSubmatch re s = [].
Proof.
  induction s as [|c s IH]; intros Hs; cbn [FindStringSubmatch];
    unfold submatchHere, re; rewrite (noQuote_noMatch head tail _ Hs);
    [done|].
  apply IH. by apply andb_true_iff in Hs as [_ ?].
Qed.

Lemma replaceAllFrom_noQuote (repl : gostring -> gostring) s :
  forallb notQuote s = true -> replaceAllFrom re repl 0 s = s.
Proof.
  induction s as [|c s IH]; intros Hs; [done|]. cbn [replaceAllFrom].
  unfold submatchHere, re. rewrite (noQuote_noMatch head tail _ Hs).
  cbn. f_equal. apply IH. by apply andb_true_iff in Hs as [_ ?].
Qed.

Lemma findAllFrom_noQuote s :
  forallb notQuote s = true -> findAllFrom re 0 s = [].
Proof.
  induction s as [|c s IH]; intros Hs; [done|]. cbn [findAllFrom].
  unfold submatchHere, re. rewrite (noQuote_noMatch head tail _ Hs).
  cbn. apply IH. by apply andb_true_iff in Hs as [_ ?].
Qed.

End Leftmost.

Lemma rewrites_forallb (ok : gostring -> gostring -> Prop)
    (P : ascii -> bool) (s t : gostring) :
  (forall m r, ok m r -> forallb P r = true) ->
  rewrites ok s t -> forallb P s = true -> forallb P t = true.
Proof.
  intros Hok. induction 1 as [|c s t _ IH|m r s t Hmr _ IH]; [done|..].
  - cbn [forallb]. intros [Hc Hs]%andb_true_iff. by rewrite Hc, IH.
  - rewrite !forallb_app. intros [_ Hs]%andb_true_iff.
    by rewrite (Hok m r Hmr), IH.
Qed.

Lemma TrimSpace_infix (s : gostring) :
  exists l r, s = l ++ TrimSpace s ++ r.
Proof.
  unfold TrimSpace, TrimRightSpace, TrimLeftSpace.
  assert (exists l, s = l ++ trimFrom spaceWidth 0 s) as [l Hl]
    by exact (trimFrom_suffix spaceRunes 0 s).
  set (s' := trimFrom spaceWidth 0 s) in *.
  assert (exists z, rev s' = z ++ trimFrom spaceWidthLast 0 (rev s')) as [z Hz]
    by exact (trimFrom_suffix (map (@rev ascii) spaceRunes) 0 (rev s')).
  exists l, (rev z). rewrite Hl at 1. f_equal.
  rewrite <- rev_app_distr, <- Hz. by rewrite rev_involutive.
Qed.

Lemma TrimSpace_forallb (P : ascii -> bool) (s : gostring) :
  forallb P s = true -> forallb P (TrimSpace s) = true.
Proof.
  destruct (TrimSpace_infix s) as (l & r & Hs). rewrite Hs at 1.
  rewrite !forallb_app. by intros [_ [? _]%andb_true_iff]%andb_true_iff.
Qed.

Lemma qualifyTables_noQuote (query : gostring) :
  forallb notQuote query = true -> forallb notQuote (qualifyTables query) = true.
Proof.
  intros Hq. unfold qualifyTables. destruct (negb _); [|done].
  assert (forall q old new,
            old <> [] -> forallb notQuote new = true ->
            forallb notQuote q = true ->
            forallb notQuote (Replace q old new (-1)) = true) as Hreplace.
  { intros q old new Hold Hnew. apply rewrites_forallb with
      (ok := fun m r => m = old /\ r = new).
    - by intros m r [_ ->].
    - by apply Replace_rewrites. }
  destruct (_ && _).
  - destruct (_ && _); [|by apply Hreplace].
    apply Hreplace; [done|done|]. by apply Hreplace.
  - destruct (_ && _); [|done]. by apply Hreplace.
Qed.

(** X13. A query without a quote is only trimmed and qualified: neither the
    cast of the time_dt bounds nor the expansion of year bounds changes
    it. *)
Theorem preprocessSqlQuery_without_quotes (query : gostring) :
  forallb notQuote query = true ->
  castBetween query = query
  /\ expandYears query = query
  /\ preprocessSqlQuery query = qualifyTables (TrimSpace query).
Proof.
  assert (forall q, forallb notQuote q = true ->
                    castBetween q = q /\ expandYears q = q) as Hsame.
  { intros q Hq. split.
    - unfold castBetween, MatchString.
      change betweenRegex with (betweenHead ++ Lit (bs "'") :: boundsTail).
      by rewrite FindStringSubmatch_noQuote.
    - unfold expandYears, FindAllStringSubmatch.
      change simpleRegex with (simpleHead ++ Lit (bs "'") :: boundsTail).
      by rewrite findAllFrom_noQuote. }
  intros Hq. destruct (Hsame query Hq) as [Hcast Hyears].
  split; [done|]. split; [done|].
  unfold preprocessSqlQuery.
  destruct (Hsame (qualifyTables (TrimSpace query))) as [-> ->]; [|done].
  by apply qualifyTables_noQuote, TrimSpace_forallb.
Qed.

Lemma preprocessSqlQuery_without_quotes_witness :
  castBetween unquotedQuery = unquotedQuery
  /\ expandYears unquotedQuery = unquotedQuery
  /\ preprocessSqlQuery unquotedQuery = qualifyTables (TrimSpace unquotedQuery).
Proof.
  apply (preprocessSqlQuery_without_quotes unquotedQuery). reflexivity.
Defined.

Lemma Format_nonempty (t : GoTime.Time) : GoTime.Format t <> [].
Proof.
  unfold GoTime.Format. destruct (GoTime.civilFromDays _) as [[y m] d].
  intros Hnil. apply app_eq_nil in Hnil as [_ Hnil]. discriminate Hnil.
Qed.

Lemma dateBytes_noQuote (s : gostring) :
  forallb dateByte s = true -> forallb notQuote s = true.
Proof.
  intros Hs. apply forallb_forall. intros c Hc.
  rewrite forallb_forall in Hs. specialize (Hs c Hc).
  unfold notQuote. destruct (Ascii.eqb_spec c "'"%char) as [->|]; [|done].
  discriminate Hs.
Qed.

Lemma jstToUtc_literal (d : gostring) : literal d -> literal (jstToUtc d).
Proof.
  intros [Hne Hq]. unfold jstToUtc.
  destruct (_ && _); [|done].
  destruct (GoTime.Parse d) as [t|]; [|done]. split.
  - apply Format_nonempty.
  - apply dateBytes_noQuote, Format_dateBytes.
Qed.

Lemma blank_space : blank (bs " ").
Proof. split; done. Qed.

Lemma matches_betweenHead (w1 w2 : gostring) :
  blank w1 -> blank w2 ->
  matches betweenHead (bs "time_dt" ++ w1 ++ bs "BETWEEN" ++ w2) [].
Proof.
  intros [? ?] [? ?]. rewrite <- (app_nil_r w2).
  apply matches_Lit, matches_Plus; try done.
  apply matches_Lit, matches_Plus; try done. apply matches_nil.
Qed.

Lemma matches_typedHead (w1 w2 w3 : gostring) :
  blank w1 -> blank w2 -> blank w3 ->
  matches typedHead
    (bs "time_dt" ++ w1 ++ bs "BETWEEN" ++ w2 ++ bs "TIMESTAMP" ++ w3) [].
Proof.
  intros [? ?] [? ?] [? ?]. rewrite <- (app_nil_r w3).
  apply matches_Lit, matches_Plus; try done.
  apply matches_Lit, matches_Plus; try done.
  apply matches_Lit, matches_Plus; try done. apply matches_nil.
Qed.

Lemma matches_typedTail (d1 w1 w2 w3 d2 : gostring) :
  literal d1 -> blank w1 -> blank w2 -> blank w3 -> literal d2 ->
  matches (Lit (bs "'") :: typedTail)
    (bs "'" ++ d1 ++ bs "'" ++ w1 ++ bs "AND" ++ w2 ++ bs "TIMESTAMP" ++ w3
     ++ bs "'" ++ d2 ++ bs "'" ++ [])
    [d1; d2].
Proof.
  intros [? ?] [? ?] [? ?] [? ?] [? ?].
  apply matches_Lit, matches_Group; try done.
  apply matches_Lit, matches_Plus; try done.
  apply matches_Lit, matches_Plus; try done.
  apply matches_Lit, matches_Plus; try done.
  apply matches_Lit, matches_Group; try done.
  apply matches_Lit, matches_nil.
Qed.

(** X14. The clause written by the rewriter is the clause extractDateRange
    reads.  In a query whose first quote opens the lower bound of a time_dt
    clause, castBetween replaces that clause by its typed form (the rest of
    the query having no quote), and extractDateRange of the result gives
    the two rewritten bounds. *)
Theorem extractDateRange_reads_cast (pre w1 w2 d1 w3 w4 d2 post : gostring) :
  forallb notQuote pre = true ->
  blank w1 -> blank w2 -> literal d1 -> blank w3 -> blank w4 -> literal d2 ->
  (forallb notQuote post = true ->
   castBetween
     (pre ++ (bs "time_dt" ++ w1 ++ untypedClause w2 d1 w3 w4 d2) ++ post)
   = pre ++ typedClause d1 d2 ++ post)
  /\ extractDateRange (pre ++ typedClause d1 d2 ++ post)
     = bs "from " ++ jstToUtc d1 ++ bs " to " ++ jstToUtc d2.
Proof.
  intros Hpre Hw1 Hw2 Hd1 Hw3 Hw4 Hd2. split.
  - intros Hpost.
    set (h := bs "time_dt" ++ w1 ++ bs "BETWEEN" ++ w2).
    set (x := d1 ++ bs "'" ++ w3 ++ bs "AND" ++ w4 ++ bs "'" ++ d2 ++ bs "'").
    assert (bs "time_dt" ++ w1 ++ untypedClause w2 d1 w3 w4 d2
            = h ++ bs "'" ++ x) as Hclause.
    { unfold untypedClause, h, x. by rewrite <- !app_assoc. }
    assert (matchHere (betweenHead ++ Lit (bs "'") :: boundsTail)
              ((h ++ bs "'" ++ x) ++ post) = Some ([d1; d2], post)) as Hmatch.
    { rewrite <- Hclause, <- !app_assoc.
      by apply (matchHere_betweenRegex w1 w2 d1 w3 w4 d2 post). }
    pose proof (matches_betweenHead w1 w2 Hw1 Hw2) as Hh. fold h in Hh.
    unfold castBetween, MatchString, ReplaceAllStringFunc.
    change betweenRegex with (betweenHead ++ Lit (bs "'") :: boundsTail).
    rewrite Hclause.
    rewrite (FindStringSubmatch_leftmost betweenHead boundsTail eq_refl eq_refl
               pre h x post [d1; d2] Hpre Hh Hmatch).
    rewrite (replaceAllFrom_leftmost betweenHead boundsTail eq_refl eq_refl
               castBetweenMatch pre h x post [d1; d2] Hpre Hh Hmatch).
    rewrite replaceAllFrom_noQuote by done.
    rewrite <- Hclause. by rewrite castBetweenMatch_clause.
  - pose proof (jstToUtc_literal d1 Hd1) as Hj1.
    pose proof (jstToUtc_literal d2 Hd2) as Hj2.
    set (h := bs "time_dt" ++ bs " " ++ bs "BETWEEN" ++ bs " "
              ++ bs "TIMESTAMP" ++ bs " ").
    set (x := jstToUtc d1 ++ bs "'" ++ bs " " ++ bs "AND" ++ bs " "
              ++ bs "TIMESTAMP" ++ bs " " ++ bs "'" ++ jstToUtc d2
              ++ bs "'" ++ []).
    assert (typedClause d1 d2 = h ++ bs "'" ++ x) as Hclause.
    { unfold typedClause, h, x. cbn [app]. by rewrite <- !app_assoc, app_nil_r. }
    pose proof (matches_typedHead _ _ _ blank_space blank_space blank_space)
      as Hh. fold h in Hh.
    pose proof (matches_typedTail _ _ _ _ _ Hj1 blank_space blank_space
                  blank_space Hj2) as Hx. fold x in Hx.
    assert (matchHere (typedHead ++ Lit (bs "'") :: typedTail)
              ((h ++ bs "'" ++ x) ++ post) = Some ([jstToUtc d1; jstToUtc d2], post))
      as Hmatch.
    { apply matchHere_complete; [done|].
      exact (matches_app _ _ _ _ [] _ Hh Hx). }
    unfold extractDateRange.
    change typedRegex with (typedHead ++ Lit (bs "'") :: typedTail).
    rewrite Hclause.
    by rewrite (FindStringSubmatch_leftmost typedHead typedTail eq_refl eq_refl
                  pre h x post _ Hpre Hh Hmatch).
Qed.

Lemma extractDateRange_reads_cast_witness :
  extractDateRange
    (castBetween (bs "SELECT * FROM waf WHERE time_dt BETWEEN '2024-01-01 10:00:00' AND '2024-01-01 12:00:00' LIMIT 5"))
  = bs "from 2024-01-01 01:00:00 to 2024-01-01 03:00:00".
Proof.
  destruct (extractDateRange_reads_cast (bs "SELECT * FROM waf WHERE ")
              (bs " ") (bs " ") (bs "2024-01-01 10:00:00") (bs " ") (bs " ")
              (bs "2024-01-01 12:00:00") (bs " LIMIT 5"))
    as [Hcast Hread]; try (split; [discriminate|reflexivity]); [reflexivity|].
  specialize (Hcast eq_refl).
  change (castBetween (bs "SELECT * FROM waf WHERE time_dt BETWEEN '2024-01-01 10:00:00' AND '2024-01-01 12:00:00' LIMIT 5")
          = bs "SELECT * FROM waf WHERE "
            ++ typedClause (bs "2024-01-01 10:00:00") (bs "2024-01-01 12:00:00")
            ++ bs " LIMIT 5") in Hcast.
  rewrite Hcast. exact Hread.
Defined.

(** ** Numeric bounds *)

Section Numeric.

Implicit Types (s ds : gostring) (c : ascii).

Lemma digitsValue_bound ds (acc : Z) :
  forallb isDigit ds = true -> 0 <= acc ->
  0 <= digitsValue acc ds < (acc + 1) * 10 ^ Z.of_nat (length ds).
Proof.
  revert acc. induction ds as [|c ds IH]; intros acc Hds Hacc.
  - cbn [digitsValue length]. change (10 ^ Z.of_nat 0) with 1. lia.
  - cbn [forallb] in Hds. apply andb_true_iff in Hds as [Hc Hds].
    cbn [digitsValue length]. rewrite Nat2Z.inj_succ, Z.pow_succ_r by lia.
    unfold isDigit in Hc. apply andb_true_iff in Hc as [Hlo Hhi].
    apply N.leb_le in Hlo, Hhi.
    specialize (IH (10 * acc + Z.of_N (code c - 48)) Hds ltac:(lia)).
    nia.
Qed.

Lemma isDigit_noSign c : isDigit c = true -> isSign c = false.
Proof.
  unfold isDigit, isSign. intros [Hlo Hhi]%andb_true_iff.
  apply N.leb_le in Hlo, Hhi.
  destruct (Ascii.eqb_spec c "+"%char) as [->|]; [by vm_compute in Hlo|].
  destruct (Ascii.eqb_spec c "-"%char) as [->|]; [by vm_compute in Hlo|].
  done.
Qed.

Lemma digits_fit ds :
  forallb isDigit ds = true -> (length ds <= 18)%nat ->
  (digitsValue 0 ds <? 2 ^ 63) = true /\ (digitsValue 0 ds <=? 2 ^ 63) = true.
Proof.
  intros Hds Hlen.
  pose proof (digitsValue_bound ds 0 Hds ltac:(lia)) as Hbound.
  assert (10 ^ Z.of_nat (length ds) <= 10 ^ 18) as Hpow
    by (apply Z.pow_le_mono_r; lia).
  split; [apply Z.ltb_lt|apply Z.leb_le]; lia.
Qed.

Lemma isNumeric_spellings c ds :
  ds <> [] \/ isDigit c = true -> (length ds <= 17)%nat ->
  isNumeric (c :: ds)
  = forallb isDigit ds && (isDigit c || isSign c && negb (bool_decide (ds = []))).
Proof.
  intros Hne Hlen. unfold isNumeric, atoiOk, isSign.
  destruct (Ascii.eqb_spec c "-"%char) as [->|Hminus].
  - rewrite orb_true_r. change (isDigit "-"%char) with false. cbn [orb andb].
    destruct ds as [|d ds]; [by destruct Hne|].
    rewrite (bool_decide_eq_false_2 (d :: ds = [])) by done.
    cbn [negb]. rewrite andb_true_r.
    destruct (forallb isDigit (d :: ds)) eqn:Hds; [|done]. cbn [andb].
    apply digits_fit; [done|lia].
  - destruct (Ascii.eqb_spec c "+"%char) as [->|Hplus].
    + change (isDigit "+"%char) with false. cbn [orb andb].
      destruct ds as [|d ds]; [by destruct Hne|].
      rewrite (bool_decide_eq_false_2 (d :: ds = [])) by done.
      cbn [negb]. rewrite andb_true_r.
      destruct (forallb isDigit (d :: ds)) eqn:Hds; [|done]. cbn [andb].
      apply digits_fit; [done|lia].
    + cbn [orb andb]. rewrite orb_false_r. cbn [forallb].
      destruct (isDigit c) eqn:Hc; [|by rewrite andb_false_r].
      cbn [andb]. rewrite andb_true_r.
      destruct (forallb isDigit ds) eqn:Hds; [|done]. cbn [andb].
      apply (digits_fit (c :: ds)); [|cbn [length]; lia].
      cbn [forallb]. by rewrite Hc, Hds.
Qed.

End Numeric.

(** X15. isNumeric accepts what strconv.Atoi accepts, a sign included: a
    BETWEEN bound is taken for a year exactly when it has four bytes that
    are four digits, or a plus or minus sign and three digits. *)
Theorem yearLike_spellings (date : gostring) :
  yearLike date = true
  <-> exists c ds,
        date = c :: ds /\ length ds = 3%nat /\ forallb isDigit ds = true
        /\ (isDigit c = true \/ isSign c = true).
Proof.
  unfold yearLike. split.
  - intros [Hlen Hnum]%andb_true_iff. apply Nat.eqb_eq in Hlen.
    destruct date as [|c ds]; [done|]. cbn [length] in Hlen.
    rewrite isNumeric_spellings in Hnum by (first [lia|left; by destruct ds]).
    apply andb_true_iff in Hnum as [Hds Hc].
    exists c, ds. split; [done|]. split; [lia|]. split; [done|].
    apply orb_true_iff in Hc as [Hc|[Hc _]%andb_true_iff]; auto.
  - intros (c & ds & -> & Hlen & Hds & Hc). cbn [length]. rewrite Hlen.
    cbn [Nat.eqb andb].
    rewrite isNumeric_spellings by (first [lia|left; by destruct ds]).
    rewrite Hds. cbn [andb].
    rewrite (bool_decide_eq_false_2 (ds = [])) by (by destruct ds).
    destruct Hc as [-> | ->]; [done|]. apply orb_true_r.
Qed.

(** ** The first occurrence *)

Section Once.

Implicit Types (s u old new : gostring) (c : ascii).

Lemma Replace_once s old new :
  old <> [] -> old <> new ->
  Replace s old new 1 = replaceFrom old new (Some 1%nat) 0 s.
Proof.
  intros Hold Hnew. unfold Replace. rewrite decide_False by done.
  by destruct old.
Qed.

Lemma replace_once_here old new s :
  old <> [] -> replaceFrom old new (Some 1%nat) 0 (old ++ s) = new ++ s.
Proof.
  intros Hold. destruct old as [|c old]; [done|].
  cbn [app replaceFrom]. change (c :: old ++ s) with ((c :: old) ++ s).
  rewrite HasPrefix_app. cbn [fmap option_fmap option_map Nat.pred length].
  rewrite replaceFrom_skip, drop_app_length. by destruct s.
Qed.

Lemma replace_once_skip old new c s :
  HasPrefix (c :: s) old = false ->
  replaceFrom old new (Some 1%nat) 0 (c :: s)
  = c :: replaceFrom old new (Some 1%nat) 0 s.
Proof. intros Hc. cbn [replaceFrom]. by rewrite Hc. Qed.

Lemma replace_once_noQuote old new u s :
  forallb notQuote u = true ->
  replaceFrom (bs "'" ++ old) new (Some 1%nat) 0 (u ++ s)
  = u ++ replaceFrom (bs "'" ++ old) new (Some 1%nat) 0 s.
Proof.
  change (bs "'" ++ old) with ("'"%char :: old).
  induction u as [|c u IH]; [done|].
  cbn [forallb]. intros [Hc Hu]%andb_true_iff.
  cbn [app]. rewrite replace_once_skip; [by rewrite IH|].
  cbn [HasPrefix]. unfold notQuote in Hc.
  rewrite Ascii.eqb_sym. by destruct (Ascii.eqb c "'").
Qed.

End Once.

Lemma fourDigits_yearLike (y : gostring) : fourDigits y -> yearLike y = true.
Proof.
  intros [Hlen Hy]. unfold yearLike. rewrite Hlen. cbn [Nat.eqb andb].
  destruct y as [|c ds]; [done|]. cbn [length forallb] in *.
  apply andb_true_iff in Hy as [Hc Hds].
  rewrite isNumeric_spellings by (first [lia|by right]).
  by rewrite Hds, Hc.
Qed.

Lemma fourDigits_split (y : gostring) :
  fourDigits y ->
  exists a b c d, y = [a; b; c; d] /\ isDigit a = true.
Proof.
  intros [Hlen Hy]. destruct y as [|a [|b [|c [|d [|e y]]]]]; try done.
  exists a, b, c, d. split; [done|].
  cbn [forallb] in Hy. by apply andb_true_iff in Hy as [? _].
Qed.

Lemma fourDigits_noQuote (y : gostring) :
  fourDigits y -> forallb notQuote y = true.
Proof.
  intros [_ Hy]. apply forallb_forall. intros c Hc.
  rewrite forallb_forall in Hy. specialize (Hy c Hc). unfold notQuote.
  destruct (Ascii.eqb_spec c "'"%char) as [->|]; [|done]. discriminate Hy.
Qed.

Lemma blank_noQuote (w : gostring) : blank w -> forallb notQuote w = true.
Proof. intros [_ Hw]. by apply (class_quoteFree perlSpace). Qed.

Lemma digit_not_space (a c : ascii) :
  isDigit a = true -> perlSpace c = true -> Ascii.eqb a c = false.
Proof.
  intros Ha Hc. destruct (Ascii.eqb_spec a c) as [->|]; [|done].
  unfold isDigit, perlSpace in *. apply andb_true_iff in Ha as [Hlo Hhi].
  apply N.leb_le in Hlo, Hhi.
  repeat (apply orb_true_iff in Hc as [Hc|Hc]);
    apply N.eqb_eq in Hc; lia.
Qed.

(** X16. Year bounds are expanded in the first clause of a query.  When the
    first quote of the query opens the lower bound of a BETWEEN clause
    whose two bounds are four digits each, and nothing after the clause is
    quoted, expandYears replaces the lower bound by the first second of
    its year and the upper bound by the last second of its year, each as
    a TIMESTAMP literal, and leaves the rest of the query as it is. *)
Theorem expandYears_first_clause (pre w2 y1 w3 w4 y2 post : gostring) :
  forallb notQuote pre = true -> forallb notQuote post = true ->
  blank w2 -> blank w3 -> blank w4 -> fourDigits y1 -> fourDigits y2 ->
  expandYears (pre ++ untypedClause w2 y1 w3 w4 y2 ++ post)
  = pre ++ expandedClause w2 y1 w3 w4 y2 ++ post.
Proof.
  intros Hpre Hpost Hw2 Hw3 Hw4 Hy1 Hy2.
  pose proof (blank_noQuote _ Hw2) as Hq2.
  pose proof (blank_noQuote _ Hw3) as Hq3.
  pose proof (blank_noQuote _ Hw4) as Hq4.
  pose proof (fourDigits_noQuote _ Hy1) as Hqy1.
  assert (literal y1 /\ literal y2) as [Hl1 Hl2].
  { split; (split; [|by apply fourDigits_noQuote]).
    - destruct Hy1 as [Hlen _]. by destruct y1.
    - destruct Hy2 as [Hlen _]. by destruct y2. }
  set (h := bs "BETWEEN" ++ w2).
  set (x := y1 ++ bs "'" ++ w3 ++ bs "AND" ++ w4 ++ bs "'" ++ y2 ++ bs "'").
  assert (untypedClause w2 y1 w3 w4 y2 = h ++ bs "'" ++ x) as Hclause.
  { unfold untypedClause, h, x. by rewrite <- !app_assoc. }
  assert (matches simpleHead h []) as Hh.
  { unfold h. rewrite <- (app_nil_r w2). destruct Hw2.
    apply matches_Lit, matches_Plus; try done. apply matches_nil. }
  assert (matchHere (simpleHead ++ Lit (bs "'") :: boundsTail)
            ((h ++ bs "'" ++ x) ++ post) = Some ([y1; y2], post)) as Hmatch.
  { rewrite <- Hclause. by apply (matchHere_simpleRegex w2 y1 w3 w4 y2 post). }
  unfold expandYears, FindAllStringSubmatch.
  change simpleRegex with (simpleHead ++ Lit (bs "'") :: boundsTail).
  rewrite Hclause, app_assoc.
  rewrite <- (app_assoc pre).
  rewrite (findAllFrom_leftmost simpleHead boundsTail eq_refl eq_refl
             pre h x post [y1; y2] Hpre Hh Hmatch).
  rewrite findAllFrom_noQuote by done.
  cbn [fold_left expandYear].
  fold (yearLike y1). fold (yearLike y2).
  rewrite !fourDigits_yearLike by done.
  rewrite !Replace_once; try done;
    try (destruct (fourDigits_split _ Hy1) as (? & ? & ? & ? & -> & _);
         destruct (fourDigits_split _ Hy2) as (? & ? & ? & ? & -> & _);
         discriminate).
  (* the first quoted text is the lower bound *)
  assert (pre ++ (h ++ bs "'" ++ x) ++ post
          = (pre ++ h) ++ (bs "'" ++ y1 ++ bs "'")
            ++ (w3 ++ bs "AND" ++ w4 ++ bs "'" ++ y2 ++ bs "'" ++ post)) as ->.
  { unfold x. by rewrite <- !app_assoc. }
  rewrite replace_once_noQuote
    by (unfold h; by rewrite !forallb_app, Hpre, Hq2).
  rewrite (replace_once_here (bs "'" ++ y1 ++ bs "'")) by done.
  (* the upper bound is the next text between quotes of that form *)
  destruct (fourDigits_split _ Hy2) as (a2 & b2 & c2 & d2 & Ey2 & Ha2).
  destruct (fourDigits_split _ Hy1) as (a1 & b1 & c1 & d1 & Ey1 & _).
  assert ((pre ++ h)
          ++ (bs "TIMESTAMP '" ++ (y1 ++ bs "-01-01 00:00:00") ++ bs "'")
          ++ w3 ++ bs "AND" ++ w4 ++ bs "'" ++ y2 ++ bs "'" ++ post
          = (pre ++ h ++ bs "TIMESTAMP ")
            ++ "'"%char
               :: (y1 ++ bs "-01-01 00:00:00")
                  ++ "'"%char
                     :: (w3 ++ bs "AND" ++ w4)
                        ++ (bs "'" ++ y2 ++ bs "'") ++ post) as ->.
  { by rewrite <- !app_assoc. }
  rewrite replace_once_noQuote
    by (unfold h; by rewrite !forallb_app, Hpre, Hq2).
  rewrite replace_once_skip.
  2: { subst y1 y2. cbn. by rewrite !andb_false_r. }
  rewrite replace_once_noQuote by (by rewrite forallb_app, Hqy1).
  rewrite replace_once_skip.
  2: { destruct Hw3 as [Hne Hw3]. destruct w3 as [|c w3]; [done|].
       cbn [forallb] in Hw3. apply andb_true_iff in Hw3 as [Hc _].
       subst y2. cbn. by rewrite (digit_not_space a2 c). }
  rewrite replace_once_noQuote by (by rewrite !forallb_app, Hq3, Hq4).
  rewrite (replace_once_here (bs "'" ++ y2 ++ bs "'")) by done.
  unfold expandedClause, h. by rewrite <- !app_assoc.
Qed.

Lemma expandYears_first_clause_witness :
  expandYears (bs "SELECT * FROM waf WHERE year BETWEEN '2020' AND '2021' LIMIT 5")
  = bs "SELECT * FROM waf WHERE year BETWEEN TIMESTAMP '2020-01-01 00:00:00' AND TIMESTAMP '2021-12-31 23:59:59' LIMIT 5".
Proof.
  apply (expandYears_first_clause (bs "SELECT * FROM waf WHERE year ")
           (bs " ") (bs "2020") (bs " ") (bs " ") (bs "2021") (bs " LIMIT 5"));
    try reflexivity; split; first [discriminate|reflexivity].
Defined.

(** ** The region of a rewritten query *)

(** ** Occurrences of a marker *)

Section Occurrences.

Context (p : gostring) (Hp : p <> []).

Implicit Types (s x y z u a b m r : gostring) (c : ascii).

Lemma Contains_nil : Contains [] p = false.
Proof. by destruct p. Qed.

Lemma HasPrefix_avoid x c y :
  avoids p c = true -> HasPrefix (x ++ c :: y) p = HasPrefix x p.
Proof.
  unfold avoids. generalize p as q. intros q. revert x.
  induction q as [|d q IH]; intros [|e x] Hc; try done.
  - cbn [app HasPrefix]. cbn [existsb] in Hc.
    apply negb_true_iff, orb_false_iff in Hc as [Hd _].
    by rewrite Ascii.eqb_sym, Hd.
  - cbn [app HasPrefix]. cbn [existsb] in Hc.
    apply negb_true_iff, orb_false_iff in Hc as [_ Hq].
    rewrite IH; [done|]. by rewrite Hq.
Qed.

Lemma Contains_split x c y :
  avoids p c = true ->
  Contains (x ++ c :: y) p = Contains x p || Contains y p.
Proof.
  intros Hc. induction x as [|e x IH].
  - cbn [app Contains]. pose proof (HasPrefix_avoid [] c y Hc) as Hhere.
    cbn [app] in Hhere. rewrite Hhere. by destruct p.
  - cbn [app Contains]. change (e :: x ++ c :: y) with ((e :: x) ++ c :: y).
    rewrite (HasPrefix_avoid (e :: x) c y Hc), IH. by rewrite orb_assoc.
Qed.

Lemma Contains_skip_all u s :
  forallb (avoids p) u = true -> Contains (u ++ s) p = Contains s p.
Proof.
  induction u as [|c u IH]; [done|]. cbn [forallb].
  intros [Hc Hu]%andb_true_iff.
  change ((c :: u) ++ s) with ([] ++ c :: (u ++ s)).
  by rewrite Contains_split, Contains_nil, IH.
Qed.

Lemma Contains_gap x u y :
  u <> [] -> forallb (avoids p) u = true ->
  Contains (x ++ u ++ y) p = Contains x p || Contains y p.
Proof.
  intros Hne Hu. destruct u as [|c u]; [done|]. cbn [forallb] in Hu.
  apply andb_true_iff in Hu as [Hc Hu]. cbn [app].
  by rewrite Contains_split, Contains_skip_all.
Qed.

Lemma Contains_drop_tail s u :
  forallb (avoids p) u = true -> Contains (s ++ u) p = Contains s p.
Proof.
  intros Hu. destruct u as [|c u]; [by rewrite app_nil_r|].
  rewrite <- (app_nil_r (c :: u)).
  rewrite Contains_gap, Contains_nil by done. apply orb_false_r.
Qed.

Lemma Contains_bytes (P : ascii -> bool) s :
  Contains s p = true -> forallb P s = true -> forallb P p = true.
Proof.
  intros (a & b & ->)%Contains_spec. rewrite !forallb_app.
  by intros [_ [? _]%andb_true_iff]%andb_true_iff.
Qed.

Lemma HasPrefix_app_cases x z :
  HasPrefix (x ++ z) p = true ->
  HasPrefix x p = true
  \/ ((0 < length x < length p)%nat
      /\ HasPrefix z (drop (length x) p) = true)
  \/ x = [].
Proof.
  generalize p as q. intros q. revert q.
  induction x as [|e x IH]; intros q Hq; [by right; right|].
  destruct q as [|d q]; [by left|].
  cbn [app HasPrefix] in Hq. apply andb_true_iff in Hq as [Hd Hq].
  destruct (IH q Hq) as [Hx|[[Hlen Hz]| ->]].
  - left. cbn [HasPrefix]. by rewrite Hd, Hx.
  - right. left. cbn [length drop]. split; [lia|done].
  - destruct q as [|d' q].
    + left. cbn [HasPrefix]. by rewrite Hd.
    + right. left. cbn [length drop]. split; [lia|done].
Qed.

Lemma Contains_app_noOverlap a z :
  overlaps p z = false ->
  Contains (a ++ z) p = Contains a p || Contains z p.
Proof.
  intros Hover. induction a as [|c a IH].
  - by rewrite Contains_nil.
  - cbn [app Contains]. rewrite IH, orb_assoc. f_equal.
    destruct (HasPrefix (c :: a ++ z) p) eqn:Hpre.
    + change (c :: a ++ z) with ((c :: a) ++ z) in Hpre.
      apply HasPrefix_app_cases in Hpre as [Hx|[[Hlen Hz]|Hnil]];
        [by rewrite Hx| |done].
      exfalso. unfold overlaps in Hover.
      assert (existsb (fun k => HasPrefix z (drop k p)) (seq 1 (length p - 1))
              = true) as Hyes; [|by rewrite Hyes in Hover].
      apply existsb_exists. exists (length (c :: a)). split; [|done].
      apply in_seq. lia.
    + destruct (HasPrefix (c :: a) p) eqn:Hx; [|by destruct (Contains a p)].
      pose proof (HasPrefix_longer _ _ z Hx) as Hlong.
      cbn [app] in Hlong. congruence.
Qed.

Lemma HasPrefix_app_short z b y :
  (length y <= length z)%nat -> HasPrefix (z ++ b) y = HasPrefix z y.
Proof.
  revert z. induction y as [|d y IH]; intros [|e z] Hlen; try done.
  - cbn [length] in Hlen. lia.
  - cbn [app HasPrefix]. rewrite IH; [done|]. cbn [length] in Hlen. lia.
Qed.

Lemma overlaps_app z b :
  (length p <= length z)%nat -> overlaps p (z ++ b) = overlaps p z.
Proof.
  intros Hlen. unfold overlaps.
  assert (forall l, Forall (fun k => 0 < k)%nat l ->
            existsb (fun k => HasPrefix (z ++ b) (drop k p)) l
            = existsb (fun k => HasPrefix z (drop k p)) l) as Hl.
  { induction 1 as [|k l Hk _ IH]; [done|]. cbn [existsb].
    rewrite IH, HasPrefix_app_short; [done|]. rewrite length_drop. lia. }
  apply Hl. apply Forall_forall. intros k Hk.
  apply list_elem_of_In, in_seq in Hk. lia.
Qed.

(** Replacements that keep [p] keep it in any number. *)
Lemma rewrites_keeps (ok : gostring -> gostring -> Prop) s t :
  (forall m r, ok m r -> keeps p m r) ->
  rewrites ok s t -> forall a, Contains (a ++ s) p = Contains (a ++ t) p.
Proof.
  intros Hok. induction 1 as [|c s t _ IH|m r s t Hmr _ IH]; intros a; [done|..].
  - specialize (IH (a ++ [c])). by rewrite <- !app_assoc in IH.
  - specialize (IH (a ++ m)). rewrite <- !app_assoc in IH. rewrite IH.
    apply (Hok m r Hmr).
Qed.

End Occurrences.

Lemma usMarkers_markerLike : forallb markerLike usMarkers = true.
Proof. by vm_compute. Qed.

Lemma getQueryRegion_markers (query : gostring) :
  getQueryRegion query
  = if existsb (Contains query) usMarkers
    then bs "us-east-1" else bs "ap-northeast-1".
Proof.
  unfold getQueryRegion, usMarkers. cbn [existsb].
  repeat match goal with
         | |- context [Contains query ?p] => destruct (Contains query p)
         end; reflexivity.
Qed.

Section Markers.

Context (p : gostring) (Hmarker : markerLike p = true).

Implicit Types (s a b m r d w : gostring) (c : ascii).

Lemma marker_nonempty : p <> [].
Proof. intros ->. discriminate Hmarker. Qed.

Lemma marker_bytes : forallb markerByte p = true.
Proof.
  pose proof Hmarker as Hm. unfold markerLike in Hm.
  repeat (apply andb_true_iff in Hm as [Hm ?]). done.
Qed.

Lemma marker_letter : existsb letterByte p = true.
Proof.
  pose proof Hmarker as Hm. unfold markerLike in Hm.
  repeat (apply andb_true_iff in Hm as [Hm ?]). done.
Qed.

Lemma avoids_other c : markerByte c = false -> avoids p c = true.
Proof.
  intros Hc. unfold avoids. apply negb_true_iff.
  destruct (existsb (Ascii.eqb c) p) eqn:Hin; [|done].
  apply existsb_exists in Hin as (d & Hd & Heq).
  apply Ascii.eqb_eq in Heq as <-.
  pose proof marker_bytes as Hbytes. rewrite forallb_forall in Hbytes.
  by rewrite (Hbytes c Hd) in Hc.
Qed.

Lemma avoids_all (u : gostring) :
  forallb (fun c => negb (markerByte c)) u = true ->
  forallb (avoids p) u = true.
Proof.
  intros Hu. apply forallb_forall. intros c Hc.
  rewrite forallb_forall in Hu. specialize (Hu c Hc).
  apply avoids_other. by destruct (markerByte c).
Qed.

Lemma blank_other w :
  forallb perlSpace w = true ->
  forallb (fun c => negb (markerByte c)) w = true.
Proof.
  intros Hw. apply forallb_forall. intros c Hc.
  rewrite forallb_forall in Hw. specialize (Hw c Hc).
  unfold markerByte. rewrite (perlSpace_noWord c Hw). cbn [orb].
  destruct (Ascii.eqb_spec c "/"%char) as [->|]; [discriminate Hw|done].
Qed.

Lemma noLetters_without s : noLetters s = true -> Contains s p = false.
Proof.
  intros Hs. destruct (Contains s p) eqn:Hin; [|done].
  apply (Contains_bytes p (fun c => negb (letterByte c))) in Hin; [|done].
  pose proof marker_letter as Hletter.
  apply existsb_exists in Hletter as (c & Hc & Hl).
  rewrite forallb_forall in Hin. specialize (Hin c Hc). by rewrite Hl in Hin.
Qed.

Lemma jstToUtc_keeps d : Contains (jstToUtc d) p = Contains d p.
Proof.
  unfold jstToUtc. destruct (_ && _); [|done].
  destruct (GoTime.Parse d) as [t|] eqn:Hparse; [|done].
  rewrite !noLetters_without; [done| |].
  - by apply dateBytes_noLetters, (Parse_dateBytes d t).
  - apply dateBytes_noLetters, Format_dateBytes.
Qed.

(** What is between two gaps of other bytes counts on its own. *)
Lemma Contains_fields a g1 d1 g2 d2 g3 b :
  g1 <> [] -> g2 <> [] -> g3 <> [] ->
  forallb (avoids p) g1 = true -> forallb (avoids p) g2 = true ->
  forallb (avoids p) g3 = true ->
  Contains (a ++ g1 ++ d1 ++ g2 ++ d2 ++ g3 ++ b) p
  = Contains a p || (Contains d1 p || (Contains d2 p || Contains b p)).
Proof.
  intros ? ? ? ? ? ?. pose proof marker_nonempty.
  by rewrite !(Contains_gap p) by done.
Qed.

Lemma castPiece_keeps m r : castPiece m r -> keeps p m r.
Proof.
  intros (w1 & w2 & d1 & w3 & w4 & d2 & [Hn1 Hw1] & [Hn2 Hw2] & Hd1 & [Hn3 Hw3]
          & [Hn4 Hw4] & Hd2 & -> & ->) a b.
  unfold untypedClause, typedClause.
  assert (forall u, forallb (fun c => negb (markerByte c)) u = true ->
                    forallb (avoids p) u = true) as Hav by apply avoids_all.
  pose proof (blank_other w1 Hw1). pose proof (blank_other w2 Hw2).
  pose proof (blank_other w3 Hw3). pose proof (blank_other w4 Hw4).
  transitivity (Contains ((a ++ bs "time_dt")
                          ++ (w1 ++ bs "BETWEEN" ++ w2 ++ bs "'") ++ d1
                          ++ (bs "'" ++ w3 ++ bs "AND" ++ w4 ++ bs "'") ++ d2
                          ++ bs "'" ++ b) p).
  { f_equal. by rewrite <- !app_assoc. }
  transitivity (Contains ((a ++ bs "time_dt")
                          ++ bs " BETWEEN TIMESTAMP '" ++ jstToUtc d1
                          ++ bs "' AND TIMESTAMP '" ++ jstToUtc d2
                          ++ bs "'" ++ b) p).
  2: { f_equal. by rewrite <- !app_assoc. }
  rewrite !Contains_fields, !jstToUtc_keeps; try done;
    try (by destruct w1); try (by destruct w3);
    apply Hav; rewrite ?forallb_app;
    repeat (apply andb_true_iff; split); done.
Qed.

Lemma yearPiece_keeps m r : yearPiece m r -> keeps p m r.
Proof.
  intros (date & rest & Hdate & Hrest & -> & ->) a b.
  assert (forall u, forallb (fun c => negb (markerByte c)) u = true ->
                    forallb (avoids p) u = true) as Hav by apply avoids_all.
  pose proof marker_nonempty.
  transitivity (Contains (a ++ bs "'" ++ date ++ bs "'" ++ b) p).
  { f_equal. by rewrite <- !app_assoc. }
  transitivity (Contains (a ++ bs "TIMESTAMP '" ++ (date ++ rest) ++ bs "'" ++ b) p).
  2: { f_equal. by rewrite <- !app_assoc. }
  rewrite !(Contains_gap p) by (first [done|by apply Hav]).
  rewrite (noLetters_without date), (noLetters_without (date ++ rest));
    [done| |].
  - rewrite noLetters_app. rewrite (atoiOk_noLetters date Hdate).
    by destruct Hrest as [-> | ->].
  - by apply atoiOk_noLetters.
Qed.

Lemma qualified_keeps :
  keeps p tableAp (glueDbAp ++ bs "." ++ tableAp).
Proof.
  intros a b. pose proof marker_nonempty as Hne.
  pose proof Hmarker as Hm. unfold markerLike in Hm.
  repeat (apply andb_true_iff in Hm as [Hm ?]).
  repeat match goal with
         | H : negb _ = true |- _ => apply negb_true_iff in H
         end.
  match goal with H : (_ <=? _)%nat = true |- _ => apply Nat.leb_le in H end.
  assert (overlaps p (tableAp ++ b) = false) as Hover
    by (by rewrite overlaps_app).
  rewrite (Contains_app_noOverlap p Hne a (tableAp ++ b) Hover).
  transitivity (Contains ((a ++ glueDbAp) ++ bs "." ++ tableAp ++ b) p).
  2: { f_equal. by rewrite <- !app_assoc. }
  rewrite (Contains_gap p Hne) by (first [done|by apply avoids_all]).
  rewrite (Contains_app_noOverlap p Hne a glueDbAp) by done.
  match goal with H : Contains glueDbAp p = false |- _ => rewrite H end.
  by rewrite orb_false_r.
Qed.

End Markers.

(** ** What TrimSpace drops *)

Section Dropped.

Context (table : list gostring) (Htable : forallb noSolid table = true).

Implicit Types (s z : gostring).

Lemma runeWidthIn_rune s (k : nat) :
  runeWidthIn table s = S k ->
  forallb (fun c => negb (solid c)) (take (S k) s) = true.
Proof.
  unfold runeWidthIn. destruct (find (HasPrefix s) table) as [rune|] eqn:Hfind;
    [|done].
  intros Hlen. apply find_some in Hfind as [Hin Hpre].
  rewrite forallb_forall in Htable. specialize (Htable rune Hin).
  apply andb_true_iff in Htable as [_ Hrune].
  apply HasPrefix_inv in Hpre. rewrite Hpre, <- Hlen.
  by rewrite take_app_length.
Qed.

Lemma trimFrom_dropped (k : nat) s :
  forallb (fun c => negb (solid c)) (take k s) = true ->
  exists z, s = z ++ trimFrom (runeWidthIn table) k s
            /\ forallb (fun c => negb (solid c)) z = true.
Proof.
  revert k. induction s as [|c s IH]; intros k Hk; cbn [trimFrom].
  - by exists [].
  - destruct k as [|k].
    + destruct (runeWidthIn table (c :: s)) as [|n] eqn:Hwidth;
        [by exists []|].
      apply runeWidthIn_rune in Hwidth. cbn [take forallb] in Hwidth.
      apply andb_true_iff in Hwidth as [Hc Hrest].
      destruct (IH n Hrest) as (z & Hz & Hsolid).
      exists (c :: z). cbn [app forallb]. by rewrite <- Hz, Hc.
    + cbn [take forallb] in Hk. apply andb_true_iff in Hk as [Hc Hrest].
      destruct (IH k Hrest) as (z & Hz & Hsolid).
      exists (c :: z). cbn [app forallb]. by rewrite <- Hz, Hc.
Qed.

End Dropped.

Lemma TrimSpace_dropped (s : gostring) :
  exists l r,
    s = l ++ TrimSpace s ++ r
    /\ forallb (fun c => negb (solid c)) l = true
    /\ forallb (fun c => negb (solid c)) r = true.
Proof.
  unfold TrimSpace, TrimRightSpace, TrimLeftSpace.
  assert (exists l, s = l ++ trimFrom spaceWidth 0 s
                    /\ forallb (fun c => negb (solid c)) l = true)
    as (l & Hl & Hsl)
    by exact (trimFrom_dropped spaceRunes spaceRunes_noSolid 0 s eq_refl).
  set (s' := trimFrom spaceWidth 0 s) in *.
  assert (exists z, rev s' = z ++ trimFrom spaceWidthLast 0 (rev s')
                    /\ forallb (fun c => negb (solid c)) z = true)
    as (z & Hz & Hsz)
    by exact (trimFrom_dropped (map (@rev ascii) spaceRunes)
                spaceRunes_rev_noSolid 0 (rev s') eq_refl).
  exists l, (rev z). split; [|split; [done|by rewrite forallb_rev]].
  rewrite Hl at 1. f_equal.
  rewrite <- rev_app_distr, <- Hz. by rewrite rev_involutive.
Qed.

Lemma markerByte_solid (c : ascii) : markerByte c = true -> solid c = true.
Proof. destruct c as [[] [] [] [] [] [] [] []]; by vm_compute. Qed.

Lemma TrimSpace_keeps (p s : gostring) :
  markerLike p = true -> Contains (TrimSpace s) p = Contains s p.
Proof.
  intros Hp. destruct (TrimSpace_dropped s) as (l & r & Hs & Hl & Hr).
  assert (forall u, forallb (fun c => negb (solid c)) u = true ->
                    forallb (avoids p) u = true) as Hav.
  { intros u Hu. apply (avoids_all p Hp). apply forallb_forall. intros c Hc.
    rewrite forallb_forall in Hu. specialize (Hu c Hc).
    destruct (markerByte c) eqn:Hm; [|done].
    by rewrite (markerByte_solid c Hm) in Hu. }
  rewrite Hs at 2.
  rewrite (Contains_skip_all p (marker_nonempty p Hp)) by auto.
  by rewrite (Contains_drop_tail p (marker_nonempty p Hp)) by auto.
Qed.

Lemma Replace_keeps (p s old new : gostring) :
  old <> [] -> keeps p old new ->
  Contains (Replace s old new (-1)) p = Contains s p.
Proof.
  intros Hold Hkeeps. symmetry.
  apply (rewrites_keeps p (fun m r => m = old /\ r = new) s _) with (a := []).
  - by intros m r [-> ->].
  - by apply Replace_rewrites.
Qed.

Lemma qualifyTables_region (query : gostring) :
  existsb (Contains (qualifyTables query)) usMarkers
  = existsb (Contains query) usMarkers.
Proof.
  unfold qualifyTables. destruct (negb _); [|done].
  set (q1 := if Contains query tableAp && negb (Contains query glueDbAp)
             then Replace query tableAp (glueDbAp ++ bs "." ++ tableAp) (-1)
             else query).
  assert (forall p, In p usMarkers -> Contains q1 p = Contains query p) as Hq1.
  { intros p Hp. subst q1. destruct (_ && _); [|done].
    pose proof usMarkers_markerLike as Hall. rewrite forallb_forall in Hall.
    apply Replace_keeps; [done|]. by apply qualified_keeps, Hall. }
  assert (existsb (Contains q1) usMarkers = existsb (Contains query) usMarkers)
    as <-.
  { clear -Hq1. induction usMarkers as [|p ps IH]; [done|]. cbn [existsb].
    rewrite Hq1 by (by left). rewrite IH; [done|].
    intros p' Hp'. apply Hq1. by right. }
  clearbody q1.
  destruct (Contains q1 tableUs) eqn:Hus; [|done]. cbn [andb].
  destruct (negb (Contains q1 glueDbUs)); [|done].
  assert (Contains q1 (bs "amazon_security_lake_table_us_east_1") = true) as Hin.
  { by apply (Contains_trans q1 tableUs). }
  assert (Contains (Replace q1 tableUs (glueDbUs ++ bs "." ++ tableUs) (-1))
            (bs "amazon_security_lake_glue_db_us_east_1") = true) as Hout.
  { apply (Contains_trans _ (glueDbUs ++ bs "." ++ tableUs)); [|done].
    by apply Replace_all_Contains. }
  unfold usMarkers. cbn [existsb]. rewrite Hin, Hout. by rewrite orb_true_r.
Qed.

Lemma preprocessSqlQuery_region (query : gostring) :
  getQueryRegion (preprocessSqlQuery query) = getQueryRegion query.
Proof.
  rewrite !getQueryRegion_markers.
  assert (existsb (Contains (preprocessSqlQuery query)) usMarkers
          = existsb (Contains query) usMarkers) as ->; [|done].
  pose proof usMarkers_markerLike as Hall. rewrite forallb_forall in Hall.
  unfold preprocessSqlQuery.
  set (q2 := qualifyTables (TrimSpace query)).
  assert (forall p, In p usMarkers ->
            Contains (expandYears (castBetween q2)) p = Contains q2 p) as Hq2.
  { intros p Hp. specialize (Hall p Hp).
    transitivity (Contains (castBetween q2) p).
    - apply (expandYears_invariant
               (fun s => Contains s p = Contains (castBetween q2) p));
        [|done].
      intros s t Hst <-. symmetry.
      apply (rewrites_keeps p yearPiece s t) with (a := []); [|done].
      intros m r. by apply yearPiece_keeps.
    - symmetry.
      apply (rewrites_keeps p castPiece q2 _) with (a := []).
      + intros m r. by apply castPiece_keeps.
      + apply castBetween_rewrites. }
  transitivity (existsb (Contains q2) usMarkers).
  { clear -Hq2. induction usMarkers as [|p ps IH]; [done|]. cbn [existsb].
    rewrite Hq2 by (by left). rewrite IH; [done|].
    intros p' Hp'. apply Hq2. by right. }
  subst q2. rewrite qualifyTables_region.
  clear -Hall. induction usMarkers as [|p ps IH]; [done|]. cbn [existsb].
  rewrite TrimSpace_keeps by (apply Hall; by left). rewrite IH; [done|].
  intros p' Hp'. apply Hall. by right.
Qed.

(** X17. Rewriting a query never moves it to the other region: the region
    found in the rewritten SQL, with which runAthenaQuery picks the client
    and which it returns, is the region found in the SQL as generated,
    with which the handler builds the console link and the failure
    report. *)
Theorem region_survives_rewriting (env : Env) (query : gostring) :
  getQueryRegion (preprocessSqlQuery query) = getQueryRegion query
  /\ (denyListed env query = false ->
      (runAthenaQuery env query).1.2 = getQueryRegion query).
Proof.
  split; [apply preprocessSqlQuery_region|].
  intros Hdeny. rewrite <- preprocessSqlQuery_region.
  unfold runAthenaQuery. rewrite Hdeny.
  repeat match goal with
         | |- context [match ?x with _ => _ end] =>
             lazymatch x with
             | context [match _ with _ => _ end] => fail
             | _ => destruct x
             end
         end; reflexivity.
Qed.

Lemma region_survives_rewriting_witness :
  getQueryRegion (preprocessSqlQuery unquotedQuery) = bs "us-east-1"
  /\ (runAthenaQuery sampleEnv unquotedQuery).1.2 = bs "us-east-1".
Proof.
  destruct (region_survives_rewriting sampleEnv unquotedQuery) as [Hsame Hrun].
  split; [exact Hsame|]. apply Hrun. reflexivity.
Defined.

(** ** The timestamps of the rewriter *)

(** ** The calendar *)

Section Calendar.

Import GoTime.

Lemma civilDays_spec (n : nat) (z : Z) :
  civilDays n z = true ->
  forall i, 0 <= i < Z.of_nat n -> civilDay (z + i) = true.
Proof.
  revert z. induction n as [|n IH]; intros z Hall i Hi; [lia|].
  cbn [civilDays] in Hall. apply andb_true_iff in Hall as [Hz Hrest].
  destruct (decide (i = 0)) as [->|Hne]; [by rewrite Z.add_0_r|].
  replace (z + i) with (z + 1 + (i - 1)) by lia. apply IH; [done|lia].
Qed.

Lemma first_era : civilDays (Z.to_nat 146097) (-719468) = true.
Proof. vm_compute. reflexivity. Qed.

Lemma civilFromDays_shift (z k : Z) :
  civilFromDays (z + 146097 * k)
  = let '(y, m, d) := civilFromDays z in (y + 400 * k, m, d).
Proof.
  unfold civilFromDays. cbv zeta.
  replace (z + 146097 * k + 719468) with (z + 719468 + k * 146097) by lia.
  rewrite Z.div_add by lia.
  set (era := (z + 719468) / 146097).
  replace (z + 719468 + k * 146097 - (era + k) * 146097)
    with (z + 719468 - era * 146097) by lia.
  f_equal. f_equal. lia.
Qed.

Lemma daysFromCivil_shift (y m d k : Z) :
  daysFromCivil (y + 400 * k) m d = daysFromCivil y m d + 146097 * k.
Proof.
  unfold daysFromCivil. cbv zeta.
  replace (if m <=? 2 then y + 400 * k - 1 else y + 400 * k)
    with ((if m <=? 2 then y - 1 else y) + k * 400)
    by (destruct (m <=? 2); lia).
  rewrite Z.div_add by lia.
  set (y' := if m <=? 2 then y - 1 else y). set (era := y' / 400).
  replace (y' + k * 400 - (era + k) * 400) with (y' - era * 400) by lia.
  lia.
Qed.

Lemma daysIn_shift (y m k : Z) : daysIn m (y + 400 * k) = daysIn m y.
Proof.
  unfold daysIn, isLeap.
  replace ((y + 400 * k) mod 4) with (y mod 4)
    by (replace (y + 400 * k) with (y + (100 * k) * 4) by lia;
        by rewrite Z_mod_plus_full).
  replace ((y + 400 * k) mod 100) with (y mod 100)
    by (replace (y + 400 * k) with (y + (4 * k) * 100) by lia;
        by rewrite Z_mod_plus_full).
  replace ((y + 400 * k) mod 400) with (y mod 400)
    by (replace (y + 400 * k) with (y + k * 400) by lia;
        by rewrite Z_mod_plus_full).
  done.
Qed.

(** Every day has a date, and the date counts back to the day; the dates
    of the days from 0000-01-01 to 9999-12-31 have a year of four
    digits. *)
Lemma civilFromDays_date (z y m d : Z) :
  civilFromDays z = (y, m, d) ->
  1 <= m <= 12 /\ 1 <= d <= daysIn m y /\ daysFromCivil y m d = z
  /\ (firstDay <= z <= lastDay -> 0 <= y <= 9999).
Proof.
  intros Hdate.
  set (k := (z + 719468) / 146097). set (doe := (z + 719468) mod 146097).
  assert (z = (-719468 + doe) + 146097 * k /\ 0 <= doe < 146097) as [Hz Hdoe].
  { subst k doe. pose proof (Z.div_mod (z + 719468) 146097 ltac:(lia)).
    pose proof (Z.mod_pos_bound (z + 719468) 146097 ltac:(lia)). lia. }
  pose proof (civilDays_spec _ _ first_era doe ltac:(lia)) as Hday.
  rewrite Hz, civilFromDays_shift in Hdate. unfold civilDay in Hday.
  destruct (civilFromDays (-719468 + doe)) as [[y0 m0] d0].
  injection Hdate as <- <- <-.
  replace (-719468 + doe + 719468) with doe in Hday by lia.
  repeat (apply andb_true_iff in Hday as [Hday ?]).
  repeat match goal with
         | H : (_ <=? _) = true |- _ => apply Z.leb_le in H
         | H : (_ =? _) = true |- _ => apply Z.eqb_eq in H
         end.
  rewrite daysIn_shift, daysFromCivil_shift.
  split; [lia|]. split; [lia|]. split; [lia|].
  unfold firstDay, lastDay. intros Hrange.
  assert (-1 <= k <= 24) as Hk by lia.
  destruct (doe <? 146037) eqn:Hlate; [apply Z.ltb_lt in Hlate|apply Z.ltb_ge in Hlate].
  - match goal with H : _ && _ = true |- _ => apply andb_true_iff in H as [Hlo Hhi] end.
    apply Z.leb_le in Hlo, Hhi. lia.
  - match goal with H : (_ =? _) = true |- _ => apply Z.eqb_eq in H end. lia.
Qed.

Lemma daysFromCivil_range (y m d : Z) :
  0 <= y <= 9999 -> 1 <= m <= 12 -> 1 <= d <= daysIn m y ->
  firstDay <= daysFromCivil y m d <= lastDay.
Proof.
  intros Hy Hm Hd. unfold firstDay, lastDay, daysFromCivil. cbv zeta.
  assert (1 <= d <= 31 /\ (m = 2 -> d <= 29)) as [Hd31 Hfeb].
  { unfold daysIn in Hd. destruct (Z.eqb_spec m 2) as [->|].
    - destruct (isLeap y); lia.
    - destruct (_ || _); lia. }
  clear Hd.
  destruct (Z.leb_spec m 2); destruct (Z.ltb_spec 2 m); try lia;
    Z.div_mod_to_equations; lia.
Qed.

End Calendar.

(** ** A formatted time parses back *)

Section Digits.

Import GoTime.

Implicit Types (n y : Z) (rest : gostring).

Local Ltac arith := first [done | lia | (Z.div_mod_to_equations; lia)].

Lemma digitVal_digitChar n : digitVal (digitChar n) = n mod 10.
Proof.
  unfold digitVal, digitChar, code, chr.
  pose proof (Z.mod_pos_bound n 10 ltac:(lia)) as Hmod.
  rewrite N_ascii_embedding by lia. lia.
Qed.

Lemma digitChar_zero n : 0 <= n < 10 -> digitChar (n / 10) = "0"%char.
Proof. intros Hn. by rewrite Z.div_small. Qed.

Lemma decimalFuel_small (fuel : nat) n :
  n < 10 -> decimalFuel (S fuel) n = [digitChar n].
Proof. intros Hn. cbn [decimalFuel]. by rewrite (proj2 (Z.ltb_lt _ _) Hn). Qed.

Lemma decimalFuel_step (fuel : nat) n :
  10 <= n -> decimalFuel (S fuel) n = decimalFuel fuel (n / 10) ++ [digitChar n].
Proof. intros Hn. cbn [decimalFuel]. by rewrite (proj2 (Z.ltb_ge _ _) Hn). Qed.

Lemma appendInt_2 n :
  0 <= n < 100 -> appendInt n 2 = [digitChar (n / 10); digitChar n].
Proof.
  intros Hn. unfold appendInt. rewrite Z.abs_eq by lia.
  rewrite (proj2 (Z.ltb_ge _ _)) by lia. cbn [app].
  destruct (Z.lt_ge_cases n 10) as [Hsmall|Hbig].
  - rewrite decimalFuel_small by done. by rewrite Z.div_small by lia.
  - rewrite decimalFuel_step, decimalFuel_small by arith.
    reflexivity.
Qed.

Lemma appendInt_4 y :
  0 <= y < 10000 ->
  appendInt y 4
  = [digitChar (y / 1000); digitChar (y / 100); digitChar (y / 10); digitChar y].
Proof.
  intros Hy. unfold appendInt. rewrite Z.abs_eq by lia.
  rewrite (proj2 (Z.ltb_ge _ _)) by lia. cbn [app].
  assert (y / 10 / 10 = y / 100) as H100 by (rewrite Z.div_div by lia; done).
  assert (y / 10 / 10 / 10 = y / 1000) as H1000
    by (rewrite !Z.div_div by lia; done).
  destruct (Z.lt_ge_cases y 10) as [H1|H1].
  { rewrite decimalFuel_small by done.
    by rewrite !Z.div_small by lia. }
  rewrite decimalFuel_step by done.
  destruct (Z.lt_ge_cases (y / 10) 10) as [H2|H2].
  { rewrite decimalFuel_small by done.
    assert (y < 100) by arith.
    by rewrite (Z.div_small y 1000), (Z.div_small y 100) by lia. }
  rewrite decimalFuel_step by done. rewrite H100.
  destruct (Z.lt_ge_cases (y / 100) 10) as [H3|H3].
  { rewrite decimalFuel_small by done.
    assert (y < 1000) by arith. by rewrite (Z.div_small y 1000) by lia. }
  rewrite decimalFuel_step by done.
  rewrite Z.div_div by lia. change (100 * 10) with 1000.
  rewrite decimalFuel_small by arith. reflexivity.
Qed.

Lemma getyear_appendInt y rest :
  0 <= y < 10000 -> getyear (appendInt y 4 ++ rest) = Some (y, rest).
Proof.
  intros Hy. rewrite appendInt_4 by done. cbn [app getyear forallb].
  rewrite !digitChar_isDigit. cbn [andb digitsValue].
  fold (digitVal (digitChar (y / 1000))). fold (digitVal (digitChar (y / 100))).
  fold (digitVal (digitChar (y / 10))). fold (digitVal (digitChar y)).
  rewrite !digitVal_digitChar. do 2 f_equal.
  Z.div_mod_to_equations. lia.
Qed.

Lemma getnum_appendInt n rest (fixed : bool) :
  0 <= n < 100 -> getnum (appendInt n 2 ++ rest) fixed = Some (n, rest).
Proof.
  intros Hn. rewrite appendInt_2 by done. cbn [app getnum].
  rewrite !digitChar_isDigit. rewrite !digitVal_digitChar. do 2 f_equal.
  Z.div_mod_to_equations. lia.
Qed.

Lemma skipSpace_appendInt n rest :
  0 <= n < 100 ->
  skipSpace (bs " " ++ appendInt n 2 ++ rest) = Some (appendInt n 2 ++ rest).
Proof.
  intros Hn. rewrite appendInt_2 by done.
  change (bs " ") with [" "%char]. cbn [app skipSpace cutspace].
  rewrite !Ascii.eqb_refl.
  pose proof (digitChar_isDigit (n / 10)) as Hdigit.
  destruct (Ascii.eqb_spec (digitChar (n / 10)) " "%char) as [Heq|]; [|done].
  rewrite Heq in Hdigit. discriminate Hdigit.
Qed.

End Digits.

Section RoundTrip.

Import GoTime.

Implicit Types (value rest : gostring) (t : Time).

Local Ltac arith := first [done | lia | (Z.div_mod_to_equations; lia)].

Lemma skipByte_here (c : ascii) rest :
  skipByte c (bs (String c EmptyString) ++ rest) = Some rest.
Proof.
  change (bs (String c EmptyString) ++ rest) with (c :: rest).
  cbn [skipByte]. by rewrite Ascii.eqb_refl.
Qed.

Lemma getyear_range value y rest :
  getyear value = Some (y, rest) -> 0 <= y < 10000.
Proof.
  unfold getyear. destruct value as [|c0 [|c1 [|c2 [|c3 value]]]]; try done.
  destruct (forallb isDigit [c0; c1; c2; c3]) eqn:Hdigits; [|done].
  intros [= <- _].
  pose proof (digitsValue_bound [c0; c1; c2; c3] 0 Hdigits (Z.le_refl 0)) as Hb.
  cbn [length digitsValue] in Hb. change (10 ^ Z.of_nat 4) with 10000 in Hb. lia.
Qed.

Lemma digitVal_range (c : ascii) : isDigit c = true -> 0 <= digitVal c <= 9.
Proof.
  unfold isDigit, digitVal. intros [Hlo Hhi]%andb_true_iff.
  apply N.leb_le in Hlo, Hhi. lia.
Qed.

Lemma getnum_range value (fixed : bool) n rest :
  getnum value fixed = Some (n, rest) -> 0 <= n < 100.
Proof.
  unfold getnum. destruct value as [|c0 value]; [done|].
  destruct (isDigit c0) eqn:H0; [|done].
  pose proof (digitVal_range c0 H0).
  destruct value as [|c1 value].
  - destruct fixed; [done|]. intros [= <- _]. lia.
  - destruct (isDigit c1) eqn:H1.
    + pose proof (digitVal_range c1 H1). intros [= <- _]. lia.
    + destruct fixed; [done|]. intros [= <- _]. lia.
Qed.

Lemma forallb_take {A} (P : A -> bool) (k : nat) (l : list A) :
  forallb P l = true -> forallb P (take k l) = true.
Proof.
  revert k. induction l as [|x l IH]; intros [|k]; try done.
  cbn [forallb take]. intros [Hx Hl]%andb_true_iff. by rewrite Hx, IH.
Qed.

(** The fraction of a second that time.Parse reads is less than a
    second. *)
Lemma fractionNsec_range value : 0 <= fractionNsec value < Second.
Proof.
  unfold fractionNsec, Second, Nanosecond.
  destruct value as [|c0 [|c1 rest]]; try lia.
  destruct (commaOrPeriod c0 && isDigit c1) eqn:Hfrac; [|lia].
  apply andb_true_iff in Hfrac as [_ Hc1].
  destruct (span_spec isDigit rest) as (Hrest & Hdigits & _).
  set (ds := (span isDigit rest).1) in *. unfold parseNanoseconds.
  set (nbytes := if (10 <? 2 + length ds)%nat then 10%nat
                 else (2 + length ds)%nat).
  assert (2 <= nbytes <= 10 /\ nbytes - 1 <= length (c1 :: ds))%nat
    as [Hnbytes Hshort].
  { subst nbytes. cbn [length].
    destruct (10 <? 2 + length ds)%nat eqn:Hlong;
      [apply Nat.ltb_lt in Hlong|apply Nat.ltb_ge in Hlong]; lia. }
  cbn [drop].
  assert (take (nbytes - 1) (c1 :: rest) = take (nbytes - 1) (c1 :: ds))
    as ->.
  { rewrite Hrest at 1. fold ds.
    change (c1 :: ds ++ (span isDigit rest).2)
      with ((c1 :: ds) ++ (span isDigit rest).2).
    by rewrite take_app_le. }
  assert (forallb isDigit (take (nbytes - 1) (c1 :: ds)) = true) as Hall.
  { apply forallb_take. cbn [forallb]. by rewrite Hc1. }
  pose proof (digitsValue_bound _ 0 Hall (Z.le_refl 0)) as Hvalue.
  rewrite length_take, Nat.min_l in Hvalue by done.
  assert (10 ^ Z.of_nat (nbytes - 1) * 10 ^ Z.of_nat (10 - nbytes)
          = 1000000000) as Hscale.
  { rewrite <- Z.pow_add_r by lia.
    by replace (Z.of_nat (nbytes - 1) + Z.of_nat (10 - nbytes)) with 9
      by lia. }
  assert (0 < 10 ^ Z.of_nat (10 - nbytes)) by (apply Z.pow_pos_nonneg; lia).
  nia.
Qed.

(** What time.Parse returns for this layout: a second of the years 0000
    to 9999, and less than a second more. *)
Lemma Parse_range value t :
  Parse value = Some t ->
  0 <= nsec t < Second
  /\ firstDay * 86400 <= unixSec t < (lastDay + 1) * 86400.
Proof.
  unfold Parse. intros H.
  repeat match type of H with
  | (mbind _ ?x) = _ =>
      let E := fresh "E" in destruct x eqn:E; try discriminate H;
      cbn [mbind option_bind] in H
  | (let '(_, _) := ?x in _) = _ => destruct x
  | (if ?b then _ else _) = _ =>
      let E := fresh "C" in destruct b eqn:E; try discriminate H
  | (match ?x with _ => _ end) = _ =>
      let E := fresh "E" in destruct x eqn:E; try discriminate H
  end.
  injection H as <-. cbn [nsec unixSec]. split; [apply fractionNsec_range|].
  repeat match goal with
  | E : getyear _ = Some _ |- _ => apply getyear_range in E
  | E : getnum _ _ = Some _ |- _ => apply getnum_range in E
  | C : _ || _ = false |- _ => apply orb_false_iff in C as [? ?]
  end.
  repeat match goal with
  | C : (_ <=? _) = false |- _ => apply Z.leb_gt in C
  | C : (_ <? _) = false |- _ => apply Z.ltb_ge in C
  end.
  match goal with
  | |- _ <= daysFromCivil ?y ?m ?d * _ + _ + _ + _ < _ =>
      pose proof (daysFromCivil_range y m d ltac:(lia) ltac:(lia) ltac:(lia))
  end.
  lia.
Qed.

Lemma Parse_Format t :
  firstDay * 86400 <= unixSec t < (lastDay + 1) * 86400 ->
  Parse (Format t) = Some (mkTime (unixSec t) 0)
  /\ length (Format t) = 19%nat.
Proof.
  intros Hrange. unfold Format.
  set (z := unixSec t / 86400). set (s := unixSec t mod 86400).
  assert (unixSec t = z * 86400 + s /\ 0 <= s < 86400) as [Hsplit Hs].
  { subst z s. pose proof (Z.div_mod (unixSec t) 86400 ltac:(lia)).
    pose proof (Z.mod_pos_bound (unixSec t) 86400 ltac:(lia)). lia. }
  destruct (civilFromDays z) as [[y m] d] eqn:Hdate.
  destruct (civilFromDays_date z y m d Hdate) as (Hm & Hd & Hback & Hy).
  specialize (Hy ltac:(unfold firstDay, lastDay in *; lia)).
  assert (0 <= s / 3600 < 24) as Hhour by arith.
  assert (0 <= s / 60 mod 60 < 60) as Hmin by arith.
  assert (0 <= s mod 60 < 60) as Hsec by arith.
  split.
  - unfold Parse.
    rewrite getyear_appendInt by lia. cbn [mbind option_bind].
    rewrite skipByte_here. cbn [mbind option_bind].
    rewrite getnum_appendInt by lia. cbn [mbind option_bind].
    rewrite (proj2 (Z.leb_gt m 0)), (proj2 (Z.ltb_ge 12 m)) by lia.
    cbn [orb]. rewrite skipByte_here. cbn [mbind option_bind].
    rewrite getnum_appendInt by (unfold daysIn in Hd;
      repeat match goal with
             | H : context [if ?b then _ else _] |- _ => destruct b
             end; lia).
    cbn [mbind option_bind].
    rewrite skipSpace_appendInt by lia. cbn [mbind option_bind].
    rewrite getnum_appendInt by lia. cbn [mbind option_bind].
    rewrite (proj2 (Z.leb_gt 24 _)) by lia.
    rewrite skipByte_here. cbn [mbind option_bind].
    rewrite getnum_appendInt by lia. cbn [mbind option_bind].
    rewrite (proj2 (Z.leb_gt 60 _)) by lia.
    rewrite skipByte_here. cbn [mbind option_bind].
    rewrite <- (app_nil_r (appendInt (s mod 60) 2)).
    rewrite getnum_appendInt by lia. cbn [mbind option_bind].
    rewrite (proj2 (Z.leb_gt 60 _)) by lia.
    cbn [skipFraction fractionNsec].
    rewrite (proj2 (Z.ltb_ge d 1)), (proj2 (Z.ltb_ge (daysIn m y) d)) by lia.
    cbn [orb]. do 2 f_equal. rewrite Hback, Hsplit.
    Z.div_mod_to_equations. lia.
  - rewrite appendInt_4 by lia.
    rewrite !appendInt_2; try lia; [done|].
    unfold daysIn in Hd.
    repeat match goal with
           | H : context [if ?b then _ else _] |- _ => destruct b
           end; lia.
Qed.

Lemma Add_seconds t (seconds : Z) :
  0 <= nsec t < Second ->
  Add t (seconds * Second) = mkTime (unixSec t + seconds) (nsec t).
Proof.
  unfold Add, Second, Nanosecond. intros Hnsec.
  f_equal; Z.div_mod_to_equations; lia.
Qed.

End RoundTrip.

(** X18. A bound that is moved is still a timestamp, nine hours earlier.
    When a bound without a time zone parses as a timestamp, not within the
    first nine hours of the year 0000, the text that jstToUtc puts in its
    place has the 19 bytes of the layout and parses as the instant that
    lies 9 hours before the one the bound parses as, cut to the whole
    second: exactly 9 hours before for a bound without a fraction of a
    second, and that fraction of a second earlier still for a bound that
    has one. *)
Theorem jstToUtc_nine_hours_earlier (date : gostring) (t : GoTime.Time) :
  Contains date (bs "+") = false -> Contains date (bs "Z") = false ->
  GoTime.Parse date = Some t ->
  firstDay * 86400 + 9 * 3600 <= GoTime.unixSec t ->
  GoTime.Add t (-9 * GoTime.Hour)
  = GoTime.mkTime (GoTime.unixSec t - 9 * 3600) (GoTime.nsec t)
  /\ GoTime.Parse (jstToUtc date)
     = Some (GoTime.mkTime (GoTime.unixSec t - 9 * 3600) 0)
  /\ (GoTime.Parse (jstToUtc date) = Some (GoTime.Add t (-9 * GoTime.Hour))
      <-> GoTime.nsec t = 0)
  /\ length (jstToUtc date) = 19%nat.
Proof.
  intros Hplus Hzone Hparse Hlate. unfold jstToUtc.
  rewrite Hplus, Hzone, Hparse. cbn [negb andb].
  destruct (Parse_range date t Hparse) as [Hnsec Hrange].
  change (-9 * GoTime.Hour) with ((-32400) * GoTime.Second).
  rewrite Add_seconds by done.
  replace (GoTime.unixSec t + -32400) with (GoTime.unixSec t - 9 * 3600)
    by lia.
  destruct (Parse_Format
              (GoTime.mkTime (GoTime.unixSec t - 9 * 3600) (GoTime.nsec t)))
    as [Hback Hlen].
  { cbn [GoTime.unixSec]. unfold firstDay, lastDay in *. lia. }
  cbn [GoTime.unixSec] in Hback.
  split; [done|]. split; [exact Hback|]. split; [|exact Hlen].
  rewrite Hback. split.
  - by intros [= <-].
  - by intros <-.
Qed.

Lemma jstToUtc_nine_hours_earlier_witness :
  GoTime.Parse (bs "2024-03-01 05:30:00.25")
  = Some (GoTime.mkTime 1709271000 250000000)
  /\ jstToUtc (bs "2024-03-01 05:30:00.25") = bs "2024-02-29 20:30:00"
  /\ GoTime.Parse (jstToUtc (bs "2024-03-01 05:30:00.25"))
     = Some (GoTime.mkTime (1709271000 - 9 * 3600) 0).
Proof.
  split; [reflexivity|]. split; [reflexivity|].
  apply (jstToUtc_nine_hours_earlier (bs "2024-03-01 05:30:00.25")
           (GoTime.mkTime 1709271000 250000000)).
  - reflexivity.
  - reflexivity.
  - reflexivity.
  - vm_compute. discriminate.
Defined.

(** ** The handler: what it answers at once *)

(** ** The answers of the handler *)

Lemma eventGuard_dropped (processed processed' : gmap gostring bool)
    (wrapper : SlackEventWrapper) (r : Response) :
  eventGuard processed wrapper = (Some r, processed') ->
  r = duplicateEvent /\ processed' = processed.
Proof.
  unfold eventGuard. destruct (negb _); [|discriminate].
  destruct (processed !! _); [|discriminate]. by intros [= <- <-].
Qed.

Lemma queryGuard_dropped (clock : Clock) (recent recent' : gmap gostring Z)
    (key : gostring) (r : Response) :
  queryGuard clock recent key = (Some r, recent') ->
  r = duplicateQuery /\ recent' = recent.
Proof.
  unfold queryGuard.
  destruct (match recent !! key with Some _ => _ | None => _ end);
    [|discriminate].
  by intros [= <- <-].
Qed.

(** X19. What the handler answers without processing.  The status is 200,
    except for a body that cannot be parsed, which is answered 400; an
    answer leaves recentQueries as it was, and leaves processedEvents as
    it was too unless it is "ignored empty message" or "duplicate query
    ignored" (both given after the event has been marked). *)
Theorem handlerIntake_answers (clock : Clock) (caches caches' : Caches)
    (req : Request) (r : Response) :
  handlerIntake clock caches req = (Respond r, caches') ->
  recentQueries caches' = recentQueries caches
  /\ (StatusCode r = 200 \/ StatusCode r = 400)
  /\ (StatusCode r = 400 <-> retryNum req = bs "" /\ unparsed (body req))
  /\ (caches' = caches \/ r = ignoredShort \/ r = duplicateQuery).
Proof.
  unfold handlerIntake, unparsed.
  destruct (bool_decide (retryNum req = bs "")) eqn:Hretry; cbn [negb].
  2: { apply bool_decide_eq_false in Hretry. intros [= <- <-].
       cbn. repeat split; auto; try done. by intros [? _]. }
  apply bool_decide_eq_true in Hretry.
  destruct (body req) as [|[challenge|] [wrapper|]].
  1-3, 5: intros [= <- <-]; cbn; repeat split; auto; try done;
    by intros [_ [|]].
  - destruct (negb (bool_decide (wrType wrapper = bs "event_callback"))).
    { intros [= <- <-]. cbn. repeat split; auto; try done. by intros [_ [|]]. }
    destruct (negb _ && negb _).
    { intros [= <- <-]. cbn. repeat split; auto; try done. by intros [_ [|]]. }
    destruct (bool_decide (evUser (Event wrapper) = bs "U08N7NYBPAL")).
    { intros [= <- <-]. cbn. repeat split; auto; try done. by intros [_ [|]]. }
    destruct (eventGuard (processedEvents caches) wrapper)
      as [[dropped|] processed] eqn:Hevent.
    { apply eventGuard_dropped in Hevent as [-> ->]. intros [= <- <-].
      cbn. repeat split; auto; try done; [by intros [_ [|]]|].
      left. by destruct caches. }
    cbn [recentQueries processedEvents].
    destruct (_ || _).
    { intros [= <- <-]. cbn. repeat split; auto; try done. by intros [_ [|]]. }
    destruct (queryGuard clock (recentQueries caches) _)
      as [[dropped|] recent] eqn:Hquery; [|discriminate].
    apply queryGuard_dropped in Hquery as [-> ->]. intros [= <- <-].
    cbn. repeat split; auto; try done. by intros [_ [|]].
Qed.

Lemma handlerIntake_answers_witness :
  recentQueries (handlerIntake noon noCaches unreadable).2 = ∅
  /\ StatusCode (response 400 (bs "invalid request")) = 400.
Proof.
  destruct (handlerIntake_answers noon noCaches
              (handlerIntake noon noCaches unreadable).2 unreadable
              (response 400 (bs "invalid request")) eq_refl)
    as (Hrecent & _ & Hstatus & _).
  split; [exact Hrecent|]. apply Hstatus. split; [reflexivity|by left].
Defined.

(** ** init: the token of the notifier *)

(** ** The token of the notifier *)

Lemma tokenAt_Some (secretMap : gmap gostring JsonValue) (key token : gostring) :
  tokenAt secretMap key = Some token ->
  secretMap !! key = Some (JsonString token) /\ token <> [].
Proof.
  unfold tokenAt. destruct (secretMap !! key) as [[s|]|]; try done.
  destruct (bool_decide (s = [])) eqn:Hs; [done|].
  apply bool_decide_eq_false in Hs. by intros [= <-].
Qed.

(** X20. Where the Slack token comes from.  After init the token is empty
    exactly when no secret was retrieved or the secret is the empty
    string; otherwise it is the secret itself, or the non-empty string
    that the secret, decoded as JSON, holds under token, slack_token or
    SLACK_TOKEN.  A secret that does not begin with a brace is the token,
    and with a token that is not empty postToSlack does not stop at its
    token check. *)
Theorem init_token (w : Secrets) :
  (init w = [] <-> retrieved w = None \/ retrieved w = Some [])
  /\ (forall secret, retrieved w = Some secret ->
        (HasPrefix secret (bs "{") = false -> init w = secret)
        /\ (init w = secret
            \/ exists secretMap key,
                 Unmarshal w secret = Some secretMap
                 /\ key ∈ tokenKeys
                 /\ secretMap !! key = Some (JsonString (init w))))
  /\ (forall send clock channel msg,
        retrieved w <> None -> retrieved w <> Some [] ->
        (postToSlack {| slackToken := init w; chatPostMessage := send |}
           clock ∅ channel msg).2 = [(channel, msg)]).
Proof.
  assert (forall secret, retrieved w = Some secret ->
            (secret = [] -> init w = [])
            /\ (secret <> [] -> init w <> [])
            /\ (HasPrefix secret (bs "{") = false -> init w = secret)
            /\ (init w = secret
                \/ exists secretMap key,
                     Unmarshal w secret = Some secretMap
                     /\ key ∈ tokenKeys
                     /\ secretMap !! key = Some (JsonString (init w))))
    as Hsecret.
  { intros secret. unfold retrieved, init.
    destruct (bool_decide (secretName w = [])); [done|].
    destruct (GetSecretValue w (secretName w)) as [err|[s|]]; try done.
    intros [= ->].
    destruct (HasPrefix secret (bs "{")) eqn:Hbrace; cbn [negb]; [|by auto].
    assert (secret <> []) as Hne by (by destruct secret).
    destruct (Unmarshal w secret) as [secretMap|]; [|by auto].
    unfold tokenKeys.
    destruct (tokenAt secretMap (bs "token")) as [t|] eqn:H1.
    { apply tokenAt_Some in H1 as [H1 Ht]. repeat split; try done.
      right. exists secretMap, (bs "token"). 
      split; [done|]. split; [apply list_elem_of_In; simpl; tauto|done]. }
    destruct (tokenAt secretMap (bs "slack_token")) as [t|] eqn:H2.
    { apply tokenAt_Some in H2 as [H2 Ht]. repeat split; try done.
      right. exists secretMap, (bs "slack_token"). 
      split; [done|]. split; [apply list_elem_of_In; simpl; tauto|done]. }
    destruct (tokenAt secretMap (bs "SLACK_TOKEN")) as [t|] eqn:H3.
    { apply tokenAt_Some in H3 as [H3 Ht]. repeat split; try done.
      right. exists secretMap, (bs "SLACK_TOKEN"). 
      split; [done|]. split; [apply list_elem_of_In; simpl; tauto|done]. }
    by auto. }
  assert (retrieved w = None -> init w = []) as Hnone.
  { unfold retrieved, init.
    destruct (bool_decide (secretName w = [])); [done|].
    by destruct (GetSecretValue w (secretName w)) as [err|[s|]]. }
  assert (init w = [] <-> retrieved w = None \/ retrieved w = Some []) as Hempty.
  { split.
    - intros Hinit. destruct (retrieved w) as [secret|] eqn:Hr; [|by left].
      right. destruct (Hsecret secret eq_refl) as (_ & Hne & _).
      destruct secret; [done|]. by destruct Hne.
    - intros [Hr|Hr]; [by apply Hnone|].
      by destruct (Hsecret [] Hr) as (-> & _). }
  split; [done|]. split.
  - intros secret Hr. by destruct (Hsecret secret Hr) as (_ & _ & ? & ?).
  - intros send clock channel msg Hsome Hne.
    unfold postToSlack. rewrite lookup_empty. cbn [slackToken].
    rewrite bool_decide_eq_false_2; [done|]. rewrite Hempty. tauto.
Qed.

Lemma init_token_witness : init jsonSecrets <> [].
Proof.
  intros Hempty.
  apply (proj1 (proj1 (init_token jsonSecrets))) in Hempty as [Hnone|Hnone];
    vm_compute in Hnone; discriminate Hnone.
Defined.

(** ** containsFrontendKeywords: the case of the text *)

(** ** The keywords of the frontend *)

Lemma Contains_map (f : ascii -> ascii) (s p : gostring) :
  Contains (map f s) p = true
  <-> exists v, Contains s v = true /\ map f v = p.
Proof.
  rewrite Contains_spec. split.
  - intros (a & r & Hs).
    apply fmap_app_inv in Hs as (a' & s' & -> & Hs' & ->).
    symmetry in Hs'.
    apply fmap_app_inv in Hs' as (v & r' & -> & -> & ->).
    exists v. split; [|done]. apply Contains_spec. by exists a', r'.
  - intros (v & (a & r & ->)%Contains_spec & <-).
    exists (map f a), (map f r). by rewrite !map_app.
Qed.

(** X21. containsFrontendKeywords ignores the case of ASCII text: such a
    text is accepted exactly when it contains one of the six keywords in
    some mix of upper and lower case.  Every ASCII query that
    getQueryRegion sends to us-east-1 for its text (frontend or
    global/webacl, in lower case there) is accepted. *)
Theorem containsFrontendKeywords_any_case
    (unicodeLower : gostring -> gostring) (text : gostring) :
  forallb isASCII text = true ->
  (containsFrontendKeywords unicodeLower text = true
   <-> exists keyword v,
         keyword ∈ frontendKeywords /\ spells keyword v
         /\ Contains text v = true)
  /\ (routedByText text = true ->
      containsFrontendKeywords unicodeLower text = true).
Proof.
  intros Hascii.
  assert (containsFrontendKeywords unicodeLower text = true
          <-> exists keyword v,
                keyword ∈ frontendKeywords /\ spells keyword v
                /\ Contains text v = true) as Hspec.
  { unfold containsFrontendKeywords, ToLower, spells. rewrite Hascii.
    rewrite existsb_exists. split.
    - intros (keyword & Hin & (v & Hv & Hspell)%Contains_map).
      exists keyword, v. by rewrite list_elem_of_In.
    - intros (keyword & v & Hin & Hspell & Hv).
      exists keyword. rewrite <- list_elem_of_In. split; [done|].
      apply Contains_map. by exists v. }
  split; [done|].
  intros [Hfront|Hglobal]%orb_true_iff; apply Hspec.
  - exists (bs "frontend"), (bs "frontend").
    split; [apply list_elem_of_In; simpl; tauto|done].
  - exists (bs "global"), (bs "global").
    split; [apply list_elem_of_In; simpl; tauto|].
    split; [done|]. apply (Contains_trans _ _ _ Hglobal). reflexivity.
Qed.

Lemma containsFrontendKeywords_any_case_witness :
  containsFrontendKeywords (fun s => s) (bs "Blocked requests on the Front-End WAF")
  = true.
Proof.
  apply (proj1 (containsFrontendKeywords_any_case (fun s => s)
                  (bs "Blocked requests on the Front-End WAF") eq_refl)).
  exists (bs "front-end"), (bs "Front-End").
  split; [|split; reflexivity].
  apply list_elem_of_In. vm_compute. tauto.
Defined.

(** ** postToSlack: messages with the same count *)

(** ** The signature of a message *)

Section Signatures.

Implicit Types (before count rest s : gostring).

Lemma HasPrefix_other (c h : ascii) s (t : gostring) :
  Ascii.eqb c h = false -> HasPrefix (c :: s) (h :: t) = false.
Proof.
  intros Hc. destruct (HasPrefix (c :: s) (h :: t)) eqn:Hp; [|done].
  apply HasPrefix_spec in Hp as [r [= -> _]]. by rewrite Ascii.eqb_refl in Hc.
Qed.

Lemma cutAt_unfold (sep : gostring) s :
  cutAt sep s
  = if HasPrefix s sep then ([], Some (drop (length sep) s))
    else match s with
         | [] => ([], None)
         | c :: s' => let '(a, b) := cutAt sep s' in (c :: a, b)
         end.
Proof. by destruct s. Qed.

Lemma cutAt_marker before s :
  noStar before ->
  cutAt resultMarker (before ++ resultMarker ++ s) = (before, Some s).
Proof.
  unfold noStar. induction before as [|c before IH]; intros Hfree.
  - cbn [app]. rewrite cutAt_unfold, HasPrefix_app.
    by rewrite drop_app_length.
  - cbn [forallb] in Hfree. apply andb_true_iff in Hfree as [Hc Hfree].
    apply negb_true_iff in Hc.
    cbn [app]. change resultMarker with ("*"%char :: bs "result:*") at 1.
    cbn [cutAt]. rewrite (HasPrefix_other _ _ _ _ Hc).
    change ("*"%char :: bs "result:*") with resultMarker.
    by rewrite (IH Hfree).
Qed.

Lemma cutAt_count count rest :
  noStar count -> oneLine count ->
  (cutAt newline (cutAt resultMarker (count ++ newline ++ rest)).1).1 = count.
Proof.
  unfold noStar, oneLine.
  induction count as [|c count IH]; intros Hstar Hline.
  - cbn [app]. change newline with ["010"%char].
    change resultMarker with ("*"%char :: bs "result:*").
    cbn [app cutAt]. rewrite HasPrefix_other by done.
    by destruct (cutAt _ rest) as [a b].
  - cbn [forallb] in Hstar, Hline.
    apply andb_true_iff in Hstar as [Hc Hstar].
    apply andb_true_iff in Hline as [Hn Hline].
    apply negb_true_iff in Hc, Hn. specialize (IH Hstar Hline).
    cbn [app]. change resultMarker with ("*"%char :: bs "result:*") at 1.
    cbn [cutAt]. rewrite (HasPrefix_other _ _ _ _ Hc).
    change ("*"%char :: bs "result:*") with resultMarker.
    destruct (cutAt resultMarker (count ++ newline ++ rest)) as [a b].
    cbn [fst] in *. change newline with ["010"%char] at 1.
    cbn [cutAt]. rewrite (HasPrefix_other _ _ _ _ Hn).
    change ["010"%char] with newline.
    destruct (cutAt newline a) as [a' b']. cbn [fst] in *. by rewrite IH.
Qed.

Lemma contentSignature_counted before count rest :
  noStar before -> noStar count -> oneLine count ->
  (50 < length (countedMessage before count rest))%nat ->
  contentSignature (countedMessage before count rest)
  = bs "WAF result:" ++ count.
Proof.
  intros Hbefore Hstar Hline Hlong. unfold contentSignature.
  rewrite (proj2 (Nat.ltb_lt _ _) Hlong).
  assert (Contains (countedMessage before count rest) (bs "*result:*") = true)
    as ->.
  { apply Contains_spec. by exists before, (count ++ newline ++ rest). }
  cbn [andb]. unfold countedMessage.
  change (bs "*result:*") with resultMarker.
  rewrite (cutAt_marker _ _ Hbefore). by rewrite cutAt_count.
Qed.

End Signatures.

(** X22. Messages with the same result count are taken for the same message.
    A message longer than 50 bytes whose first asterisk opens the marker
    *result:* is remembered under "WAF result:" and the rest of that line
    alone; so after such a message has been recorded for a channel, a
    message to the same channel with the same count is suppressed for 3
    minutes (nil, nothing sent, the cache left alone) whatever else the two
    messages say. *)
Theorem postToSlack_same_count_suppressed (slack slack' : Slack)
    (clock later : Clock) (recent : gmap gostring Z)
    (channel before before' count rest rest' : gostring) :
  let msg := countedMessage before count rest in
  let msg' := countedMessage before' count rest' in
  let recent' := (postToSlack slack clock recent channel msg).1.2 in
  noStar before -> noStar before' -> noStar count -> oneLine count ->
  (50 < length msg)%nat -> (50 < length msg')%nat ->
  match recent !! msgHash channel msg with
  | Some t => 3 * GoTime.Minute <= tCheck clock - t
  | None => True
  end ->
  tClean clock - tRecord clock <= 10 * GoTime.Minute ->
  tCheck later - tRecord clock < 3 * GoTime.Minute ->
  contentSignature msg = bs "WAF result:" ++ count
  /\ postToSlack slack' later recent' channel msg' = (None, recent', []).
Proof.
  intros msg msg' recent' Hb Hb' Hstar Hline Hlong Hlong' Hfirst Hprompt Hsoon.
  pose proof (contentSignature_counted before count rest Hb Hstar Hline Hlong)
    as Hsig.
  pose proof (contentSignature_counted before' count rest' Hb' Hstar Hline Hlong')
    as Hsig'.
  split; [done|].
  destruct (postToSlack_recorded slack clock recent channel msg Hfirst Hprompt)
    as (err & cache & sent & Hpost & Hrec & _).
  assert (recent' = cache) as -> by (subst recent'; by rewrite Hpost).
  apply postToSlack_suppressed with (t := tRecord clock); [|done].
  unfold msgHash in *. fold msg msg' in Hsig, Hsig'. by rewrite Hsig', <- Hsig.
Qed.

Lemma postToSlack_same_count_suppressed_witness :
  contentSignature fiveBlocked = bs "WAF result: 5 rows"
  /\ postToSlack withToken aMinuteLater
       (postToSlack withToken noon ∅ (bs "C1") fiveBlocked).1.2
       (bs "C1") fiveAllowed
     = (None, (postToSlack withToken noon ∅ (bs "C1") fiveBlocked).1.2, []).
Proof.
  apply (postToSlack_same_count_suppressed withToken withToken noon
           aMinuteLater ∅ (bs "C1")
           (bs "WAF log search for the last hour, all hosts, api: ")
           (bs "WAF log search for the last day, one host, frontend: ")
           (bs " 5 rows") (bs "top address 10.0.0.1")
           (bs "top address 10.0.0.2")); try reflexivity.
  - vm_compute. lia.
  - vm_compute. lia.
  - vm_compute. discriminate.
Defined.

(** ** runAthenaQuery: the database of the first call *)

(** ** Replacing every occurrence *)

Section Removal.

Context (old : gostring) (n0 : ascii) (new' : gostring).
Context (Hremoves : removes old (n0 :: new') = true).

Implicit Types (s q u x : gostring) (c : ascii).

Local Abbreviation new := (n0 :: new').
Local Abbreviation replaced := (replaceFrom old new None 0).

Lemma removes_old : old <> [].
Proof. by intros ->. Qed.

Lemma removes_head : avoids old n0 = true.
Proof.
  unfold removes in Hremoves. destruct old as [|o old']; [done|].
  by apply andb_true_iff in Hremoves as [Hn0 _].
Qed.

Lemma removes_ends (k : nat) x :
  (k < length new)%nat -> HasPrefix (drop k new ++ x) old = false.
Proof.
  intros Hk.
  assert (HasPrefix old (drop k new) = false
          /\ HasPrefix (drop k new) old = false) as [Hshort Hlong].
  { pose proof Hremoves as Hall. unfold removes in Hall.
    destruct old as [|o old']; [done|].
    apply andb_true_iff in Hall as [_ Hall].
    rewrite forallb_forall in Hall.
    specialize (Hall k ltac:(apply in_seq; lia)).
    apply andb_true_iff in Hall as [H1 H2].
    by apply negb_true_iff in H1, H2. }
  assert (forall p u, HasPrefix (u ++ x) p = true ->
            HasPrefix u p = true \/ HasPrefix p u = true) as Hcases.
  { clear. induction p as [|d p IH]; intros [|e u] Hp; auto.
    cbn [app HasPrefix] in *. apply andb_true_iff in Hp as [Hd Hp].
    rewrite Hd. cbn [andb]. apply Ascii.eqb_eq in Hd as ->.
    rewrite Ascii.eqb_refl. by apply IH. }
  destruct (HasPrefix (drop k new ++ x) old) eqn:Hp; [|done].
  destruct (Hcases _ _ Hp); congruence.
Qed.

Lemma replaced_cons c s :
  replaced (c :: s)
  = if HasPrefix (c :: s) old
    then new ++ replaced (drop (Nat.pred (length old)) s)
    else c :: replaced s.
Proof.
  cbn [replaceFrom fmap option_fmap option_map]. by rewrite replaceFrom_skip.
Qed.

(** Where the output begins with bytes other than the first byte of
    [new], the input begins with the same bytes. *)
Lemma replaced_copied q s :
  avoids q n0 = true ->
  HasPrefix (replaced s) q = true -> HasPrefix s q = true.
Proof.
  revert s. induction q as [|d q IH]; intros s Hq; [by destruct s|].
  unfold avoids in Hq. cbn [existsb] in Hq.
  apply negb_true_iff, orb_false_iff in Hq as [Hd Hq].
  destruct s as [|c s]; [done|]. rewrite replaced_cons.
  destruct (HasPrefix (c :: s) old).
  - cbn [app HasPrefix]. rewrite Ascii.eqb_sym in Hd. by rewrite Hd.
  - cbn [HasPrefix]. intros [Hc Hrest]%andb_true_iff. rewrite Hc.
    apply IH; [|done]. unfold avoids. by rewrite Hq.
Qed.

Lemma replaced_start s : HasPrefix (replaced s) old = false.
Proof.
  destruct (HasPrefix (replaced s) old) eqn:Hout; [|done].
  assert (HasPrefix s old = true) as Hin
    by (apply replaced_copied; [apply removes_head|done]).
  destruct s as [|c s]; [pose proof removes_old; by destruct old|].
  rewrite replaced_cons, Hin in Hout.
  pose proof (removes_ends 0 (replaced (drop (Nat.pred (length old)) s))
                ltac:(cbn [length]; lia)) as Hends.
  rewrite drop_0 in Hends. congruence.
Qed.

Lemma replaced_clean s : Contains (replaced s) old = false.
Proof.
  remember (length s) as n eqn:Hn. revert s Hn.
  induction n as [n IH] using lt_wf_ind. intros [|c s] ->.
  - pose proof removes_old. by destruct old.
  - rewrite replaced_cons. destruct (HasPrefix (c :: s) old) eqn:Hin.
    + assert (forall k, (k <= length new)%nat ->
                Contains (drop (length new - k) new
                          ++ replaced (drop (Nat.pred (length old)) s)) old
                = false) as Hends.
      { induction k as [|k IHk]; intros Hk.
        - rewrite Nat.sub_0_r, drop_all. cbn [app].
          apply (IH (length (drop (Nat.pred (length old)) s))); [|done].
          rewrite length_drop. cbn [length]. lia.
        - destruct (drop (length new - S k) new) as [|e u] eqn:Hdrop.
          { apply (f_equal length) in Hdrop. rewrite length_drop in Hdrop.
            cbn [length] in Hdrop. lia. }
          assert (drop (length new - k) new = u) as Hnext.
          { replace (length new - k)%nat with ((length new - S k) + 1)%nat
              by lia.
            by rewrite <- drop_drop, Hdrop. }
          pose proof (removes_ends (length new - S k)
                        (replaced (drop (Nat.pred (length old)) s))
                        ltac:(lia)) as Hhere.
          rewrite Hdrop in Hhere. rewrite Hnext in IHk.
          cbn [app Contains] in *. rewrite Hhere. cbn [orb].
          apply IHk. lia. }
      specialize (Hends (length new) (le_n _)).
      by rewrite Nat.sub_diag, drop_0 in Hends.
    + cbn [Contains].
      pose proof (replaced_start (c :: s)) as Hstart.
      rewrite replaced_cons, Hin in Hstart. rewrite Hstart. cbn [orb].
      apply (IH (length s)); [cbn [length]; lia|done].
Qed.

End Removal.

Lemma Replace_clean (old new s : gostring) :
  removes old new = true -> Contains (Replace s old new (-1)) old = false.
Proof.
  intros Hremoves. destruct new as [|n0 new']; [by destruct old|].
  unfold Replace.
  destruct (decide (old = n0 :: new')) as [Heq|_].
  { pose proof (removes_head old n0 new' Hremoves) as Hn0.
    rewrite Heq in Hn0. unfold avoids in Hn0. cbn [existsb] in Hn0.
    by rewrite Ascii.eqb_refl in Hn0. }
  cbn. pose proof (removes_old old n0 new' Hremoves).
  destruct old as [|o old'] eqn:Ho; [done|]. rewrite <- Ho in *.
  by apply replaced_clean.
Qed.

(** ** The database of a us-east-1 query *)

Lemma beforeByte_noDot (s : gostring) : noDot (beforeByte "." s).
Proof.
  unfold noDot, beforeByte.
  by destruct (span_spec (fun c => negb (Ascii.eqb c ".")) s) as (_ & ? & _).
Qed.

Lemma Replace_noDot (s old new : gostring) (n : Z) :
  old <> [] -> noDot new -> noDot s -> noDot (Replace s old new n).
Proof.
  intros Hold Hnew. unfold noDot.
  apply (rewrites_forallb (fun m r => m = old /\ r = new)).
  - by intros m r [_ ->].
  - by apply Replace_rewrites.
Qed.

Lemma hyphens_keep_underscores :
  keeps apUnderscore apHyphen (bs "us-east-1").
Proof.
  assert (apUnderscore <> []) as Hp by done.
  intros a b.
  change (a ++ apHyphen ++ b)
    with (a ++ bs "ap" ++ "-"%char :: bs "northeast" ++ "-"%char :: bs "1" ++ b).
  change (a ++ bs "us-east-1" ++ b)
    with (a ++ "u"%char :: bs "s" ++ "-"%char :: bs "east" ++ "-"%char
            :: bs "1" ++ b).
  rewrite (app_assoc a (bs "ap")).
  rewrite (Contains_split _ Hp (a ++ bs "ap") "-") by done.
  rewrite (Contains_split _ Hp (bs "northeast") "-") by done.
  rewrite (Contains_app_noOverlap _ Hp a (bs "ap")) by done.
  rewrite (Contains_split _ Hp a "u") by done.
  rewrite (Contains_split _ Hp (bs "s") "-") by done.
  rewrite (Contains_split _ Hp (bs "east") "-") by done.
  change (Contains (bs "ap") apUnderscore) with false.
  change (Contains (bs "northeast") apUnderscore) with false.
  change (Contains (bs "s") apUnderscore) with false.
  change (Contains (bs "east") apUnderscore) with false.
  by rewrite !orb_false_r.
Qed.

(** X23. The database of the first call.  A query that is not rejected
    starts with a StartQueryExecution whose database name has no dot (the
    table part of ATHENA_DATABASE is cut off).  For a query routed to
    us-east-1 the name has neither ap_northeast_1 nor ap-northeast-1 left
    in it, whatever ATHENA_DATABASE holds; for any other query it is
    ATHENA_DATABASE up to its first dot, and the output location is
    s3://, the bucket and a slash. *)
Theorem runAthenaQuery_database (env : Env) (query : gostring) :
  denyListed env query = false ->
  exists database output,
    startedWith (runAthenaQuery env query).2 = Some (database, output)
    /\ noDot database
    /\ (getQueryRegion query = bs "us-east-1" ->
        Contains database apUnderscore = false
        /\ Contains database apHyphen = false)
    /\ (getQueryRegion query <> bs "us-east-1" ->
        database = beforeByte "." (athenaDB env)
        /\ output = bs "s3://" ++ athenaOutput env ++ bs "/").
Proof.
  intros Hdeny. unfold runAthenaQuery. rewrite Hdeny.
  rewrite preprocessSqlQuery_region.
  set (region := getQueryRegion query).
  set (client := getAthenaClient env region).
  match goal with
  | |- context [StartQueryExecution client ?q ?db ?out ?wg] =>
      set (database := db); set (output := out)
  end.
  exists database, output. split; [|split; [|split]].
  - repeat match goal with
           | |- context [match ?x with _ => _ end] =>
               lazymatch x with
               | context [match _ with _ => _ end] => fail
               | _ => destruct x
               end
           end; reflexivity.
  - subst database. destruct (bool_decide (region = bs "us-east-1")).
    + do 2 (apply Replace_noDot; [done|done|]). apply beforeByte_noDot.
    + apply beforeByte_noDot.
  - intros Hus. subst database.
    rewrite (bool_decide_eq_true_2 _ Hus). split.
    + rewrite (Replace_keeps apUnderscore _ apHyphen (bs "us-east-1"))
        by (done || apply hyphens_keep_underscores).
      by apply Replace_clean.
    + by apply Replace_clean.
  - intros Hap. subst database output.
    rewrite (bool_decide_eq_false_2 _ Hap). by cbn [andb].
Qed.

Lemma runAthenaQuery_database_witness :
  exists database output,
    startedWith (runAthenaQuery twoRegionsEnv unquotedQuery).2
    = Some (database, output)
    /\ Contains database apUnderscore = false
    /\ Contains database apHyphen = false.
Proof.
  destruct (runAthenaQuery_database twoRegionsEnv unquotedQuery eq_refl)
    as (database & output & Hstart & _ & Hus & _).
  exists database, output. split; [exact Hstart|]. apply Hus. reflexivity.
Defined.
